(** * CPU scheduling simulators: a shallow embedding and its properties

    The repository holds five scheduling simulators written in Python
    (question1.py .. question4.py and question6.py).  Each consumes a list of
    process dictionaries [{"id", "arrival", "burst"}] and builds a timeline:
    a list of segments [{"id", "start", "end"}].  Python integers are
    unbounded, so times are modelled in [Z]; dictionaries used as maps are
    [gmap]s, the sets of finished ids are [gset]s. *)

From stdpp Require Import gmap strings list fin_maps functions pretty sorting.
From Stdlib Require Import ZArith Lia.

Local Open Scope Z_scope.

(** ** Data model *)

(** A process dictionary [{"id": .., "arrival": .., "burst": ..}]. *)
Record process := Process {
  pid : string;
  arrival : Z;
  burst : Z
}.

#[global] Instance process_eq_dec : EqDecision process.
Proof. solve_decision. Defined.

(** A timeline segment [{"id": .., "start": .., "end": ..}]. *)
Record segment := Segment {
  seg_id : string;
  seg_start : Z;
  seg_end : Z
}.

#[global] Instance segment_eq_dec : EqDecision segment.
Proof. solve_decision. Defined.

(** The owner recorded for a span in which the processor has nothing to run. *)
Definition Idle : string := "Idle".

Definition duration (s : segment) : Z := seg_end s - seg_start s.

(** What a call can do: return, raise, or keep looping past the fuel that
    the model grants to a [while] loop. *)
Inductive exn := ValueError | TypeError | IndexError.

Inductive outcome (A : Type) :=
  | Returned (a : A)
  | Raised (e : exn)
  | OutOfFuel.
Arguments Returned {A} a.
Arguments Raised {A} e.
Arguments OutOfFuel {A}.

(** ** Python's stable sort

    [sorted(l, key=k)] and [l.sort(key=k)] are stable: elements with equal
    keys keep their relative order.  The result of a stable sort is unique,
    so insertion from the right models it. *)
Section StableSort.
Context {A : Type} (key : A → Z).

Fixpoint insert_by (x : A) (l : list A) : list A :=
  match l with
  | [] => [x]
  | y :: l' => if decide (key x ≤ key y) then x :: l else y :: insert_by x l'
  end.

Definition sorted_by (l : list A) : list A := foldr insert_by [] l.

(** [min(l, key=k)]: the first element whose key is minimal; [None] stands
    for the ValueError raised on an empty sequence. *)
Fixpoint min_by (l : list A) : option A :=
  match l with
  | [] => None
  | x :: l' =>
      match min_by l' with
      | Some y => if decide (key x ≤ key y) then Some x else Some y
      | None => Some x
      end
  end.
End StableSort.

(** ** question1.py: first come, first served *)

(** One turn of [for p in processes_sorted], on the pair
    [(current_time, timeline)]. *)
Definition fcfs_step (st : Z * list segment) (p : process) : Z * list segment :=
  let '(current_time, timeline) := st in
  let '(current_time, timeline) :=
    if decide (current_time < arrival p)
    then (arrival p, timeline ++ [Segment Idle current_time (arrival p)])
    else (current_time, timeline) in
  let start_time := current_time in
  let end_time := start_time + burst p in
  (end_time, timeline ++ [Segment (pid p) start_time end_time]).

(** No operation of the body raises on a list of well-formed dictionaries,
    so the [except] branch is never taken. *)
Definition fcfs_schedule (processes : list process) : list segment :=
  let processes_sorted := sorted_by arrival processes in
  (foldl fcfs_step (0, []) processes_sorted).2.

(** The process table of question1.py. *)
Definition question1_processes : list process :=
  [ Process "P1" 0 5; Process "P2" 3 1; Process "P3" 10 11;
    Process "P4" 12 2; Process "P5" 15 12 ].


(** ** [while] loops

    A [while cond: body] loop on a state [S].  The model grants the loop a
    number of turns; a loop still running after them yields [OutOfFuel]. *)
Section While.
Context {S : Type} (cond : S → bool) (body : S → outcome S).

Fixpoint while (fuel : nat) (st : S) : outcome S :=
  if cond st then
    match fuel with
    | O => OutOfFuel
    | Datatypes.S fuel' =>
        match body st with
        | Returned st' => while fuel' st'
        | Raised e => Raised e
        | OutOfFuel => OutOfFuel
        end
    end
  else Returned st.
End While.

Definition outcome_map {A B : Type} (f : A → B) (o : outcome A) : outcome B :=
  match o with
  | Returned a => Returned (f a)
  | Raised e => Raised e
  | OutOfFuel => OutOfFuel
  end.

(** [min(xs)] over integers; [None] stands for the ValueError on an empty
    sequence. *)
Fixpoint list_min (l : list Z) : option Z :=
  match l with
  | [] => None
  | x :: l' =>
      Some (match list_min l' with Some y => Z.min x y | None => x end)
  end.

Definition sum_burst (ps : list process) : Z := foldr (λ p acc, burst p + acc) 0 ps.
Definition max_arrival (ps : list process) : Z := foldr (λ p acc, Z.max (arrival p) acc) 0 ps.

(** ** question2.py: shortest job first, non-preemptive *)

Record sjf_state := SjfState {
  sjf_timeline : list segment;
  sjf_ready_queue : list process;
  sjf_current_time : Z;
  sjf_completed : gset string
}.

(** One turn of the admission [for]: a process that has arrived, is not
    completed and is not (by dictionary equality) in the ready queue is
    appended to it. *)
Definition sjf_admit (completed : gset string) (current_time : Z)
    (ready_queue : list process) (p : process) : list process :=
  if decide ((pid p ∉ completed) ∧ arrival p ≤ current_time) then
    if decide (p ∈ ready_queue) then ready_queue else ready_queue ++ [p]
  else ready_queue.

(** The ready queue once the admission [for] has run. *)
Definition sjf_ready (processes_sorted : list process) (st : sjf_state)
    : list process :=
  foldl (sjf_admit (sjf_completed st) (sjf_current_time st))
    (sjf_ready_queue st) processes_sorted.

(** The body of [while len(completed_processes) < len(processes)]. *)
Definition sjf_body (processes_sorted : list process) (st : sjf_state)
    : outcome sjf_state :=
  let completed := sjf_completed st in
  let current_time := sjf_current_time st in
  let ready_queue := sjf_ready processes_sorted st in
  match ready_queue with
  | [] =>
      match list_min (arrival <$> filter (λ p, pid p ∉ completed) processes_sorted) with
      | None => Raised ValueError
      | Some next_arrival =>
          Returned (SjfState
            (sjf_timeline st ++ [Segment Idle current_time next_arrival])
            ready_queue next_arrival completed)
      end
  | _ :: _ =>
      match sorted_by burst ready_queue with
      | [] => Raised IndexError
      | shortest_process :: ready_queue =>
          let start_time := current_time in
          let end_time := start_time + burst shortest_process in
          Returned (SjfState
            (sjf_timeline st ++ [Segment (pid shortest_process) start_time end_time])
            ready_queue end_time ({[pid shortest_process]} ∪ completed))
      end
  end.

Definition sjf_cond (processes : list process) (st : sjf_state) : bool :=
  bool_decide (size (sjf_completed st) < length processes)%nat.

Definition sjf_init : sjf_state := SjfState [] [] 0 ∅.

(** Every turn of the loop either completes a process or is an idle jump
    that is followed by a completion, so twice the number of processes is
    enough fuel: within it the loop ends or raises, whatever the list
    (lemmas [sjf_returns] and [sjf_fuel_enough]). *)
Definition sjf_non_preemptive_schedule (processes : list process)
    : outcome (list segment) :=
  let processes_sorted := sorted_by arrival processes in
  outcome_map sjf_timeline
    (while (sjf_cond processes) (sjf_body processes_sorted)
       (2 * length processes) sjf_init).

(** The process table of question2.py (and of question3.py and question4.py). *)
Definition question2_processes : list process :=
  [ Process "P1" 0 5; Process "P2" 3 1; Process "P3" 10 11;
    Process "P4" 12 5; Process "P5" 15 12 ].

(** ** question3.py: shortest remaining time first *)

(** [{p['id']: p['burst'] for p in processes}]: a later dictionary with the
    same id overwrites an earlier one. *)
Definition remaining_init (processes : list process) : gmap string Z :=
  foldl (λ m p, <[pid p := burst p]> m) ∅ processes.

Record srtf_state := SrtfState {
  srtf_remaining : gmap string Z;
  srtf_time : Z;
  srtf_timeline : list segment;
  srtf_current_process : option string;
  srtf_segment_start : Z;
  srtf_completed : gset string
}.

(** [if current_process is not None: timeline.append(..)]. *)
Definition close_segment (timeline : list segment) (current_process : option string)
    (segment_start time : Z) : list segment :=
  match current_process with
  | Some c => timeline ++ [Segment c segment_start time]
  | None => timeline
  end.

Definition srtf_available (processes_sorted : list process) (st : srtf_state)
    : list process :=
  filter (λ p, arrival p ≤ srtf_time st ∧ (pid p ∉ srtf_completed st)) processes_sorted.

(** [min(available, key=lambda x: remaining[x['id']])].  Every id of
    [processes] is a key of [remaining] from the comprehension onwards
    (lemmas [remaining_init_dom] and [srtf_body_keys]), so the subscripts
    [remaining[..]] never raise and are read with the total lookup.  The
    result is [None] exactly when [available] is empty. *)
Definition srtf_next_proc (processes_sorted : list process) (st : srtf_state)
    : option process :=
  min_by (λ x, srtf_remaining st !!! pid x) (srtf_available processes_sorted st).

(** The body of [while len(completed) < n]. *)
Definition srtf_body (processes_sorted : list process) (st : srtf_state)
    : srtf_state :=
  let '(SrtfState remaining time timeline current_process segment_start completed) := st in
  match srtf_next_proc processes_sorted st with
  | None =>
      if decide (current_process ≠ Some Idle) then
        SrtfState remaining (time + 1)
          (close_segment timeline current_process segment_start time)
          (Some Idle) time completed
      else
        SrtfState remaining (time + 1) timeline current_process segment_start completed
  | Some next_proc =>
      let '(timeline, current_process, segment_start) :=
        if decide (current_process ≠ Some (pid next_proc)) then
          (close_segment timeline current_process segment_start time,
           Some (pid next_proc), time)
        else (timeline, current_process, segment_start) in
      let remaining := <[pid next_proc := remaining !!! pid next_proc - 1]> remaining in
      let time := time + 1 in
      if decide (remaining !!! pid next_proc = 0) then
        SrtfState remaining time
          (close_segment timeline current_process segment_start time)
          None time ({[pid next_proc]} ∪ completed)
      else
        SrtfState remaining time timeline current_process segment_start completed
  end.

Definition srtf_cond (n : nat) (st : srtf_state) : bool :=
  bool_decide (size (srtf_completed st) < n)%nat.

Definition srtf_init (processes : list process) : srtf_state :=
  SrtfState (remaining_init processes) 0 [] None 0 ∅.

(** One turn per unit of time: when the loop ends at all, it is over by
    time [max arrival + sum of bursts] (lemmas [srtf_returns] and
    [srtf_fuel_enough]). *)
Definition srtf_fuel (processes : list process) : nat :=
  Z.to_nat (max_arrival processes + sum_burst processes).

(** The body never raises. *)
Definition srtf_turn (processes_sorted : list process) (st : srtf_state)
    : outcome srtf_state :=
  Returned (srtf_body processes_sorted st).

Definition sjf_preemptive_schedule (processes : list process)
    : outcome (list segment) :=
  let n := length processes in
  let processes_sorted := sorted_by arrival processes in
  outcome_map srtf_timeline
    (while (srtf_cond n) (srtf_turn processes_sorted)
       (srtf_fuel processes) (srtf_init processes)).

(** ** question4.py: round robin on one processor *)

Record rr_state := RrState {
  rr_timeline : list segment;
  rr_current_time : Z;
  rr_remaining : gmap string Z;
  rr_ready_queue : list process;
  rr_i : nat
}.

(** [while i < n and processes_sorted[i]['arrival'] <= current_time:
       ready_queue.append(processes_sorted[i]); i += 1],
    run on the processes from index [i] on. *)
Fixpoint rr_admit (pending : list process) (current_time : Z)
    (ready_queue : list process) (i : nat) : list process * nat :=
  match pending with
  | [] => (ready_queue, i)
  | p :: pending' =>
      if decide (arrival p ≤ current_time)
      then rr_admit pending' current_time (ready_queue ++ [p]) (S i)
      else (ready_queue, i)
  end.

(** The body of [while ready_queue or i < n]; the subscripts of
    [remaining] are read with the total lookup as in [srtf_body] (lemma
    [rr_body_keys]). *)
Definition rr_body (processes_sorted : list process) (time_quantum : Z)
    (st : rr_state) : outcome rr_state :=
  let '(RrState timeline current_time remaining ready_queue i) := st in
  match ready_queue with
  | [] =>
      match processes_sorted !! i with
      | None => Raised IndexError
      | Some p =>
          let next_arrival := arrival p in
          let timeline := timeline ++ [Segment Idle current_time next_arrival] in
          let current_time := next_arrival in
          let '(ready_queue, i) :=
            rr_admit (drop i processes_sorted) current_time ready_queue i in
          Returned (RrState timeline current_time remaining ready_queue i)
      end
  | proc :: ready_queue =>
      let exec_time := Z.min time_quantum (remaining !!! pid proc) in
      let start_time := current_time in
      let end_time := current_time + exec_time in
      let timeline := timeline ++ [Segment (pid proc) start_time end_time] in
      let current_time := end_time in
      let remaining := <[pid proc := remaining !!! pid proc - exec_time]> remaining in
      let '(ready_queue, i) :=
        rr_admit (drop i processes_sorted) current_time ready_queue i in
      let ready_queue :=
        if decide (0 < remaining !!! pid proc) then ready_queue ++ [proc]
        else ready_queue in
      Returned (RrState timeline current_time remaining ready_queue i)
  end.

Definition rr_cond (n : nat) (st : rr_state) : bool :=
  bool_decide (rr_ready_queue st ≠ [] ∨ (rr_i st < n)%nat).

Definition rr_init (processes : list process) : rr_state :=
  let processes_sorted := sorted_by arrival processes in
  let '(ready_queue, i) := rr_admit processes_sorted 0 [] 0%nat in
  RrState [] 0 (remaining_init processes) ready_queue i.

(** The bursts that are positive, summed. *)
Definition sum_positive_burst (ps : list process) : Z :=
  foldr (λ p acc, Z.max 0 (burst p) + acc) 0 ps.

(** A turn of the loop is an idle jump, which moves the pointer on, or a
    dispatch, which either takes a process off the queue for good or leaves
    it with positive work, less by a quantum.  When the loop ends at all,
    it ends within twice the number of processes plus the sum of the
    positive bursts, whatever the list and the quantum (lemma
    [rr_fuel_enough]). *)
Definition rr_fuel (processes : list process) : nat :=
  (2 * length processes + Z.to_nat (sum_positive_burst processes))%nat.

Definition round_robin_schedule (processes : list process) (time_quantum : Z)
    : outcome (list segment) :=
  let processes_sorted := sorted_by arrival processes in
  let n := length processes in
  outcome_map rr_timeline
    (while (rr_cond n) (rr_body processes_sorted time_quantum)
       (rr_fuel processes) (rr_init processes)).

(** The process list of the Round-Robin example of the specification. *)
Definition rr_example_processes : list process :=
  [ Process "P1" 0 5; Process "P2" 3 1; Process "P3" 10 11 ].

(** ** question6.py: round robin on several processors

    The script keeps its state in module-level variables and edits the
    ["remaining"] entry of the process dictionaries in place; the model
    threads all of it through [mp_state]. *)

Record process6 := Process6 {
  p6_id : string;
  p6_arrival : Z;
  p6_burst : Z;
  p6_remaining : Z
}.

(** A processor dictionary.  The key ["idle"] is absent at first
    ([ps_idle = None]); ["event_start"] holds [None] or a time. *)
Record processor := Processor {
  ps_proc : option string;
  ps_remaining_slice : Z;
  ps_event_start : option Z;
  ps_idle : option bool
}.

(** A tuple [(process_id, start_time, end_time, processor_label)]; the start
    is whatever ["event_start"] held. *)
Record event := Event {
  ev_id : string;
  ev_start : option Z;
  ev_end : Z;
  ev_processor : string
}.

#[global] Instance event_eq_dec : EqDecision event.
Proof. solve_decision. Defined.

Record mp_state := MpState {
  mp_processes : list process6;
  mp_global_time : Z;
  mp_ready_queue : list string;
  mp_schedule_events : list event;
  mp_finished : gset string;
  mp_processors : list processor
}.

(** [f"Processor {i+1}"]. *)
Definition processor_label (i : nat) : string :=
  "Processor " +:+ pretty (i + 1)%nat.

Definition add_arrivals (processes : list process6) (time : Z)
    (ready_queue : list string) : list string :=
  ready_queue ++ (p6_id <$> filter (λ proc, p6_arrival proc = time) processes).

(** [get_process(pid)]: the first dictionary with that id, with its
    position so that the edit of ["remaining"] lands on the same object;
    [None] as in the source. *)
Definition get_process (processes : list process6) (pid : string)
    : option (nat * process6) :=
  list_find (λ proc, p6_id proc = pid) processes.

(** Lines 50-71: the update of a busy processor. *)
Definition mp_update (i : nat) (st : mp_state) (proc_state : processor)
    : outcome (mp_state * processor) :=
  let '(MpState processes global_time ready_queue schedule_events finished processors) := st in
  match ps_proc proc_state with
  | None => Returned (st, proc_state)
  | Some cur =>
      let remaining_slice := ps_remaining_slice proc_state - 1 in
      match get_process processes cur with
      | None => Raised TypeError
      | Some (k, cur_proc) =>
          let cur_proc :=
            Process6 (p6_id cur_proc) (p6_arrival cur_proc) (p6_burst cur_proc)
              (p6_remaining cur_proc - 1) in
          let processes := <[k := cur_proc]> processes in
          let ended :=
            Event (p6_id cur_proc) (ps_event_start proc_state) (global_time + 1)
              (processor_label i) in
          if decide (p6_remaining cur_proc = 0) then
            Returned
              (MpState processes global_time ready_queue (schedule_events ++ [ended])
                 ({[p6_id cur_proc]} ∪ finished) processors,
               Processor None 0 None (ps_idle proc_state))
          else if decide (remaining_slice = 0) then
            Returned
              (MpState processes global_time (ready_queue ++ [p6_id cur_proc])
                 (schedule_events ++ [ended]) finished processors,
               Processor None remaining_slice None (ps_idle proc_state))
          else
            Returned
              (MpState processes global_time ready_queue schedule_events finished
                 processors,
               Processor (Some cur) remaining_slice (ps_event_start proc_state)
                 (ps_idle proc_state))
      end
  end.

(** Lines 72-92: the assignment to a free processor.  The boolean is [true]
    when the [continue] of line 78 ends this processor's turn. *)
Definition mp_dispatch (time_quantum : Z) (st : mp_state) (proc_state : processor)
    : outcome (mp_state * processor * bool) :=
  let '(MpState processes global_time ready_queue schedule_events finished processors) := st in
  match ps_proc proc_state with
  | None =>
      match ready_queue with
      | next_pid :: ready_queue =>
          let st := MpState processes global_time ready_queue schedule_events
                      finished processors in
          if decide (next_pid ∈ finished) then Returned (st, proc_state, true)
          else
            match get_process processes next_pid with
            | None => Raised TypeError
            | Some (_, proc) =>
                Returned
                  (st,
                   Processor (Some next_pid) (Z.min time_quantum (p6_remaining proc))
                     (Some global_time) (ps_idle proc_state),
                   false)
            end
      | [] =>
          match ps_idle proc_state with
          | None =>
              Returned
                (st,
                 Processor (ps_proc proc_state) (ps_remaining_slice proc_state)
                   (Some global_time) (Some true),
                 false)
          | Some _ => Returned (st, proc_state, false)
          end
      end
  | Some _ =>
      Returned
        (st,
         Processor (ps_proc proc_state) (ps_remaining_slice proc_state)
           (ps_event_start proc_state) (Some false),
         false)
  end.

(** Lines 95-98: the idle event.  [global_time > None] raises TypeError. *)
Definition mp_idle_event (i : nat) (st : mp_state) (proc_state : processor)
    : outcome (mp_state * processor) :=
  let '(MpState processes global_time ready_queue schedule_events finished processors) := st in
  match ps_proc proc_state, ps_idle proc_state with
  | None, Some true =>
      match ps_event_start proc_state with
      | None => Raised TypeError
      | Some event_start =>
          if decide (event_start < global_time) then
            Returned
              (MpState processes global_time ready_queue
                 (schedule_events ++
                    [Event Idle (Some event_start) (global_time + 1) (processor_label i)])
                 finished processors,
               Processor (ps_proc proc_state) (ps_remaining_slice proc_state)
                 (Some (global_time + 1)) (ps_idle proc_state))
          else Returned (st, proc_state)
      end
  | _, _ => Returned (st, proc_state)
  end.

(** [processors[i]] is edited in place; the model writes it back when the
    turn of processor [i] ends. *)
Definition mp_store (i : nat) (st : mp_state) (proc_state : processor) : mp_state :=
  MpState (mp_processes st) (mp_global_time st) (mp_ready_queue st)
    (mp_schedule_events st) (mp_finished st) (<[i := proc_state]> (mp_processors st)).

(** One turn of [for i in range(NUM_PROC)]. *)
Definition mp_processor_turn (time_quantum : Z) (st : mp_state) (i : nat)
    : outcome mp_state :=
  match mp_processors st !! i with
  | None => Raised IndexError
  | Some proc_state =>
      match mp_update i st proc_state with
      | Returned (st, proc_state) =>
          match mp_dispatch time_quantum st proc_state with
          | Returned (st, proc_state, true) => Returned (mp_store i st proc_state)
          | Returned (st, proc_state, false) =>
              match mp_idle_event i st proc_state with
              | Returned (st, proc_state) => Returned (mp_store i st proc_state)
              | Raised e => Raised e
              | OutOfFuel => OutOfFuel
              end
          | Raised e => Raised e
          | OutOfFuel => OutOfFuel
          end
      | Raised e => Raised e
      | OutOfFuel => OutOfFuel
      end
  end.

Fixpoint mp_for (time_quantum : Z) (range : list nat) (st : mp_state)
    : outcome mp_state :=
  match range with
  | [] => Returned st
  | i :: range' =>
      match mp_processor_turn time_quantum st i with
      | Returned st' => mp_for time_quantum range' st'
      | Raised e => Raised e
      | OutOfFuel => OutOfFuel
      end
  end.

(** The body of [while len(finished) < len(processes)]: one unit of time. *)
Definition mp_body (time_quantum : Z) (num_proc : nat) (st : mp_state)
    : outcome mp_state :=
  let st :=
    MpState (mp_processes st) (mp_global_time st)
      (add_arrivals (mp_processes st) (mp_global_time st) (mp_ready_queue st))
      (mp_schedule_events st) (mp_finished st) (mp_processors st) in
  match mp_for time_quantum (seq 0 num_proc) st with
  | Returned st =>
      Returned (MpState (mp_processes st) (mp_global_time st + 1) (mp_ready_queue st)
                  (mp_schedule_events st) (mp_finished st) (mp_processors st))
  | Raised e => Raised e
  | OutOfFuel => OutOfFuel
  end.

Definition mp_cond (st : mp_state) : bool :=
  bool_decide (size (mp_finished st) < length (mp_processes st))%nat.

Definition mp_init (processes : list process6) (num_proc : nat) : mp_state :=
  MpState processes 0 [] [] ∅ (replicate num_proc (Processor None 0 None None)).

(** The script as a function of its three module-level constants. *)
Definition multiprocessor_round_robin (processes : list process6)
    (time_quantum : Z) (num_proc : nat) (fuel : nat) : outcome (list event) :=
  outcome_map mp_schedule_events
    (while mp_cond (mp_body time_quantum num_proc) fuel (mp_init processes num_proc)).

(** The constants of question6.py. *)
Definition question6_processes : list process6 :=
  [ Process6 "P1" 0 5 5; Process6 "P2" 3 4 4; Process6 "P3" 10 11 11;
    Process6 "P4" 12 5 5; Process6 "P5" 15 12 12 ].
Definition TIME_QUANTUM : Z := 2.
Definition NUM_PROC : nat := 2.

Definition question6_schedule_events : outcome (list event) :=
  multiprocessor_round_robin question6_processes TIME_QUANTUM NUM_PROC 100.

(** ** The single-processor schedulers on Python objects

    The functions above take the process dictionaries as values.  A caller
    passes objects: a list object holding references, and the dictionaries
    behind the references, which the callee could edit in place.  The model
    below runs the same four functions on such a store.  The containers a
    function creates itself ([sorted(..)], [[]], [set()], the [remaining]
    comprehension, the timeline) are fresh objects that nothing else
    refers to and stay values; the queues hold references to the caller's
    dictionaries, as in the source. *)

Abbreviation loc := nat.

Record store := Store {
  store_list : list loc;
  store_dict : loc → process
}.

(** A computation on the store. *)
Definition M (A : Type) : Type := store → outcome A * store.

Definition ret {A : Type} (a : A) : M A := λ σ, (Returned a, σ).

Definition raise {A : Type} (e : exn) : M A := λ σ, (Raised e, σ).

Definition bind {A B : Type} (m : M A) (f : A → M B) : M B :=
  λ σ, match m σ with
       | (Returned a, σ') => f a σ'
       | (Raised e, σ') => (Raised e, σ')
       | (OutOfFuel, σ') => (OutOfFuel, σ')
       end.

(** [try: m except Exception: h]. *)
Definition try_except {A : Type} (m : M A) (h : exn → M A) : M A :=
  λ σ, match m σ with
       | (Raised e, σ') => h e σ'
       | r => r
       end.

(** Reading the list object: [for p in processes], [len(processes)],
    [sorted(processes, ..)]. *)
Definition obj_iter : M (list loc) := λ σ, (Returned (store_list σ), σ).

(** Reading a dictionary: [p['id']], [p['arrival']], [p['burst']], and the
    comparison of dictionaries in [p not in ready_queue]. *)
Definition obj_getitem (p : loc) : M process := λ σ, (Returned (store_dict σ p), σ).

(** Writing a dictionary, [p[key] = value]: what an in-place edit would
    be.  None of the four functions does it. *)
Definition obj_setitem (p : loc) (d : process) : M unit :=
  λ σ, (Returned (), Store (store_list σ) (<[p := d]> (store_dict σ))).

Fixpoint mapM {A B : Type} (f : A → M B) (l : list A) : M (list B) :=
  match l with
  | [] => ret []
  | x :: l' => bind (f x) (λ y, bind (mapM f l') (λ ys, ret (y :: ys)))
  end.

Fixpoint foldlM {A B : Type} (f : A → B → M A) (a : A) (l : list B) : M A :=
  match l with
  | [] => ret a
  | x :: l' => bind (f a x) (λ a', foldlM f a' l')
  end.

Fixpoint whileM {S : Type} (cond : S → bool) (body : S → M S) (fuel : nat) (st : S)
    : M S :=
  if cond st then
    match fuel with
    | O => λ σ, (OutOfFuel, σ)
    | Datatypes.S fuel' => bind (body st) (whileM cond body fuel')
    end
  else ret st.

(** [sorted(l, key=lambda x: x[k])] and [l.sort(key=..)] on a list of
    references: the keys are read, the references are sorted by them. *)
Definition sorted_obj (key : process → Z) (l : list loc) : M (list loc) :=
  bind (mapM (λ p, bind (obj_getitem p) (λ d, ret (key d))) l)
    (λ keys, ret ((sorted_by fst (zip keys l)).*2)).

(** question1.py *)
Definition fcfs_step_obj (st : Z * list segment) (p : loc) : M (Z * list segment) :=
  bind (obj_getitem p) (λ d, ret (fcfs_step st d)).

Definition fcfs_schedule_obj : M (list segment) :=
  try_except
    (bind obj_iter (λ processes,
     bind (sorted_obj arrival processes) (λ processes_sorted,
     bind (foldlM fcfs_step_obj (0, []) processes_sorted) (λ st,
     ret st.2))))
    (λ _, ret []).

(** question2.py: the ready queue holds references. *)
Record sjf_state_obj := SjfStateObj {
  sjfo_timeline : list segment;
  sjfo_ready_queue : list loc;
  sjfo_current_time : Z;
  sjfo_completed : gset string
}.

Definition sjf_admit_obj (completed : gset string) (current_time : Z)
    (ready_queue : list loc) (p : loc) : M (list loc) :=
  bind (obj_getitem p) (λ d,
  if decide ((pid d ∉ completed) ∧ arrival d ≤ current_time) then
    bind (mapM obj_getitem ready_queue) (λ ds,
    if decide (d ∈ ds) then ret ready_queue else ret (ready_queue ++ [p]))
  else ret ready_queue).

Definition sjf_body_obj (processes_sorted : list loc) (st : sjf_state_obj)
    : M sjf_state_obj :=
  let completed := sjfo_completed st in
  let current_time := sjfo_current_time st in
  bind (foldlM (sjf_admit_obj completed current_time) (sjfo_ready_queue st)
          processes_sorted) (λ ready_queue,
  match ready_queue with
  | [] =>
      bind (mapM obj_getitem processes_sorted) (λ ds,
      match list_min (arrival <$> filter (λ d, pid d ∉ completed) ds) with
      | None => raise ValueError
      | Some next_arrival =>
          ret (SjfStateObj
                 (sjfo_timeline st ++ [Segment Idle current_time next_arrival])
                 ready_queue next_arrival completed)
      end)
  | _ :: _ =>
      bind (sorted_obj burst ready_queue) (λ sorted_queue,
      match sorted_queue with
      | [] => raise IndexError
      | shortest_process :: ready_queue =>
          bind (obj_getitem shortest_process) (λ d,
          let start_time := current_time in
          let end_time := start_time + burst d in
          ret (SjfStateObj
                 (sjfo_timeline st ++ [Segment (pid d) start_time end_time])
                 ready_queue end_time ({[pid d]} ∪ completed)))
      end)
  end).

Definition sjf_non_preemptive_schedule_obj : M (list segment) :=
  bind obj_iter (λ processes,
  bind (sorted_obj arrival processes) (λ processes_sorted,
  bind (whileM
          (λ st, bool_decide (size (sjfo_completed st) < length processes)%nat)
          (sjf_body_obj processes_sorted)
          (2 * length processes) (SjfStateObj [] [] 0 ∅)) (λ st,
  ret (sjfo_timeline st)))).

(** question3.py: the state holds ids, not references. *)
Definition srtf_body_obj (processes_sorted : list loc) (st : srtf_state)
    : M srtf_state :=
  bind (mapM obj_getitem processes_sorted) (λ ds,
  ret (srtf_body ds st)).

Definition sjf_preemptive_schedule_obj : M (list segment) :=
  bind obj_iter (λ processes,
  bind (mapM obj_getitem processes) (λ ds,
  let remaining := remaining_init ds in
  let n := length processes in
  bind (sorted_obj arrival processes) (λ processes_sorted,
  bind (whileM (srtf_cond n) (srtf_body_obj processes_sorted)
          (srtf_fuel ds) (SrtfState remaining 0 [] None 0 ∅)) (λ st,
  ret (srtf_timeline st))))).

(** question4.py: the ready queue holds references. *)
Record rr_state_obj := RrStateObj {
  rro_timeline : list segment;
  rro_current_time : Z;
  rro_remaining : gmap string Z;
  rro_ready_queue : list loc;
  rro_i : nat
}.

Fixpoint rr_admit_obj (pending : list loc) (current_time : Z)
    (ready_queue : list loc) (i : nat) : M (list loc * nat) :=
  match pending with
  | [] => ret (ready_queue, i)
  | p :: pending' =>
      bind (obj_getitem p) (λ d,
      if decide (arrival d ≤ current_time)
      then rr_admit_obj pending' current_time (ready_queue ++ [p]) (S i)
      else ret (ready_queue, i))
  end.

Definition rr_body_obj (processes_sorted : list loc) (time_quantum : Z)
    (st : rr_state_obj) : M rr_state_obj :=
  let '(RrStateObj timeline current_time remaining ready_queue i) := st in
  match ready_queue with
  | [] =>
      match processes_sorted !! i with
      | None => raise IndexError
      | Some p =>
          bind (obj_getitem p) (λ d,
          let next_arrival := arrival d in
          let timeline := timeline ++ [Segment Idle current_time next_arrival] in
          let current_time := next_arrival in
          bind (rr_admit_obj (drop i processes_sorted) current_time ready_queue i)
            (λ '(ready_queue, i),
          ret (RrStateObj timeline current_time remaining ready_queue i)))
      end
  | proc :: ready_queue =>
      bind (obj_getitem proc) (λ d,
      let exec_time := Z.min time_quantum (remaining !!! pid d) in
      let start_time := current_time in
      let end_time := current_time + exec_time in
      let timeline := timeline ++ [Segment (pid d) start_time end_time] in
      let current_time := end_time in
      let remaining := <[pid d := remaining !!! pid d - exec_time]> remaining in
      bind (rr_admit_obj (drop i processes_sorted) current_time ready_queue i)
        (λ '(ready_queue, i),
      let ready_queue :=
        if decide (0 < remaining !!! pid d) then ready_queue ++ [proc]
        else ready_queue in
      ret (RrStateObj timeline current_time remaining ready_queue i)))
  end.

Definition round_robin_schedule_obj (time_quantum : Z) : M (list segment) :=
  bind obj_iter (λ processes,
  bind (mapM obj_getitem processes) (λ ds,
  let remaining := remaining_init ds in
  bind (sorted_obj arrival processes) (λ processes_sorted,
  let n := length processes in
  bind (rr_admit_obj processes_sorted 0 [] 0%nat) (λ '(ready_queue, i),
  bind (whileM
          (λ st, bool_decide (rro_ready_queue st ≠ [] ∨ (rro_i st < n)%nat))
          (rr_body_obj processes_sorted time_quantum)
          (rr_fuel ds) (RrStateObj [] 0 remaining ready_queue i)) (λ st,
  ret (rro_timeline st)))))).

(** The dictionaries a store's list object refers to, as values. *)
Definition snapshot (σ : store) : list process := store_dict σ <$> store_list σ.

(** [reads σ m o]: run on [σ], the computation [m] ends with [o] and leaves
    the store as it found it. *)
Definition reads {A : Type} (σ : store) (m : M A) (o : outcome A) : Prop :=
  m σ = (o, σ).

(** The states of the two models of question2.py and question4.py side by
    side: the references of the queue replaced by what they point to. *)
Definition sjf_state_of (σ : store) (st : sjf_state_obj) : sjf_state :=
  SjfState (sjfo_timeline st) (store_dict σ <$> sjfo_ready_queue st)
    (sjfo_current_time st) (sjfo_completed st).

Definition rr_state_of (σ : store) (st : rr_state_obj) : rr_state :=
  RrState (rro_timeline st) (rro_current_time st) (rro_remaining st)
    (store_dict σ <$> rro_ready_queue st) (rro_i st).

(** ** Vocabulary of the properties *)

(** The turns of a [while] loop: [turns cond body k st st'] when [k] turns of
    the loop, each entered with a true condition, lead from [st] to [st']. *)
Inductive turns {S : Type} (cond : S → bool) (body : S → outcome S)
    : nat → S → S → Prop :=
  | turns_O st : turns cond body 0 st st
  | turns_S k st st' st'' :
      cond st = true → body st = Returned st' →
      turns cond body k st' st'' → turns cond body (Datatypes.S k) st st''.

(** The inputs the simulators are meant for. *)
Definition valid_processes (processes : list process) : Prop :=
  processes ≠ [] ∧ NoDup (pid <$> processes) ∧
  Forall (λ p, 0 ≤ arrival p ∧ 0 < burst p) processes.

(** Sum of the lengths of the segments of one owner. *)
Definition total_duration (owner : string) (timeline : list segment) : Z :=
  foldr (λ s acc, duration s + acc) 0 (filter (λ s, seg_id s = owner) timeline).

(** The owner of the first segment that covers the unit [[t, t+1)]. *)
Definition owner_at (timeline : list segment) (t : Z) : option string :=
  (λ r, seg_id r.2) <$> list_find (λ s, seg_start s ≤ t < seg_end s) timeline.

(** From time [t] on the segments follow one another without gap or
    overlap, each of positive length: every unit from [t] to the end of the
    last segment lies in exactly one of them. *)
Fixpoint gapless (t : Z) (timeline : list segment) : Prop :=
  match timeline with
  | [] => True
  | s :: rest => seg_start s = t ∧ seg_start s < seg_end s ∧ gapless (seg_end s) rest
  end.

(** Where a timeline that begins at [t] ends. *)
Definition timeline_end (t : Z) (timeline : list segment) : Z :=
  from_option seg_end t (last timeline).

(** No two neighbours in the timeline carry the same owner. *)
Fixpoint no_adjacent_same_owner (timeline : list segment) : Prop :=
  match timeline with
  | s1 :: ((s2 :: _) as rest) => seg_id s1 ≠ seg_id s2 ∧ no_adjacent_same_owner rest
  | _ => True
  end.

(** What the shortest-remaining-time loop keeps true between turns. *)
Record srtf_inv (processes : list process) (st : srtf_state) : Prop := {
  srtf_inv_none :
    srtf_current_process st = None → srtf_segment_start st = srtf_time st;
  srtf_inv_some :
    is_Some (srtf_current_process st) → srtf_segment_start st < srtf_time st;
  srtf_inv_busy :
    is_Some (srtf_current_process st) →
    ∃ p, p ∈ processes ∧ pid p ∉ srtf_completed st;
  srtf_inv_running :
    ∀ c, srtf_current_process st = Some c → c ≠ Idle →
      ∃ p, p ∈ processes ∧ pid p = c ∧ (pid p ∉ srtf_completed st)
           ∧ arrival p ≤ srtf_time st;
  srtf_inv_closed :
    ∀ s, s ∈ srtf_timeline st →
      seg_start s < seg_end s ∧ seg_end s ≤ srtf_segment_start st;
  srtf_inv_sum :
    ∀ p, p ∈ processes →
      total_duration (pid p) (srtf_timeline st)
      + (if decide (srtf_current_process st = Some (pid p))
         then srtf_time st - srtf_segment_start st else 0)
      + srtf_remaining st !!! pid p = burst p;
  srtf_inv_completed :
    ∀ p, p ∈ processes → pid p ∈ srtf_completed st → srtf_remaining st !!! pid p = 0;
  srtf_inv_incomplete :
    ∀ p, p ∈ processes → pid p ∉ srtf_completed st → 0 < srtf_remaining st !!! pid p;
  srtf_inv_subset :
    srtf_completed st ⊆ list_to_set (pid <$> processes)
}.

(** Arrived and not complete. *)
Definition srtf_eligible (processes : list process) (st : srtf_state) (p : process)
    : Prop :=
  p ∈ processes ∧ arrival p ≤ srtf_time st ∧ (pid p ∉ srtf_completed st).

(** The unit [[t, t+1)] went to owner [c]: it lies in a closed segment of
    [c], or in the segment that is still open and belongs to [c]. *)
Definition ran_in (timeline : list segment) (current_process : option string)
    (segment_start t : Z) (c : string) : Prop :=
  (t < segment_start → owner_at timeline t = Some c) ∧
  (segment_start ≤ t → current_process = Some c).

Definition srtf_ran (t : Z) (c : string) (st : srtf_state) : Prop :=
  t < srtf_time st ∧
  ran_in (srtf_timeline st) (srtf_current_process st) (srtf_segment_start st) t c.

(** The closed segments alternate owners, and the open segment does not
    continue the last closed one. *)
Definition adjacent_inv (timeline : list segment) (current_process : option string)
    (completed : gset string) : Prop :=
  no_adjacent_same_owner timeline ∧
  ∀ s, last timeline = Some s →
    match current_process with
    | None => seg_id s ∈ completed
    | Some c => seg_id s ≠ c
    end.

Definition srtf_adjacent (st : srtf_state) : Prop :=
  adjacent_inv (srtf_timeline st) (srtf_current_process st) (srtf_completed st).

Definition total_remaining (processes : list process) (remaining : gmap string Z) : Z :=
  foldr (λ p acc, remaining !!! pid p + acc) 0 processes.

(** The number of turns the shortest-remaining-time loop still needs, at most. *)
Definition srtf_measure (processes : list process) (st : srtf_state) : nat :=
  Z.to_nat (total_remaining processes (srtf_remaining st)
            + Z.max 0 (max_arrival processes - srtf_time st)).

(** What the shortest-job-first loop keeps true between turns; [t0] is the
    time of the latest admission. *)
Record sjf_inv (processes : list process) (st : sjf_state) : Prop := {
  sjf_inv_admitted :
    ∃ t0, t0 ≤ sjf_current_time st ∧
      (∀ p, p ∈ sjf_ready_queue st → arrival p ≤ t0) ∧
      (∀ p, p ∈ processes → arrival p ≤ t0 → pid p ∉ sjf_completed st →
            p ∈ sjf_ready_queue st);
  sjf_inv_ready :
    ∀ p, p ∈ sjf_ready_queue st → p ∈ processes ∧ pid p ∉ sjf_completed st;
  sjf_inv_nodup : NoDup (sjf_ready_queue st);
  sjf_inv_order :
    ∀ k, filter (λ p, burst p = k) (sjf_ready_queue st)
           `sublist_of` sorted_by arrival processes;
  sjf_inv_subset : sjf_completed st ⊆ list_to_set (pid <$> processes);
  sjf_inv_done :
    ∀ p, p ∈ processes → pid p ∈ sjf_completed st →
      ∃ s, arrival p ≤ s ∧
           filter (λ x, seg_id x = pid p) (sjf_timeline st)
           = [Segment (pid p) s (s + burst p)];
  sjf_inv_todo :
    ∀ p, p ∈ processes → pid p ∉ sjf_completed st →
      filter (λ x, seg_id x = pid p) (sjf_timeline st) = [];
  sjf_inv_last :
    ∀ s, last (sjf_timeline st) = Some s →
      (seg_id s = Idle ∧
       ∃ p, p ∈ processes ∧ (pid p ∉ sjf_completed st)
            ∧ arrival p ≤ sjf_current_time st)
      ∨ seg_id s ∈ sjf_completed st;
  sjf_inv_adjacent : no_adjacent_same_owner (sjf_timeline st)
}.

(** The number of turns the shortest-job-first loop still needs, at most:
    two per incomplete process, one less when a process is ready to run. *)
Definition sjf_measure (processes : list process) (st : sjf_state) : nat :=
  (2 * (length processes - size (sjf_completed st))
   - (if decide (Exists (λ p, (pid p ∉ sjf_completed st)
                              ∧ (arrival p ≤ sjf_current_time st)%Z) processes)
      then 1 else 0))%nat.

(** The order in which shortest-job-first prefers [c] to [q]: shorter burst,
    then earlier arrival, then earlier place in the input list. *)
Definition sjf_prefers (processes : list process) (c q : process) : Prop :=
  burst c < burst q ∨
  burst c = burst q ∧
    (arrival c < arrival q ∨
     arrival c = arrival q ∧ (c = q ∨ [c; q] `sublist_of` processes)).

(** What the round-robin loop keeps true between turns: the pointer [i] has
    passed exactly the processes that have arrived, and the queued processes
    still have work to do. *)
Record rr_inv (processes : list process) (st : rr_state) : Prop := {
  rr_inv_admitted :
    take (rr_i st) (sorted_by arrival processes)
    = filter (λ p, arrival p ≤ rr_current_time st) (sorted_by arrival processes);
  rr_inv_i : (rr_i st ≤ length processes)%nat;
  rr_inv_queue :
    ∀ p, p ∈ rr_ready_queue st →
      p ∈ processes ∧ arrival p ≤ rr_current_time st
      ∧ 0 < rr_remaining st !!! pid p;
  rr_inv_nodup : NoDup (rr_ready_queue st);
  rr_inv_nonneg :
    ∀ p, p ∈ processes → 0 ≤ rr_remaining st !!! pid p;
  rr_inv_fresh :
    ∀ p, p ∈ processes → rr_current_time st < arrival p →
      rr_remaining st !!! pid p = burst p
}.

(** The number of turns the round-robin loop still needs, at most. *)
Definition rr_measure (processes : list process) (st : rr_state) : nat :=
  (length processes - rr_i st
   + Z.to_nat (total_remaining processes (rr_remaining st)))%nat.

(** The processes that arrive in the span [(t, t']]. *)
Definition arrivals_between (processes_sorted : list process) (t t' : Z)
    : list process :=
  filter (λ p, t < arrival p ≤ t') processes_sorted.

(** The length of a recorded event; an event without a start has none. *)
Definition event_duration (e : event) : Z :=
  match ev_start e with
  | Some start => ev_end e - start
  | None => 0
  end.

(** Sum of the lengths of the events of one owner. *)
Definition event_total (owner : string) (events : list event) : Z :=
  foldr (λ e acc, event_duration e + acc) 0
    (filter (λ e, ev_id e = owner) events).

(** Whether an event covers the unit [[t, t+1)]. *)
Definition event_covers (e : event) (t : Z) : bool :=
  match ev_start e with
  | Some start => bool_decide (start ≤ t < ev_end e)
  | None => false
  end.

(** The number of events of one processor that cover the unit [[t, t+1)]. *)
Definition cover_count (label : string) (t : Z) (events : list event) : nat :=
  length (filter (λ e, ev_processor e = label ∧ event_covers e t = true) events).

(** The turn of processor [i] cut in two: its update alone, and its
    dispatch (with the idle bookkeeping) alone. *)
Definition mp_update_turn (st : mp_state) (i : nat) : outcome mp_state :=
  match mp_processors st !! i with
  | None => Raised IndexError
  | Some proc_state =>
      match mp_update i st proc_state with
      | Returned (st, proc_state) => Returned (mp_store i st proc_state)
      | Raised e => Raised e
      | OutOfFuel => OutOfFuel
      end
  end.

Definition mp_dispatch_turn (time_quantum : Z) (st : mp_state) (i : nat)
    : outcome mp_state :=
  match mp_processors st !! i with
  | None => Raised IndexError
  | Some proc_state =>
      match mp_dispatch time_quantum st proc_state with
      | Returned (st, proc_state, true) => Returned (mp_store i st proc_state)
      | Returned (st, proc_state, false) =>
          match mp_idle_event i st proc_state with
          | Returned (st, proc_state) => Returned (mp_store i st proc_state)
          | Raised e => Raised e
          | OutOfFuel => OutOfFuel
          end
      | Raised e => Raised e
      | OutOfFuel => OutOfFuel
      end
  end.

Fixpoint outcome_foldl {A B : Type} (f : A → B → outcome A) (a : A) (l : list B)
    : outcome A :=
  match l with
  | [] => Returned a
  | b :: l' =>
      match f a b with
      | Returned a' => outcome_foldl f a' l'
      | Raised e => Raised e
      | OutOfFuel => OutOfFuel
      end
  end.

(** The unit of time in the order that section 4.5 of the specification
    words: first the update of every processor, and only after all updates
    the dispatch of every free processor, by ascending index.  It is built
    from the same update and dispatch as [mp_body] and serves only for the
    comparison with it. *)
Definition spec_two_phase_body (time_quantum : Z) (num_proc : nat) (st : mp_state)
    : outcome mp_state :=
  let st :=
    MpState (mp_processes st) (mp_global_time st)
      (add_arrivals (mp_processes st) (mp_global_time st) (mp_ready_queue st))
      (mp_schedule_events st) (mp_finished st) (mp_processors st) in
  match outcome_foldl mp_update_turn st (seq 0 num_proc) with
  | Returned st =>
      match outcome_foldl (mp_dispatch_turn time_quantum) st (seq 0 num_proc) with
      | Returned st =>
          Returned (MpState (mp_processes st) (mp_global_time st + 1)
                      (mp_ready_queue st) (mp_schedule_events st) (mp_finished st)
                      (mp_processors st))
      | Raised e => Raised e
      | OutOfFuel => OutOfFuel
      end
  | Raised e => Raised e
  | OutOfFuel => OutOfFuel
  end.

(** A short run on which the two orders part: A and B arrive at 0 with
    bursts 1 and 5. *)
Definition two_phase_processes : list process6 :=
  [ Process6 "A" 0 1 1; Process6 "B" 0 5 5 ].

Definition srtf_gapless (st : srtf_state) : Prop :=
  gapless 0 (srtf_timeline st) ∧
  timeline_end 0 (srtf_timeline st) = srtf_segment_start st.

Definition sjf_gapless (st : sjf_state) : Prop :=
  gapless 0 (sjf_timeline st) ∧
  timeline_end 0 (sjf_timeline st) = sjf_current_time st.

(** More of what the round-robin loop keeps true: the timeline is gapless
    up to the clock, what a process has run and what remains add up to its
    burst, and an arrived process with work left is queued. *)
Record rr_account (processes : list process) (st : rr_state) : Prop := {
  rr_account_gapless : gapless 0 (rr_timeline st);
  rr_account_end : timeline_end 0 (rr_timeline st) = rr_current_time st;
  rr_account_sum :
    ∀ p, p ∈ processes →
      total_duration (pid p) (rr_timeline st) + rr_remaining st !!! pid p = burst p;
  rr_account_queued :
    ∀ p, p ∈ processes → arrival p ≤ rr_current_time st →
      0 < rr_remaining st !!! pid p → p ∈ rr_ready_queue st
}.

(** What the round-robin loop keeps true when the quantum is not positive:
    work is left for every process, and the loop condition holds. *)
Definition rr_stuck (processes : list process) (st : rr_state) : Prop :=
  (∀ p, p ∈ processes → 0 < rr_remaining st !!! pid p) ∧
  (∀ p, p ∈ rr_ready_queue st → p ∈ processes) ∧
  (rr_i st ≤ length processes)%nat ∧
  (rr_ready_queue st ≠ [] ∨ (rr_i st < length processes)%nat).

(** What first come, first served keeps true while it walks the sorted
    list; [served] are the processes walked so far. *)
Record fcfs_inv (served : list process) (st : Z * list segment) : Prop := {
  fcfs_inv_order :
    seg_id <$> filter (λ s, seg_id s ≠ Idle) st.2 = pid <$> served;
  fcfs_inv_run :
    ∀ s, s ∈ st.2 → seg_id s ≠ Idle →
      ∃ p, p ∈ served ∧ pid p = seg_id s ∧ arrival p ≤ seg_start s
           ∧ seg_end s = seg_start s + burst p;
  fcfs_inv_idle :
    ∀ s, s ∈ st.2 → seg_id s = Idle →
      seg_start s < seg_end s ∧
      (∃ p, p ∈ served ∧ arrival p = seg_end s) ∧
      ∀ q, q ∈ served → arrival q < seg_end s →
        ∃ x, x ∈ st.2 ∧ seg_id x = pid q ∧ seg_end x = seg_start x + burst q
             ∧ seg_end x ≤ seg_start s;
  fcfs_inv_served :
    ∀ p, p ∈ served →
      ∃ x, x ∈ st.2 ∧ seg_id x = pid p ∧ seg_end x = seg_start x + burst p
           ∧ seg_end x ≤ st.1
}.

(** How round robin cuts the burst of a process into slices: while work is
    left, every slice so far was a full quantum; once the work is done, the
    last slice took what was left. *)
Definition rr_sliced (time_quantum : Z) (p : process) (remaining : Z)
    (slices : list segment) : Prop :=
  (0 < remaining ∧ Forall (λ s, duration s = time_quantum) slices
   ∧ burst p - remaining = time_quantum * Z.of_nat (length slices)) ∨
  (remaining = 0 ∧
   ∃ full lst, slices = full ++ [lst]
     ∧ Forall (λ s, duration s = time_quantum) full
     ∧ 0 < duration lst ≤ time_quantum
     ∧ burst p = time_quantum * Z.of_nat (length full) + duration lst).

Definition rr_slices (processes : list process) (time_quantum : Z) (st : rr_state)
    : Prop :=
  ∀ p, p ∈ processes →
    rr_sliced time_quantum p (rr_remaining st !!! pid p)
      (filter (λ s, seg_id s = pid p) (rr_timeline st)).
(** What the shortest-job-first loop keeps true on any input. *)
Record sjf_queue_inv (processes : list process) (st : sjf_state) : Prop := {
  sjf_queue_members : ∀ p, p ∈ sjf_ready_queue st → p ∈ processes;
  sjf_queue_nodup : NoDup (sjf_ready_queue st);
  sjf_queue_completed : sjf_completed st ⊆ list_to_set (pid <$> processes)
}.

(** The ids that are not complete yet, the processes that can still run
    (queued, or with an id that is not complete), and whether a process
    with such an id is ready now. *)
Definition sjf_fresh_ids (processes : list process) (st : sjf_state) : nat :=
  length (filter (λ i, i ∉ sjf_completed st) (remove_dups (pid <$> processes))).

Definition sjf_pending (processes : list process) (st : sjf_state) : nat :=
  length (filter (λ p, p ∈ sjf_ready_queue st ∨ pid p ∉ sjf_completed st)
            (remove_dups processes)).

Definition sjf_fresh_ready (processes : list process) (st : sjf_state) : nat :=
  if decide (Exists (λ p, pid p ∉ sjf_completed st)
               (sjf_ready (sorted_by arrival processes) st))
  then 1 else 0.

(** A bound on the turns that the loop can still take on any input: every
    idle jump is followed by the run of a process with a new id, and every
    run takes a process out for good. *)
Definition sjf_turns_left (processes : list process) (st : sjf_state) : nat :=
  (sjf_fresh_ids processes st + sjf_pending processes st
   - sjf_fresh_ready processes st)%nat.

(** The work that the dictionary [remaining] still holds: its positive
    values, summed. *)
Definition positive_work (remaining : gmap string Z) : Z :=
  map_fold (λ _ v acc, Z.max 0 v + acc) 0 remaining.

(** A bound on the turns that the round-robin loop can still take before
    it ends. *)
Definition rr_potential (processes : list process) (st : rr_state) : nat :=
  (2 * (length processes - rr_i st) + length (rr_ready_queue st)
   + Z.to_nat (positive_work (rr_remaining st)))%nat.

(** What the round-robin loop keeps true on any input. *)
Record rr_any_inv (processes : list process) (st : rr_state) : Prop := {
  rr_any_members : ∀ p, p ∈ rr_ready_queue st → p ∈ processes;
  rr_any_i : (rr_i st ≤ length processes)%nat;
  rr_any_dom : dom (rr_remaining st) = list_to_set (pid <$> processes)
}.

(** A queued process with work left: with a quantum that is not positive
    it keeps the loop going for ever. *)
Definition rr_doomed (st : rr_state) : Prop :=
  Exists (λ p, 0 < rr_remaining st !!! pid p) (rr_ready_queue st).

(** What the shortest-remaining-time loop keeps true on distinct ids and
    positive bursts, whatever the arrival times and the names. *)
Record srtf_progress (processes : list process) (st : srtf_state) : Prop := {
  srtf_progress_subset : srtf_completed st ⊆ list_to_set (pid <$> processes);
  srtf_progress_completed :
    ∀ p, p ∈ processes → pid p ∈ srtf_completed st → srtf_remaining st !!! pid p = 0;
  srtf_progress_incomplete :
    ∀ p, p ∈ processes → pid p ∉ srtf_completed st → 0 < srtf_remaining st !!! pid p
}.

(** One more thing that the round-robin loop keeps true: an arrived process
    with work left is in the queue. *)
Definition rr_queued (processes : list process) (st : rr_state) : Prop :=
  ∀ p, p ∈ processes → arrival p ≤ rr_current_time st →
    0 < rr_remaining st !!! pid p → p ∈ rr_ready_queue st.

(** What the shortest-job-first loop keeps true on a valid input, whatever
    the names of the processes; [t0] is the time of the latest admission. *)
Record sjf_core (processes : list process) (st : sjf_state) : Prop := {
  sjf_core_admitted :
    ∃ t0, t0 ≤ sjf_current_time st ∧
      (∀ p, p ∈ sjf_ready_queue st → arrival p ≤ t0) ∧
      (∀ p, p ∈ processes → arrival p ≤ t0 → pid p ∉ sjf_completed st →
            p ∈ sjf_ready_queue st);
  sjf_core_ready :
    ∀ p, p ∈ sjf_ready_queue st → p ∈ processes ∧ pid p ∉ sjf_completed st;
  sjf_core_nodup : NoDup (sjf_ready_queue st);
  sjf_core_order :
    ∀ k, filter (λ p, burst p = k) (sjf_ready_queue st)
           `sublist_of` sorted_by arrival processes;
  sjf_core_subset : sjf_completed st ⊆ list_to_set (pid <$> processes);
  sjf_core_done :
    ∀ p, p ∈ processes → pid p ∈ sjf_completed st →
      ∃ s, arrival p ≤ s ∧ Segment (pid p) s (s + burst p) ∈ sjf_timeline st
}.

(** The turn of processor [i] as two steps: its update, and at once its
    dispatch. *)
Definition mp_update_then_dispatch (time_quantum : Z) (st : mp_state) (i : nat)
    : outcome mp_state :=
  match mp_update_turn st i with
  | Returned st1 => mp_dispatch_turn time_quantum st1 i
  | Raised e => Raised e
  | OutOfFuel => OutOfFuel
  end.

(** The unit of time as an interleaving: the arrivals, then the processors
    one after the other by ascending index, each with its update followed
    by its dispatch, then the clock. *)
Definition mp_interleaved_body (time_quantum : Z) (num_proc : nat) (st : mp_state)
    : outcome mp_state :=
  let st :=
    MpState (mp_processes st) (mp_global_time st)
      (add_arrivals (mp_processes st) (mp_global_time st) (mp_ready_queue st))
      (mp_schedule_events st) (mp_finished st) (mp_processors st) in
  match outcome_foldl (mp_update_then_dispatch time_quantum) st (seq 0 num_proc) with
  | Returned st =>
      Returned (MpState (mp_processes st) (mp_global_time st + 1)
                  (mp_ready_queue st) (mp_schedule_events st) (mp_finished st)
                  (mp_processors st))
  | Raised e => Raised e
  | OutOfFuel => OutOfFuel
  end.

(** A valid process list in which a process carries the id that the
    schedulers give to idle time. *)
Definition idle_named_processes : list process :=
  [ Process "Idle" 2 3; Process "B" 3 1 ].

(** The Idle events that a list of events holds for processor [i]. *)
Definition idle_events_of (i : nat) (events : list event) : list event :=
  filter (λ e, ev_id e = Idle ∧ ev_processor e = processor_label i) events.

(** Processor [i] has been marked busy: its ["idle"] key holds [False]. *)
Definition mp_marked_busy (i : nat) (st : mp_state) : Prop :=
  ∃ proc_state, mp_processors st !! i = Some proc_state
                ∧ ps_idle proc_state = Some false.

(** What stays as it is once processor [i] has been marked busy: the ids of
    the process list, the mark, and the Idle events of the processor. *)
Record mp_busy_inv (i : nat) (ids : list string) (recorded : list event)
    (st : mp_state) : Prop := {
  busy_ids : p6_id <$> mp_processes st = ids;
  busy_mark : mp_marked_busy i st;
  busy_recorded : idle_events_of i (mp_schedule_events st) = recorded
}.

(** The process [waiting] has not arrived and cannot arrive any more: it is
    in no queue, on no processor and not finished, and the clock has passed
    the arrival time of every process that carries its id. *)
Record mp_unarrived (ids : list string) (waiting : string) (st : mp_state)
    : Prop := {
  unarrived_ids : p6_id <$> mp_processes st = ids;
  unarrived_late :
    ∀ p, p ∈ mp_processes st → p6_id p = waiting → p6_arrival p < mp_global_time st;
  unarrived_queue : waiting ∉ mp_ready_queue st;
  unarrived_finished : mp_finished st ⊆ list_to_set ids ∖ {[waiting]};
  unarrived_processors :
    Forall (λ proc_state, ps_proc proc_state ≠ Some waiting) (mp_processors st)
}.

(** A processor dictionary as the script creates it. *)
Definition ps_fresh (proc_state : processor) : Prop :=
  ps_proc proc_state = None ∧ ps_idle proc_state = None.

(** A processor without a process that is recording idle time: ["idle"] is
    [True] and ["event_start"] holds a time. *)
Definition ps_idling (proc_state : processor) : Prop :=
  ps_proc proc_state = None ∧ ps_idle proc_state = Some true
  ∧ is_Some (ps_event_start proc_state).

(** A lone process with one unit of work left. *)
Definition lone_unit_process (pid0 : string) (arrival0 burst0 : Z) : list process6 :=
  [ Process6 pid0 arrival0 burst0 1 ].

(** * Facts *)

(** ** Loops *)
Section WhileFacts.
Context {S : Type} (cond : S → bool) (body : S → outcome S).

Lemma turns_invariant (I : S → Prop) k st st' :
  (∀ s s', I s → cond s = true → body s = Returned s' → I s') →
  I st → turns cond body k st st' → I st'.
Proof.
  intros Hstep HI Ht. induction Ht as [|k s s' s'' Hc Hb _ IH]; [done|].
  apply IH. by eapply Hstep.
Qed.

(** The loop is deterministic: a state reached on the way to a final state
    reaches that final state too. *)
Lemma turns_continue j k a b c :
  turns cond body j a b → turns cond body k a c → cond c = false →
  ∃ k', k = (j + k')%nat ∧ turns cond body k' b c.
Proof.
  intros Hj. revert k. induction Hj as [|j s s' s'' Hc Hb _ IH]; intros k Hk Hend.
  - by exists k.
  - inversion Hk as [|k0 ? s0 ? Hc0 Hb0 Hk0]; subst.
    + congruence.
    + assert (s0 = s') as -> by congruence.
      destruct (IH _ Hk0 Hend) as (k' & -> & Hk'). by exists k'.
Qed.

Lemma while_turns fuel st st' :
  while cond body fuel st = Returned st' →
  ∃ k, (k ≤ fuel)%nat ∧ turns cond body k st st' ∧ cond st' = false.
Proof.
  revert st. induction fuel as [|fuel IH]; intros st; simpl.
  - destruct (cond st) eqn:Hc; [done|]. intros [= <-].
    exists 0%nat. split; [lia|]. split; [constructor|done].
  - destruct (cond st) eqn:Hc.
    + destruct (body st) as [s1| |] eqn:Hb; [|done..]. intros Hw.
      destruct (IH _ Hw) as (k & Hk & Ht & Hend).
      exists (Datatypes.S k). split; [lia|]. split; [|done].
      by eapply turns_S.
    + intros [= <-]. exists 0%nat. split; [lia|]. split; [constructor|done].
Qed.

(** Total correctness: an invariant kept by the body and a measure that
    each turn decreases make the loop return within the measure. *)
Lemma while_returns (I : S → Prop) (m : S → nat) fuel st :
  (∀ s, I s → cond s = true → ∃ s', body s = Returned s' ∧ I s' ∧ (m s' < m s)%nat) →
  I st → (m st ≤ fuel)%nat →
  ∃ st', while cond body fuel st = Returned st' ∧ I st' ∧ cond st' = false.
Proof.
  intros Hstep. revert st. induction fuel as [|fuel IH]; intros st HI Hm; simpl.
  - destruct (cond st) eqn:Hc; [|by exists st].
    destruct (Hstep _ HI Hc) as (s' & _ & _ & Hlt). lia.
  - destruct (cond st) eqn:Hc; [|by exists st].
    destruct (Hstep _ HI Hc) as (s' & -> & HI' & Hlt).
    apply IH; [done|lia].
Qed.
End WhileFacts.

(** ** Stable sorting and minima *)
Section SortFacts.
Context {A : Type} (key : A → Z).

Lemma insert_by_Permutation x l : insert_by key x l ≡ₚ x :: l.
Proof.
  induction l as [|y l IH]; simpl; [done|].
  case_decide; [done|]. rewrite IH. apply Permutation_swap.
Qed.

Lemma sorted_by_Permutation l : sorted_by key l ≡ₚ l.
Proof.
  induction l as [|x l IH]; simpl; [done|].
  rewrite insert_by_Permutation. by rewrite IH.
Qed.

Lemma elem_of_sorted_by x l : x ∈ sorted_by key l ↔ x ∈ l.
Proof. by rewrite sorted_by_Permutation. Qed.

Lemma length_sorted_by l : length (sorted_by key l) = length l.
Proof. by rewrite sorted_by_Permutation. Qed.

(** Stability: the elements of one key keep their order. *)
Lemma insert_by_filter (k : Z) x l :
  Sorted (λ a b, key a ≤ key b) l →
  filter (λ a, key a = k) (insert_by key x l) = filter (λ a, key a = k) (x :: l).
Proof.
  induction l as [|y l IH]; intros Hs; simpl; [done|].
  case_decide as Hxy; [done|].
  apply Sorted_inv in Hs as [Hs Hhd].
  rewrite (filter_cons _ y), IH, !filter_cons by done.
  repeat case_decide; try done; lia.
Qed.

Lemma insert_by_Sorted x l :
  Sorted (λ a b, key a ≤ key b) l → Sorted (λ a b, key a ≤ key b) (insert_by key x l).
Proof.
  induction l as [|y l IH]; intros Hs; simpl.
  - by repeat constructor.
  - case_decide as Hxy.
    + constructor; [done|]. by constructor.
    + apply Sorted_inv in Hs as [Hs Hhd]. constructor; [by apply IH|].
      destruct l as [|z l]; simpl.
      * constructor. lia.
      * case_decide; constructor; [lia|]. by inversion Hhd.
Qed.

Lemma sorted_by_Sorted l : Sorted (λ a b, key a ≤ key b) (sorted_by key l).
Proof.
  induction l as [|x l IH]; simpl; [constructor|]. by apply insert_by_Sorted.
Qed.

Lemma sorted_by_filter (k : Z) l :
  filter (λ a, key a = k) (sorted_by key l) = filter (λ a, key a = k) l.
Proof.
  induction l as [|x l IH]; simpl; [done|].
  rewrite insert_by_filter by apply sorted_by_Sorted.
  rewrite !filter_cons. by rewrite IH.
Qed.
End SortFacts.

Section MinFacts.
Context {A : Type} (key : A → Z).

Lemma min_by_None l : min_by key l = None ↔ l = [].
Proof.
  destruct l as [|x l]; simpl; [done|].
  destruct (min_by key l); [case_decide|]; done.
Qed.

Lemma min_by_Some l x :
  min_by key l = Some x → x ∈ l ∧ ∀ y, y ∈ l → key x ≤ key y.
Proof.
  revert x. induction l as [|a l IH]; intros x; simpl; [done|].
  destruct (min_by key l) as [m|] eqn:Hm.
  - destruct (IH m eq_refl) as [Hin Hle].
    case_decide as Ham; intros [= <-].
    + split; [left|]. intros y [->|Hy]%elem_of_cons; [lia|].
      specialize (Hle y Hy). lia.
    + split; [by right|]. intros y [->|Hy]%elem_of_cons; [lia|by apply Hle].
  - intros [= <-]. apply min_by_None in Hm as ->.
    split; [left|]. intros y ->%list_elem_of_singleton. lia.
Qed.
End MinFacts.

(** ** Timelines *)

Lemma total_duration_app owner l1 l2 :
  total_duration owner (l1 ++ l2) = total_duration owner l1 + total_duration owner l2.
Proof.
  unfold total_duration. rewrite filter_app.
  induction (filter _ l1) as [|s l IH]; simpl; lia.
Qed.

Lemma total_duration_snoc owner timeline s :
  total_duration owner (timeline ++ [s])
  = total_duration owner timeline + (if decide (seg_id s = owner) then duration s else 0).
Proof.
  rewrite total_duration_app. f_equal.
  unfold total_duration. rewrite filter_cons, filter_nil.
  case_decide; simpl; lia.
Qed.

Lemma owner_at_app_l timeline rest t c :
  owner_at timeline t = Some c → owner_at (timeline ++ rest) t = Some c.
Proof.
  unfold owner_at. intros H.
  destruct (list_find _ timeline) as [[i s]|] eqn:Hf; [|done].
  by erewrite list_find_app_l.
Qed.

Lemma owner_at_snoc timeline c a b t :
  (∀ s, s ∈ timeline → seg_end s ≤ a) → a ≤ t < b →
  owner_at (timeline ++ [Segment c a b]) t = Some c.
Proof.
  intros Hend Ht. unfold owner_at.
  rewrite list_find_app_r.
  - simpl. rewrite decide_True by done. done.
  - apply list_find_None, Forall_forall. intros s Hs. specialize (Hend s Hs). lia.
Qed.

(** ** Shortest remaining time first *)

Lemma pid_inj (processes : list process) p q :
  NoDup (pid <$> processes) → p ∈ processes → q ∈ processes → pid p = pid q → p = q.
Proof.
  induction processes as [|a l IH]; simpl; intros Hnd Hp Hq Heq.
  - by apply elem_of_nil in Hp.
  - apply NoDup_cons in Hnd as [Ha Hnd].
    apply elem_of_cons in Hp as [->|Hp]; apply elem_of_cons in Hq as [->|Hq].
    + done.
    + exfalso. apply Ha. rewrite Heq. by apply list_elem_of_fmap_2.
    + exfalso. apply Ha. rewrite <- Heq. by apply list_elem_of_fmap_2.
    + by apply IH.
Qed.

Lemma remaining_foldl_other (l : list process) (m : gmap string Z) k :
  k ∉ pid <$> l → foldl (λ m p, <[pid p := burst p]> m) m l !!! k = m !!! k.
Proof.
  revert m. induction l as [|a l IH]; intros m Hk; simpl; [done|].
  rewrite fmap_cons in Hk. apply not_elem_of_cons in Hk as [Hka Hk].
  rewrite IH by done. by rewrite lookup_total_insert_ne.
Qed.

Lemma remaining_init_lookup (processes : list process) p :
  NoDup (pid <$> processes) → p ∈ processes →
  remaining_init processes !!! pid p = burst p.
Proof.
  unfold remaining_init. generalize (∅ : gmap string Z).
  induction processes as [|a l IH]; intros m Hnd Hp; simpl.
  - by apply elem_of_nil in Hp.
  - rewrite fmap_cons in Hnd. apply NoDup_cons in Hnd as [Ha Hnd].
    apply elem_of_cons in Hp as [->|Hp].
    + rewrite remaining_foldl_other by done. by rewrite lookup_total_insert_eq.
    + by apply IH.
Qed.

Lemma total_remaining_insert_other (l : list process) (m : gmap string Z) k v :
  k ∉ pid <$> l → total_remaining l (<[k := v]> m) = total_remaining l m.
Proof.
  induction l as [|a l IH]; intros Hk; simpl; [done|].
  rewrite fmap_cons in Hk. apply not_elem_of_cons in Hk as [Hka Hk].
  rewrite IH by done. by rewrite lookup_total_insert_ne.
Qed.

Lemma total_remaining_insert (l : list process) (m : gmap string Z) p v :
  NoDup (pid <$> l) → p ∈ l →
  total_remaining l (<[pid p := v]> m) = total_remaining l m - m !!! pid p + v.
Proof.
  induction l as [|a l IH]; intros Hnd Hp; simpl.
  - by apply elem_of_nil in Hp.
  - rewrite fmap_cons in Hnd. apply NoDup_cons in Hnd as [Ha Hnd].
    apply elem_of_cons in Hp as [->|Hp].
    + rewrite total_remaining_insert_other by done.
      rewrite lookup_total_insert_eq. lia.
    + rewrite IH by done. rewrite lookup_total_insert_ne; [lia|].
      intros Heq. apply Ha. rewrite <- Heq. by apply list_elem_of_fmap_2.
Qed.

Lemma total_remaining_init (processes : list process) :
  NoDup (pid <$> processes) →
  total_remaining processes (remaining_init processes) = sum_burst processes.
Proof.
  intros Hnd.
  assert (∀ l, (∀ p, p ∈ l → p ∈ processes) →
    total_remaining l (remaining_init processes) = sum_burst l) as H.
  { induction l as [|a l IH]; intros Hl; simpl; [done|].
    rewrite remaining_init_lookup by (done || apply Hl; left).
    rewrite IH; [done|]. intros p Hp. apply Hl. by right. }
  by apply H.
Qed.

Lemma incomplete_exists (processes : list process) (completed : gset string) :
  NoDup (pid <$> processes) →
  completed ⊆ list_to_set (pid <$> processes) →
  (size completed < length processes)%nat →
  ∃ p, p ∈ processes ∧ pid p ∉ completed.
Proof.
  intros Hnd Hsub Hsize.
  destruct (decide (Forall (λ p, pid p ∈ completed) processes)) as [Hall|Hex].
  - exfalso.
    assert (list_to_set (pid <$> processes) ⊆ completed) as Hsup.
    { intros k [p [-> Hp]]%elem_of_list_to_set%list_elem_of_fmap.
      by eapply Forall_forall in Hall. }
    apply subseteq_size in Hsup.
    rewrite size_list_to_set, length_fmap in Hsup by done. lia.
  - apply not_Forall_Exists in Hex; [|apply _].
    apply Exists_exists in Hex as (p & Hp & Hn). by exists p.
Qed.

Lemma all_completed (processes : list process) (completed : gset string) p :
  NoDup (pid <$> processes) →
  completed ⊆ list_to_set (pid <$> processes) →
  ¬ (size completed < length processes)%nat →
  p ∈ processes → pid p ∈ completed.
Proof.
  intros Hnd Hsub Hsize Hp.
  assert (completed = list_to_set (pid <$> processes)) as ->.
  { apply set_subseteq_size_eq; [done|].
    rewrite size_list_to_set, length_fmap by done. lia. }
  apply elem_of_list_to_set. by apply list_elem_of_fmap_2.
Qed.

Lemma close_segment_total owner timeline current start time :
  total_duration owner (close_segment timeline current start time)
  = total_duration owner timeline
    + (if decide (current = Some owner) then time - start else 0).
Proof.
  destruct current as [c|]; simpl.
  - rewrite total_duration_snoc. unfold duration. simpl.
    repeat case_decide; simplify_eq; lia.
  - lia.
Qed.

Lemma close_segment_closed timeline current start time :
  (∀ s, s ∈ timeline → seg_start s < seg_end s ≤ start) →
  (is_Some current → start < time) → start ≤ time →
  ∀ s, s ∈ close_segment timeline current start time →
       seg_start s < seg_end s ≤ time.
Proof.
  intros Hcl Hlt Hle s Hs. destruct current as [c|]; simpl in Hs.
  - apply elem_of_app in Hs as [Hs| ->%list_elem_of_singleton].
    + specialize (Hcl s Hs). lia.
    + simpl. specialize (Hlt (mk_is_Some _ _ eq_refl)). lia.
  - specialize (Hcl s Hs). lia.
Qed.

Local Arguments close_segment : simpl never.

(** [if current_process != c: (close the open segment); current_process = c;
    segment_start = time]: afterwards [c] is the open owner and no time is
    lost or counted twice. *)
Lemma switch_spec timeline current start time c tl0 cur0 st0 :
  (if decide (current ≠ Some c)
   then (close_segment timeline current start time, Some c, time)
   else (timeline, current, start)) = (tl0, cur0, st0) →
  (∀ s, s ∈ timeline → seg_start s < seg_end s ≤ start) →
  (current = None → start = time) →
  (is_Some current → start < time) →
  cur0 = Some c ∧ st0 ≤ time ∧
  (∀ s, s ∈ tl0 → seg_start s < seg_end s ≤ st0) ∧
  (∀ o, total_duration o tl0 + (if decide (o = c) then time - st0 else 0)
        = total_duration o timeline
          + (if decide (current = Some o) then time - start else 0)).
Proof.
  intros Hsw Hcl Hnone Hsome.
  assert (start ≤ time) as Hle.
  { destruct current; [|by rewrite Hnone]. specialize (Hsome (mk_is_Some _ _ eq_refl)). lia. }
  case_decide as Hne; simplify_eq.
  - split; [done|]. split; [done|]. split; [by apply close_segment_closed|].
    intros o. rewrite close_segment_total. repeat case_decide; lia.
  - split; [done|]. split; [done|]. split; [done|].
    intros o. repeat case_decide; simplify_eq; lia.
Qed.

Lemma max_arrival_ge (processes : list process) p :
  p ∈ processes → arrival p ≤ max_arrival processes.
Proof.
  induction processes as [|a l IH]; simpl.
  - by intros ?%elem_of_nil.
  - intros [->|Hp]%elem_of_cons; [lia|]. specialize (IH Hp). lia.
Qed.

Lemma max_arrival_nonneg (processes : list process) : 0 ≤ max_arrival processes.
Proof. induction processes; simpl; lia. Qed.

Lemma total_remaining_ge (l : list process) (m : gmap string Z) p :
  (∀ q, q ∈ l → 0 ≤ m !!! pid q) → p ∈ l →
  0 ≤ total_remaining l m ∧ m !!! pid p ≤ total_remaining l m.
Proof.
  induction l as [|a l IH]; simpl; intros Hnn Hp.
  - by apply elem_of_nil in Hp.
  - assert (0 ≤ m !!! pid a) by (apply Hnn; left).
    assert (0 ≤ total_remaining l m) as Hl.
    { clear IH Hp. induction l as [|b l IHl]; simpl; [done|].
      assert (0 ≤ m !!! pid b) by (apply Hnn; right; left).
      assert (0 ≤ total_remaining l m); [|lia].
      apply IHl. intros q [->|Hq]%elem_of_cons; apply Hnn; [left|right; by right]. }
    apply elem_of_cons in Hp as [->|Hp]; [lia|].
    destruct IH as [_ IH]; [|done|lia].
    intros q Hq. apply Hnn. by right.
Qed.

Section SrtfFacts.
Context (processes : list process).
Hypothesis Hvalid : valid_processes processes.
Hypothesis Hidle : Idle ∉ pid <$> processes.

Local Abbreviation processes_sorted := (sorted_by arrival processes).
Local Abbreviation n := (length processes).

Lemma srtf_next_proc_Some st p :
  srtf_next_proc processes_sorted st = Some p →
  p ∈ processes ∧ arrival p ≤ srtf_time st ∧ (pid p ∉ srtf_completed st) ∧
  ∀ q, q ∈ processes → arrival q ≤ srtf_time st → pid q ∉ srtf_completed st →
       srtf_remaining st !!! pid p ≤ srtf_remaining st !!! pid q.
Proof.
  unfold srtf_next_proc, srtf_available. intros [Hin Hmin]%min_by_Some.
  apply list_elem_of_filter in Hin as [[Harr Hnc] Hin].
  apply elem_of_sorted_by in Hin. repeat split; try done.
  intros q Hq Hqa Hqc. apply Hmin.
  apply list_elem_of_filter. split; [done|]. by apply elem_of_sorted_by.
Qed.

Lemma srtf_next_proc_None st q :
  srtf_next_proc processes_sorted st = None →
  q ∈ processes → pid q ∉ srtf_completed st → srtf_time st < arrival q.
Proof.
  unfold srtf_next_proc, srtf_available. intros Hnone%min_by_None Hq Hqc.
  destruct (decide (arrival q ≤ srtf_time st)) as [Hle|]; [|lia].
  exfalso. eapply filter_nil_not_elem_of; [exact Hnone| |].
  - split; [exact Hle|exact Hqc].
  - by apply elem_of_sorted_by.
Qed.

Lemma srtf_init_inv : srtf_inv processes (srtf_init processes).
Proof.
  destruct Hvalid as (_ & Hnd & _).
  split; simpl; try done.
  - by intros s ?%elem_of_nil.
  - intros p Hp. rewrite remaining_init_lookup by done.
    unfold total_duration. simpl. lia.
  - intros p Hp _. rewrite remaining_init_lookup by done.
    destruct Hvalid as (_ & _ & Hpos).
    eapply Forall_forall in Hpos; [|done]. lia.
Qed.

Lemma srtf_body_inv st :
  srtf_inv processes st → srtf_cond n st = true →
  srtf_inv processes (srtf_body processes_sorted st).
Proof.
  destruct Hvalid as (_ & Hnd & Hpos).
  intros [Hnone Hsome Hbusy Hrun Hclosed Hsum Hcomp Hinc Hsub] Hcond.
  apply bool_decide_eq_true in Hcond.
  destruct (incomplete_exists _ _ Hnd Hsub Hcond) as (p0 & Hp0 & Hp0c).
  destruct st as [remaining time timeline current segment_start completed].
  simpl in *. unfold srtf_body.
  destruct (srtf_next_proc _ _) as [next|] eqn:Hnext.
  - apply srtf_next_proc_Some in Hnext as (Hin & Harr & Hnc & Hmin). simpl in *.
    remember (if decide (current ≠ Some (pid next))
              then (close_segment timeline current segment_start time,
                    Some (pid next), time)
              else (timeline, current, segment_start)) as sw eqn:Hsw.
    destruct sw as [[tl0 cur0] st0]. symmetry in Hsw.
    destruct (switch_spec _ _ _ _ _ _ _ _ Hsw Hclosed Hnone Hsome)
      as (-> & Hst0 & Hcl0 & Htot0).
    assert (∀ p, p ∈ processes → pid p ≠ pid next →
              <[pid next:=remaining !!! pid next - 1]> remaining !!! pid p
              = remaining !!! pid p) as Hother.
    { intros p _ Hne. by rewrite lookup_total_insert_ne. }
    assert (∀ p, p ∈ processes →
      total_duration (pid p) tl0
      + (if decide (pid p = pid next) then time + 1 - st0 else 0)
      + <[pid next:=remaining !!! pid next - 1]> remaining !!! pid p = burst p)
      as Hsum'.
    { intros p Hp. specialize (Htot0 (pid p)). specialize (Hsum p Hp).
      destruct (decide (pid p = pid next)) as [Heq|Hne].
      - rewrite Heq in *. rewrite lookup_total_insert_eq. lia.
      - rewrite Hother by done. lia. }
    rewrite lookup_total_insert_eq.
    destruct (decide (remaining !!! pid next - 1 = 0)) as [Hz|Hz].
    + split; simpl.
      * done.
      * by intros []%is_Some_None.
      * by intros []%is_Some_None.
      * done.
      * apply close_segment_closed; [done| |lia]. intros _. lia.
      * intros p Hp. rewrite close_segment_total. specialize (Hsum' p Hp).
        destruct (decide (pid p = pid next)) as [Heq|Hne].
        -- rewrite Heq in *. rewrite decide_True by done. lia.
        -- rewrite decide_False by congruence. lia.
      * intros p Hp Hc. destruct (decide (pid p = pid next)) as [Heq|Hne].
        -- rewrite Heq. by rewrite lookup_total_insert_eq.
        -- rewrite Hother by done. apply Hcomp; [done|].
           by apply elem_of_union in Hc as [Hc%elem_of_singleton|Hc].
      * intros p Hp Hc.
        apply not_elem_of_union in Hc as [Hc1%not_elem_of_singleton Hc2].
        rewrite Hother by done. by apply Hinc.
      * apply union_subseteq. split; [|done].
        apply singleton_subseteq_l, elem_of_list_to_set.
        by apply list_elem_of_fmap_2.
    + split; simpl.
      * done.
      * intros _. lia.
      * intros _. by exists next.
      * intros c [= <-] _. exists next. repeat split; try done; lia.
      * done.
      * intros p Hp. specialize (Hsum' p Hp).
        destruct (decide (pid p = pid next)) as [Heq|Hne].
        -- rewrite Heq in *. rewrite decide_True by done. lia.
        -- rewrite decide_False by congruence. lia.
      * intros p Hp Hc. rewrite Hother; [by apply Hcomp|done|].
        intros Heq. by rewrite Heq in Hc.
      * intros p Hp Hc. destruct (decide (pid p = pid next)) as [Heq|Hne].
        -- rewrite Heq. rewrite lookup_total_insert_eq.
           specialize (Hinc next Hin Hnc). lia.
        -- rewrite Hother by done. by apply Hinc.
      * done.
  - simpl in *.
    assert (∀ p, p ∈ processes → Some Idle ≠ Some (pid p)) as Hni.
    { intros p Hp [= Heq]. apply Hidle. rewrite Heq. by apply list_elem_of_fmap_2. }
    assert (segment_start ≤ time) as Hle.
    { destruct current; [|by rewrite Hnone].
      specialize (Hsome (mk_is_Some _ _ eq_refl)). lia. }
    case_decide as Hsw.
    + split; simpl.
      * done.
      * intros _. lia.
      * intros _. by exists p0.
      * by intros c [= <-] Hc.
      * by apply close_segment_closed.
      * intros p Hp. rewrite close_segment_total.
        rewrite (decide_False (P := Some Idle = Some (pid p))) by by apply Hni.
        specialize (Hsum p Hp). lia.
      * done.
      * done.
      * done.
    + subst current. split; simpl.
      * done.
      * intros _. specialize (Hsome (mk_is_Some _ _ eq_refl)). lia.
      * intros _. by exists p0.
      * by intros c [= <-] Hc.
      * done.
      * intros p Hp. specialize (Hsum p Hp).
        rewrite (decide_False (P := Some Idle = Some (pid p))) in * by by apply Hni.
        lia.
      * done.
      * done.
      * done.
Qed.
Lemma srtf_inv_remaining_nonneg st q :
  srtf_inv processes st → q ∈ processes → 0 ≤ srtf_remaining st !!! pid q.
Proof.
  intros Hinv Hq. destruct (decide (pid q ∈ srtf_completed st)) as [Hc|Hc].
  - by rewrite (srtf_inv_completed _ _ Hinv q).
  - pose proof (srtf_inv_incomplete _ _ Hinv q Hq Hc). lia.
Qed.

Lemma srtf_body_measure st :
  srtf_inv processes st → srtf_cond n st = true →
  (srtf_measure processes (srtf_body processes_sorted st)
   < srtf_measure processes st)%nat.
Proof.
  destruct Hvalid as (_ & Hnd & Hpos).
  intros Hinv Hcond. pose proof (srtf_inv_remaining_nonneg st) as Hnn.
  specialize (λ q, Hnn q Hinv).
  apply bool_decide_eq_true in Hcond.
  destruct (incomplete_exists _ _ Hnd (srtf_inv_subset _ _ Hinv) Hcond)
    as (p0 & Hp0 & Hp0c).
  destruct st as [remaining time timeline current segment_start completed].
  unfold srtf_measure, srtf_body. simpl in *.
  destruct (srtf_next_proc _ _) as [next|] eqn:Hnext.
  - apply srtf_next_proc_Some in Hnext as (Hin & Harr & Hnc & Hmin). simpl in *.
    pose proof (srtf_inv_incomplete _ _ Hinv next Hin Hnc) as Hpos'. simpl in Hpos'.
    destruct (total_remaining_ge processes remaining next Hnn Hin) as [Hge0 Hge].
    assert (total_remaining processes
              (<[pid next:=remaining !!! pid next - 1]> remaining)
            = total_remaining processes remaining - 1) as Htr.
    { rewrite total_remaining_insert by done. lia. }
    destruct (if decide (current ≠ Some (pid next)) then _ else _) as [[tl0 cur0] st0].
    case_decide; simpl; rewrite Htr; lia.
  - pose proof (srtf_next_proc_None _ _ Hnext Hp0 Hp0c) as Hlt. simpl in Hlt.
    pose proof (max_arrival_ge _ _ Hp0).
    destruct (total_remaining_ge processes remaining p0 Hnn Hp0) as [Hge0 Hge].
    case_decide; simpl; lia.
Qed.

Lemma srtf_returns :
  ∃ st, while (srtf_cond n) (srtf_turn processes_sorted)
          (srtf_fuel processes) (srtf_init processes) = Returned st
        ∧ srtf_inv processes st ∧ srtf_cond n st = false.
Proof.
  apply (while_returns _ _ (srtf_inv processes) (srtf_measure processes)).
  - intros s Hs Hc. exists (srtf_body processes_sorted s).
    split; [done|]. split; [by apply srtf_body_inv|by apply srtf_body_measure].
  - apply srtf_init_inv.
  - unfold srtf_measure, srtf_fuel. simpl.
    rewrite total_remaining_init by apply Hvalid.
    pose proof (max_arrival_nonneg processes). lia.
Qed.

End SrtfFacts.

Lemma close_segment_ran timeline current start time c' t c :
  (∀ s, s ∈ timeline → seg_start s < seg_end s ≤ start) →
  ran_in timeline current start t c → t < time →
  ran_in (close_segment timeline current start time) c' time t c.
Proof.
  intros Hcl [Hbefore Hopen] Ht. split; [intros _|lia].
  destruct (decide (t < start)) as [Hlt|Hge].
  - destruct current; unfold close_segment; [apply owner_at_app_l|]; by apply Hbefore.
  - rewrite Hopen by lia. unfold close_segment. apply owner_at_snoc; [|lia].
    intros s Hs. specialize (Hcl s Hs). lia.
Qed.

Lemma switch_ran timeline current start time c tl0 cur0 st0 t c' :
  (if decide (current ≠ Some c)
   then (close_segment timeline current start time, Some c, time)
   else (timeline, current, start)) = (tl0, cur0, st0) →
  (∀ s, s ∈ timeline → seg_start s < seg_end s ≤ start) →
  ran_in timeline current start t c' → t < time →
  ran_in tl0 cur0 st0 t c'.
Proof.
  intros Hsw Hcl Hran Ht. case_decide; simplify_eq; [|done].
  by apply close_segment_ran.
Qed.

Lemma close_segment_prefix timeline current start time :
  timeline `prefix_of` close_segment timeline current start time.
Proof. destruct current; unfold close_segment; [by apply prefix_app_r|done]. Qed.

Section SrtfTimeline.
Context (processes : list process).
Hypothesis Hvalid : valid_processes processes.
Hypothesis Hidle : Idle ∉ pid <$> processes.

Local Abbreviation processes_sorted := (sorted_by arrival processes).
Local Abbreviation n := (length processes).

Lemma srtf_body_time st :
  srtf_time (srtf_body processes_sorted st) = srtf_time st + 1.
Proof.
  destruct st as [remaining time timeline current segment_start completed].
  unfold srtf_body. destruct (srtf_next_proc _ _) as [next|]; simpl.
  - destruct (if decide (current ≠ Some (pid next)) then _ else _) as [[tl0 cur0] st0].
    by case_decide.
  - by case_decide.
Qed.

Lemma srtf_body_prefix st :
  srtf_timeline st `prefix_of` srtf_timeline (srtf_body processes_sorted st).
Proof.
  destruct st as [remaining time timeline current segment_start completed].
  unfold srtf_body. destruct (srtf_next_proc _ _) as [next|]; simpl.
  - assert (∀ tl0 cur0 st0,
      (if decide (current ≠ Some (pid next))
       then (close_segment timeline current segment_start time, Some (pid next), time)
       else (timeline, current, segment_start)) = (tl0, cur0, st0) →
      timeline `prefix_of` tl0) as Hsw.
    { intros tl0 cur0 st0 Heq. case_decide; simplify_eq; [|done].
      apply close_segment_prefix. }
    destruct (if decide (current ≠ Some (pid next)) then _ else _) as [[tl0 cur0] st0].
    specialize (Hsw _ _ _ eq_refl).
    case_decide; simpl; [|done].
    etrans; [exact Hsw|apply close_segment_prefix].
  - case_decide; simpl; [apply close_segment_prefix|done].
Qed.

Lemma srtf_turns_inv k st :
  turns (srtf_cond n) (srtf_turn processes_sorted) k (srtf_init processes) st →
  srtf_inv processes st.
Proof.
  apply turns_invariant; [|by apply srtf_init_inv].
  intros s s' Hs Hc [= <-]. by apply srtf_body_inv.
Qed.

Lemma srtf_turns_time k a b :
  turns (srtf_cond n) (srtf_turn processes_sorted) k a b →
  srtf_time b = srtf_time a + Z.of_nat k.
Proof.
  induction 1 as [|k s s' s'' Hc Hb _ IH]; [lia|].
  injection Hb as <-. rewrite IH, srtf_body_time. lia.
Qed.

Lemma srtf_turns_prefix k a b :
  turns (srtf_cond n) (srtf_turn processes_sorted) k a b →
  srtf_timeline a `prefix_of` srtf_timeline b.
Proof.
  induction 1 as [|k s s' s'' Hc Hb _ IH]; [done|].
  injection Hb as <-. etrans; [apply srtf_body_prefix|done].
Qed.

(** The unit of time of a turn goes to the process the turn selects, or to
    [Idle] when none is eligible. *)
Lemma srtf_body_ran_set st :
  srtf_inv processes st →
  srtf_ran (srtf_time st)
    (from_option pid Idle (srtf_next_proc processes_sorted st))
    (srtf_body processes_sorted st).
Proof.
  intros [Hnone Hsome Hbusy Hrun Hclosed Hsum Hcomp Hinc Hsub].
  split; [rewrite srtf_body_time; lia|].
  destruct st as [remaining time timeline current segment_start completed].
  simpl in *. unfold srtf_body.
  destruct (srtf_next_proc _ _) as [next|] eqn:Hnext; simpl.
  - remember (if decide (current ≠ Some (pid next))
              then (close_segment timeline current segment_start time,
                    Some (pid next), time)
              else (timeline, current, segment_start)) as sw eqn:Hsw.
    destruct sw as [[tl0 cur0] st0]. symmetry in Hsw.
    destruct (switch_spec _ _ _ _ _ _ _ _ Hsw Hclosed Hnone Hsome)
      as (-> & Hst0 & Hcl0 & Htot0).
    assert (ran_in tl0 (Some (pid next)) st0 time (pid next)) as Hran.
    { split; [lia|done]. }
    destruct (decide (_ !!! _ = 0)); simpl; [|done].
    apply close_segment_ran; [done..|lia].
  - case_decide as Hsw; simpl.
    + split; [lia|done].
    + split; [|done]. intros Hlt. subst current.
      specialize (Hsome (mk_is_Some _ _ eq_refl)). lia.
Qed.

Lemma srtf_body_ran_kept st t c :
  srtf_inv processes st → srtf_ran t c st → srtf_ran t c (srtf_body processes_sorted st).
Proof.
  intros [Hnone Hsome Hbusy Hrun Hclosed Hsum Hcomp Hinc Hsub] [Ht Hran].
  split; [rewrite srtf_body_time; lia|].
  destruct st as [remaining time timeline current segment_start completed].
  simpl in *. unfold srtf_body.
  destruct (srtf_next_proc _ _) as [next|] eqn:Hnext; simpl.
  - remember (if decide (current ≠ Some (pid next))
              then (close_segment timeline current segment_start time,
                    Some (pid next), time)
              else (timeline, current, segment_start)) as sw eqn:Hsw.
    destruct sw as [[tl0 cur0] st0]. symmetry in Hsw.
    pose proof (switch_ran _ _ _ _ _ _ _ _ _ _ Hsw Hclosed Hran Ht) as Hran0.
    destruct (switch_spec _ _ _ _ _ _ _ _ Hsw Hclosed Hnone Hsome)
      as (-> & Hst0 & Hcl0 & Htot0).
    destruct (decide (_ !!! _ = 0)); simpl; [|done].
    apply close_segment_ran; [done..|lia].
  - case_decide as Hsw; simpl; [|done].
    by apply close_segment_ran.
Qed.

Lemma srtf_turns_ran k st st' t c :
  srtf_inv processes st → srtf_ran t c st →
  turns (srtf_cond n) (srtf_turn processes_sorted) k st st' →
  srtf_ran t c st'.
Proof.
  intros Hinv Hran Ht. revert Hinv Hran.
  induction Ht as [|k s s' s'' Hc Hb _ IH]; intros Hinv Hran; [done|].
  injection Hb as <-. apply IH; [by apply srtf_body_inv|by apply srtf_body_ran_kept].
Qed.
Lemma srtf_inv_durations st s :
  srtf_inv processes st → s ∈ srtf_timeline st → 0 < duration s.
Proof.
  intros Hinv Hs. destruct (srtf_inv_closed _ _ Hinv s Hs). unfold duration. lia.
Qed.

Lemma total_duration_nonneg owner (timeline : list segment) :
  (∀ s, s ∈ timeline → 0 < duration s) → 0 ≤ total_duration owner timeline.
Proof.
  intros Hpos. unfold total_duration.
  assert (∀ s, s ∈ filter (λ s, seg_id s = owner) timeline → 0 < duration s) as H.
  { intros s [_ Hs]%list_elem_of_filter. by apply Hpos. }
  induction (filter _ timeline) as [|a l IH]; simpl; [done|].
  assert (0 < duration a) by (apply H; left).
  assert (0 ≤ foldr (λ s acc, duration s + acc) 0 l); [|lia].
  apply IH. intros s Hs. apply H. by right.
Qed.

(** At the end every process is complete and no segment is open. *)
Lemma srtf_final st p :
  srtf_inv processes st → srtf_cond n st = false → p ∈ processes →
  total_duration (pid p) (srtf_timeline st) = burst p.
Proof.
  destruct Hvalid as (_ & Hnd & _).
  intros Hinv Hcond%bool_decide_eq_false Hp.
  pose proof (λ q, all_completed _ _ q Hnd (srtf_inv_subset _ _ Hinv) Hcond) as Hall.
  assert (srtf_current_process st = None) as Hcur.
  { destruct (srtf_current_process st) as [c|] eqn:Hc; [|done].
    destruct (srtf_inv_busy _ _ Hinv) as (q & Hq & Hqc); [by rewrite Hc|].
    exfalso. apply Hqc. by apply Hall. }
  pose proof (srtf_inv_sum _ _ Hinv p Hp) as Hsum.
  rewrite Hcur in Hsum. rewrite decide_False in Hsum by done.
  rewrite (srtf_inv_completed _ _ Hinv p Hp) in Hsum by by apply Hall. lia.
Qed.

Lemma srtf_final_ran st t c :
  srtf_inv processes st → srtf_cond n st = false → srtf_ran t c st →
  owner_at (srtf_timeline st) t = Some c.
Proof.
  destruct Hvalid as (_ & Hnd & _).
  intros Hinv Hcond%bool_decide_eq_false [Ht [Hbefore Hopen]].
  pose proof (λ q, all_completed _ _ q Hnd (srtf_inv_subset _ _ Hinv) Hcond) as Hall.
  destruct (decide (t < srtf_segment_start st)) as [Hlt|Hge]; [by apply Hbefore|].
  destruct (srtf_inv_busy _ _ Hinv) as (q & Hq & Hqc).
  - by rewrite Hopen by lia.
  - exfalso. apply Hqc. by apply Hall.
Qed.

(** A turn that selects another process than the running one closes the
    running one's segment at the current time. *)
Lemma srtf_body_preempt st c next :
  srtf_current_process st = Some c →
  srtf_next_proc processes_sorted st = Some next → pid next ≠ c →
  (srtf_timeline st ++ [Segment c (srtf_segment_start st) (srtf_time st)])
    `prefix_of` srtf_timeline (srtf_body processes_sorted st).
Proof.
  destruct st as [remaining time timeline current segment_start completed].
  simpl. intros -> Hnext Hne. unfold srtf_body. rewrite Hnext.
  rewrite decide_True by congruence.
  destruct (decide (_ !!! _ = 0)); simpl; [|done].
  apply close_segment_prefix.
Qed.
End SrtfTimeline.

(** C3 (amended): on a valid input none of whose ids is the owner string
    of idle time, the shortest-remaining-time-first scheduler returns a
    timeline in which, at every unit of time [t] of the simulation, the
    owner is the eligible (arrived, incomplete) process with the least
    remaining time, or Idle when none is eligible; when that process is not
    the one that was running, the running process's segment is closed at [t],
    shorter than its burst, and later segments of the same id follow; the
    segments of every process sum to its burst. *)
Theorem srtf_runs_shortest_remaining (processes : list process) :
  valid_processes processes → Idle ∉ pid <$> processes →
  ∃ timeline,
    sjf_preemptive_schedule processes = Returned timeline ∧
    (∀ p, p ∈ processes → total_duration (pid p) timeline = burst p) ∧
    (∀ s, s ∈ timeline → 0 < duration s) ∧
    ∀ (t : nat) st,
      turns (srtf_cond (length processes)) (srtf_turn (sorted_by arrival processes))
        t (srtf_init processes) st →
      srtf_cond (length processes) st = true →
      srtf_time st = Z.of_nat t ∧
      match srtf_next_proc (sorted_by arrival processes) st with
      | Some next_proc =>
          srtf_eligible processes st next_proc ∧
          (∀ q, srtf_eligible processes st q →
                srtf_remaining st !!! pid next_proc ≤ srtf_remaining st !!! pid q) ∧
          owner_at timeline (Z.of_nat t) = Some (pid next_proc) ∧
          (∀ c, srtf_current_process st = Some c → c ≠ Idle → c ≠ pid next_proc →
             ∃ p after,
               p ∈ processes ∧ pid p = c ∧
               timeline = srtf_timeline st
                          ++ Segment c (srtf_segment_start st) (Z.of_nat t) :: after ∧
               Z.of_nat t - srtf_segment_start st < burst p ∧
               0 < total_duration c after)
      | None =>
          (∀ q, ¬ srtf_eligible processes st q) ∧
          owner_at timeline (Z.of_nat t) = Some Idle
      end.
Proof.
  intros Hvalid Hidle.
  destruct (srtf_returns processes Hvalid Hidle) as (final & Hwhile & Hfinal & Hend).
  exists (srtf_timeline final). unfold sjf_preemptive_schedule.
  rewrite Hwhile. simpl. split; [done|].
  split; [intros p Hp; by apply (srtf_final processes)|].
  split; [intros s Hs; by eapply (srtf_inv_durations processes)|].
  intros t st Hturns Hcond.
  pose proof (srtf_turns_inv _ Hvalid Hidle _ _ Hturns) as Hinv.
  pose proof (srtf_turns_time _ _ _ _ Hturns) as Htime. simpl in Htime.
  split; [lia|].
  (* the rest of the run, from the turn at time [t] on *)
  apply while_turns in Hwhile as (k & _ & Hall & _).
  destruct (turns_continue _ _ _ _ _ _ _ Hturns Hall Hend) as (k' & -> & Hrest).
  inversion Hrest as [|k'' ? st1 ? _ Hb Hrest']; subst; [congruence|].
  injection Hb as <-.
  pose proof (srtf_body_inv _ Hvalid Hidle _ Hinv Hcond) as Hinv1.
  pose proof (srtf_body_ran_set _ st Hinv) as Hran.
  pose proof (srtf_turns_ran _ Hvalid Hidle _ _ _ _ _ Hinv1 Hran Hrest') as Hran'.
  apply (srtf_final_ran _ Hvalid) in Hran'; [|done..].
  assert (srtf_time st = Z.of_nat t) as Htime' by lia.
  rewrite Htime' in Hran'.
  destruct (srtf_next_proc _ st) as [next|] eqn:Hnext; simpl in Hran'.
  - pose proof (srtf_next_proc_Some _ _ _ Hnext) as (Hin & Harr & Hnc & Hmin).
    split; [done|]. split; [intros q (Hq & Hqa & Hqc); by apply Hmin|].
    split; [done|].
    intros c Hc Hcidle Hcnext.
    destruct (srtf_inv_running _ _ Hinv c Hc Hcidle) as (p & Hp & Hpc & Hpn & Hpa).
    pose proof (srtf_body_preempt _ _ _ _ Hc Hnext (not_eq_sym Hcnext)) as Hpre.
    pose proof (srtf_turns_prefix _ _ _ _ Hrest') as Hpre'.
    destruct (transitivity Hpre Hpre') as [after Hafter].
    exists p, after. split; [done|]. split; [done|].
    rewrite <- (assoc_L (++)) in Hafter. simpl in Hafter.
    rewrite Htime' in Hafter.
    split; [done|].
    pose proof (srtf_final _ Hvalid _ p Hfinal Hend Hp) as Htotal.
    rewrite Hafter, Hpc, total_duration_app in Htotal.
    change (Segment c ?a ?b :: after) with ([Segment c a b] ++ after) in Htotal.
    rewrite total_duration_app in Htotal.
    unfold total_duration at 2 in Htotal. rewrite filter_cons in Htotal.
    simpl in Htotal. rewrite decide_True in Htotal by done.
    rewrite filter_nil in Htotal. unfold duration in Htotal. simpl in Htotal.
    pose proof (srtf_inv_sum _ _ Hinv p Hp) as Hsum.
    rewrite Hpc, Hc, decide_True, Htime' in Hsum by done.
    pose proof (srtf_inv_incomplete _ _ Hinv p Hp Hpn) as Hrem.
    pose proof (total_duration_nonneg c (srtf_timeline st)
                  (λ s Hs, srtf_inv_durations _ _ _ Hinv Hs)) as Hnn.
    rewrite Hpc in Hrem. lia.
  - split; [|done].
    intros q (Hq & Hqa & Hqc).
    pose proof (srtf_next_proc_None _ _ _ Hnext Hq Hqc). lia.
Qed.

Lemma question2_processes_valid : valid_processes question2_processes.
Proof.
  split; [done|]. split.
  - apply (bool_decide_unpack _). by vm_compute.
  - repeat constructor; simpl; lia.
Qed.

Lemma question2_processes_not_idle : Idle ∉ pid <$> question2_processes.
Proof. apply (bool_decide_unpack _). by vm_compute. Qed.

Lemma srtf_runs_shortest_remaining_witness :
  valid_processes question2_processes ∧ (Idle ∉ pid <$> question2_processes) ∧
  ∃ timeline,
    sjf_preemptive_schedule question2_processes = Returned timeline ∧
    total_duration "P1" timeline = 5.
Proof.
  split; [exact question2_processes_valid|].
  split; [exact question2_processes_not_idle|].
  destruct (srtf_runs_shortest_remaining question2_processes
              question2_processes_valid question2_processes_not_idle)
    as (timeline & Hret & Htotal & _).
  exists timeline. split; [done|].
  apply (Htotal (Process "P1" 0 5)). by left.
Defined.

(** ** Shortest job first, non-preemptive *)

Lemma filter_sublist_mono {A} (P : A → Prop) `{!∀ x, Decision (P x)} (l1 l2 : list A) :
  l1 `sublist_of` l2 → filter P l1 `sublist_of` filter P l2.
Proof.
  induction 1 as [|x l1 l2 _ IH|x l1 l2 _ IH]; [done|..]; rewrite ?filter_cons.
  - case_decide; [by constructor|done].
  - case_decide; [by constructor|done].
Qed.

Lemma filter_all {A} (P : A → Prop) `{!∀ x, Decision (P x)} (l : list A) :
  (∀ x, x ∈ l → P x) → filter P l = l.
Proof.
  induction l as [|a l IH]; intros Hl; [done|].
  rewrite filter_cons, decide_True by (apply Hl; left).
  f_equal. apply IH. intros x Hx. apply Hl. by right.
Qed.

Lemma filter_none {A} (P : A → Prop) `{!∀ x, Decision (P x)} (l : list A) :
  (∀ x, x ∈ l → ¬ P x) → filter P l = [].
Proof.
  induction l as [|a l IH]; intros Hl; [done|].
  rewrite filter_cons, decide_False by (apply Hl; left).
  apply IH. intros x Hx. apply Hl. by right.
Qed.

Lemma filter_ext_in {A} (P1 P2 : A → Prop)
    `{!∀ x, Decision (P1 x), !∀ x, Decision (P2 x)} (l : list A) :
  (∀ x, x ∈ l → P1 x ↔ P2 x) → filter P1 l = filter P2 l.
Proof.
  induction l as [|a l IH]; intros Hl; [done|].
  rewrite !filter_cons. rewrite IH by (intros x Hx; apply Hl; by right).
  destruct (decide (P1 a)) as [H1|H1].
  - rewrite decide_True; [done|]. apply Hl; [left|done].
  - rewrite decide_False; [done|]. intros H2. apply H1, Hl; [left|done].
Qed.

(** A list sorted by a key splits at any threshold. *)
Lemma Sorted_split {A} (key : A → Z) (t : Z) (l : list A) :
  Sorted (λ a b, key a ≤ key b) l →
  l = filter (λ a, key a ≤ t) l ++ filter (λ a, ¬ key a ≤ t) l.
Proof.
  induction l as [|a l IH]; intros Hs; [done|].
  apply Sorted_StronglySorted in Hs; [|intros x y z ??; lia].
  apply StronglySorted_inv in Hs as [Hs Hall].
  rewrite !filter_cons. destruct (decide (key a ≤ t)) as [Hle|Hgt].
  - rewrite decide_False by tauto. simpl. f_equal.
    apply IH. by apply StronglySorted_Sorted.
  - rewrite decide_True by done.
    rewrite (filter_none (λ a, key a ≤ t) l), (filter_all (λ a, ¬ key a ≤ t) l); [done|..].
    + intros x Hx. eapply Forall_forall in Hall; [|done]. lia.
    + intros x Hx. eapply Forall_forall in Hall; [|done]. lia.
Qed.

Section SortHead.
Context {A : Type} (key : A → Z).

(** The head of a stable sort is the first element of least key. *)
Lemma sorted_by_head l c rest :
  sorted_by key l = c :: rest →
  ∃ l1 l2, l = l1 ++ c :: l2 ∧ (∀ q, q ∈ l1 → key c < key q)
                            ∧ (∀ q, q ∈ l2 → key c ≤ key q).
Proof.
  revert c rest. induction l as [|a l IH]; intros c rest; simpl; [done|].
  destruct (sorted_by key l) as [|y r] eqn:Hsl; simpl.
  - intros [= <- <-].
    assert (l = []) as ->.
    { apply length_zero_iff_nil. by rewrite <- (length_sorted_by key), Hsl. }
    exists [], []. split; [done|]. split; by intros q ?%elem_of_nil.
  - destruct (IH y r eq_refl) as (l1 & l2 & -> & H1 & H2).
    case_decide as Hay; intros [= <- <-].
    + exists [], (l1 ++ y :: l2). split; [done|].
      split; [by intros q ?%elem_of_nil|].
      intros q [Hq|[->|Hq]%elem_of_cons]%elem_of_app.
      * specialize (H1 q Hq). lia.
      * done.
      * specialize (H2 q Hq). lia.
    + exists (a :: l1), l2. split; [done|]. split; [|done].
      intros q [->|Hq]%elem_of_cons; [lia|by apply H1].
Qed.
End SortHead.

Lemma list_min_None l : list_min l = None ↔ l = [].
Proof. by destruct l. Qed.

Lemma list_min_Some l m :
  list_min l = Some m → m ∈ l ∧ ∀ x, x ∈ l → m ≤ x.
Proof.
  revert m. induction l as [|a l IH]; intros m; simpl; [done|].
  destruct (list_min l) as [y|] eqn:Hy; intros [= <-].
  - destruct (IH y eq_refl) as [Hin Hle]. split.
    + destruct (Z.min_spec a y) as [[_ ->]|[_ ->]]; [left|by right].
    + intros x [->|Hx]%elem_of_cons; [lia|]. specialize (Hle x Hx). lia.
  - apply list_min_None in Hy as ->. split; [left|].
    intros x ->%list_elem_of_singleton. lia.
Qed.

Lemma no_adjacent_snoc timeline s :
  no_adjacent_same_owner (timeline ++ [s]) ↔
  no_adjacent_same_owner timeline ∧
  (∀ s', last timeline = Some s' → seg_id s' ≠ seg_id s).
Proof.
  induction timeline as [|a [|b l] IH]; simpl in *.
  - split; [|done]. intros _. split; [done|]. by intros s' [=].
  - split.
    + intros [Hne _]. split; [done|]. by intros ? [= <-].
    + intros [_ Hne]. split; [by apply Hne|done].
  - rewrite IH. split.
    + intros (Hab & Hadj & Hlast). done.
    + intros ((Hab & Hadj) & Hlast). done.
Qed.

(** The admission loop appends, in the order of [processes_sorted], the
    arrived incomplete processes that are not yet in the queue. *)
Lemma sjf_admit_foldl completed t (ps rq : list process) :
  NoDup ps →
  foldl (sjf_admit completed t) rq ps
  = rq ++ filter (λ p, ((pid p ∉ completed) ∧ arrival p ≤ t) ∧ p ∉ rq) ps.
Proof.
  revert rq. induction ps as [|a ps IH]; intros rq Hnd; simpl.
  - by rewrite app_nil_r.
  - apply NoDup_cons in Hnd as [Ha Hnd]. rewrite filter_cons.
    destruct (decide (((pid a ∉ completed) ∧ arrival a ≤ t) ∧ a ∉ rq)) as [[Hadm Hin]|Hno].
    + assert (sjf_admit completed t rq a = rq ++ [a]) as ->.
      { unfold sjf_admit. by rewrite decide_True, decide_False by done. }
      rewrite IH by done. rewrite <- (assoc_L (++)). simpl. do 2 f_equal.
      apply filter_ext_in. intros p Hp.
      rewrite not_elem_of_app, not_elem_of_cons.
      split; [tauto|]. intros ([? ?] & ?). repeat split; [done..| |].
      * by intros ->.
      * by intros ?%elem_of_nil.
    + assert (sjf_admit completed t rq a = rq) as ->.
      { unfold sjf_admit. destruct (decide _) as [Hadm|]; [|done].
        destruct (decide (a ∈ rq)); [done|]. exfalso. by apply Hno. }
      by apply IH.
Qed.

Lemma filter_id_snoc_ne (timeline : list segment) (s : segment) (owner : string) :
  seg_id s ≠ owner →
  filter (λ x, seg_id x = owner) (timeline ++ [s])
  = filter (λ x, seg_id x = owner) timeline.
Proof.
  intros Hne. rewrite filter_app, filter_cons, decide_False by done.
  by rewrite filter_nil, app_nil_r.
Qed.

Lemma filter_id_snoc_eq (timeline : list segment) (s : segment) (owner : string) :
  seg_id s = owner →
  filter (λ x, seg_id x = owner) (timeline ++ [s])
  = filter (λ x, seg_id x = owner) timeline ++ [s].
Proof.
  intros Heq. rewrite filter_app, filter_cons, decide_True by done.
  by rewrite filter_nil.
Qed.

Section SjfFacts.
Context (processes : list process).
Hypothesis Hvalid : valid_processes processes.
Hypothesis Hidle : Idle ∉ pid <$> processes.

Local Abbreviation processes_sorted := (sorted_by arrival processes).

Lemma processes_NoDup : NoDup processes.
Proof. destruct Hvalid as (_ & Hnd & _). by eapply NoDup_fmap_1. Qed.

Lemma processes_sorted_NoDup : NoDup processes_sorted.
Proof. rewrite sorted_by_Permutation. apply processes_NoDup. Qed.

Lemma pid_not_idle p : p ∈ processes → pid p ≠ Idle.
Proof. intros Hp Heq. apply Hidle. rewrite <- Heq. by apply list_elem_of_fmap_2. Qed.

Lemma sjf_ready_eq st :
  sjf_ready processes_sorted st
  = sjf_ready_queue st
    ++ filter (λ p, ((pid p ∉ sjf_completed st) ∧ arrival p ≤ sjf_current_time st)
                    ∧ p ∉ sjf_ready_queue st) processes_sorted.
Proof. unfold sjf_ready. apply sjf_admit_foldl, processes_sorted_NoDup. Qed.

(** After admission the ready queue holds exactly the arrived, incomplete
    processes. *)
Lemma sjf_ready_elem st p :
  sjf_inv processes st →
  p ∈ sjf_ready processes_sorted st ↔
  p ∈ processes ∧ arrival p ≤ sjf_current_time st ∧ pid p ∉ sjf_completed st.
Proof.
  intros Hinv. rewrite sjf_ready_eq, elem_of_app, list_elem_of_filter, elem_of_sorted_by.
  destruct (sjf_inv_admitted _ _ Hinv) as (t0 & Ht0 & Hrq & _).
  split.
  - intros [Hp|[[[Hc Ha] Hn] Hp]]; [|done].
    destruct (sjf_inv_ready _ _ Hinv p Hp) as [Hin Hc].
    specialize (Hrq p Hp). repeat split; [done|lia|done].
  - intros (Hp & Ha & Hc).
    destruct (decide (p ∈ sjf_ready_queue st)); [by left|by right].
Qed.

Lemma sjf_ready_NoDup st :
  sjf_inv processes st → NoDup (sjf_ready processes_sorted st).
Proof.
  intros Hinv. rewrite sjf_ready_eq. apply NoDup_app.
  split; [apply Hinv|]. split.
  - intros p Hp [[_ Hn] _]%list_elem_of_filter. done.
  - apply NoDup_filter, processes_sorted_NoDup.
Qed.

Lemma sjf_ready_order st k :
  sjf_inv processes st →
  filter (λ p, burst p = k) (sjf_ready processes_sorted st)
    `sublist_of` processes_sorted.
Proof.
  intros Hinv. rewrite sjf_ready_eq, filter_app.
  destruct (sjf_inv_admitted _ _ Hinv) as (t0 & Ht0 & Hrq & Hall).
  rewrite (Sorted_split arrival t0 processes_sorted) at 2 by apply sorted_by_Sorted.
  apply sublist_app.
  - rewrite <- (filter_all (λ a, arrival a ≤ t0)
                 (filter (λ p, burst p = k) (sjf_ready_queue st))).
    + apply filter_sublist_mono, Hinv.
    + intros p [_ Hp]%list_elem_of_filter. by apply Hrq.
  - set (new := filter _ processes_sorted).
    rewrite <- (filter_all (λ a, ¬ arrival a ≤ t0) (filter (λ p, burst p = k) new)).
    + apply filter_sublist_mono. etrans; apply sublist_filter.
    + intros p [_ [[[Hc Ha] Hn] Hp]%list_elem_of_filter]%list_elem_of_filter Hle.
      apply Hn, Hall; [by apply elem_of_sorted_by in Hp|done..].
Qed.

Lemma sjf_init_inv : sjf_inv processes sjf_init.
Proof.
  destruct Hvalid as (_ & Hnd & Hpos).
  split; simpl.
  - exists (-1). split; [lia|]. split; [by intros p ?%elem_of_nil|].
    intros p Hp Ha. eapply Forall_forall in Hpos; [|done]. lia.
  - by intros p ?%elem_of_nil.
  - constructor.
  - intros k. apply sublist_nil_l.
  - done.
  - intros p _ ?. done.
  - done.
  - by intros s [=].
  - done.
Qed.
Lemma sjf_body_idle_eq st m :
  sjf_ready processes_sorted st = [] →
  list_min (arrival <$> filter (λ p, pid p ∉ sjf_completed st) processes_sorted)
  = Some m →
  sjf_body processes_sorted st
  = Returned (SjfState (sjf_timeline st ++ [Segment Idle (sjf_current_time st) m])
                [] m (sjf_completed st)).
Proof. intros Hr Hm. unfold sjf_body. by rewrite Hr, Hm. Qed.

Lemma sjf_body_run_eq st c rest :
  sorted_by burst (sjf_ready processes_sorted st) = c :: rest →
  sjf_body processes_sorted st
  = Returned (SjfState
      (sjf_timeline st
       ++ [Segment (pid c) (sjf_current_time st) (sjf_current_time st + burst c)])
      rest (sjf_current_time st + burst c) ({[pid c]} ∪ sjf_completed st)).
Proof.
  intros Hs. unfold sjf_body. rewrite Hs.
  destruct (sjf_ready processes_sorted st) eqn:Hr; [done|done].
Qed.

(** The process at the head of the sorted ready queue is preferred to every
    other ready process. *)
Lemma sjf_head_preferred st c rest q :
  sjf_inv processes st →
  sorted_by burst (sjf_ready processes_sorted st) = c :: rest →
  q ∈ sjf_ready processes_sorted st →
  sjf_prefers processes c q.
Proof.
  intros Hinv Hs Hq.
  destruct (sorted_by_head burst _ _ _ Hs) as (l1 & l2 & Hl & H1 & H2).
  unfold sjf_prefers.
  destruct (decide (burst c < burst q)) as [|Hnlt]; [by left|right].
  rewrite Hl in Hq.
  assert (q = c ∨ (burst q = burst c ∧ q ∈ l2)) as [->|[Hb Hq2]].
  { apply elem_of_app in Hq as [Hq|[->|Hq]%elem_of_cons].
    - specialize (H1 q Hq). lia.
    - by left.
    - specialize (H2 q Hq). right. split; [lia|done]. }
  { split; [done|]. right. split; [done|]. by left. }
  split; [done|].
  (* [c] comes before [q] in [processes_sorted] *)
  assert ([c; q] `sublist_of` processes_sorted) as Hcq.
  { etrans; [|apply (sjf_ready_order st (burst c) Hinv)].
    rewrite Hl, filter_app, filter_cons, decide_True by done.
    apply sublist_inserts_l. constructor.
    apply list_elem_of_split in Hq2 as (m1 & m2 & ->).
    rewrite filter_app, filter_cons, decide_True by done.
    apply sublist_inserts_l. constructor. apply sublist_nil_l. }
  assert (arrival c ≤ arrival q) as Hle.
  { pose proof (sorted_by_Sorted arrival processes) as Hsorted.
    apply Sorted_StronglySorted in Hsorted; [|intros x y z ??; lia].
    assert (StronglySorted (λ a b, arrival a ≤ arrival b) [c; q]) as Hss.
    { clear -Hcq Hsorted. revert Hcq Hsorted. generalize processes_sorted.
      intros l Hcq Hss. induction Hss as [|a l Hss IH Hall].
      - by apply sublist_nil_r in Hcq.
      - apply sublist_cons_r in Hcq as [Hcq|(l' & [= <- <-] & Hcq)]; [by apply IH|].
        constructor; [repeat constructor|]. constructor; [|done].
        eapply Forall_forall in Hall; [done|].
        eapply elem_of_sublist; [|done]. left. }
    apply StronglySorted_inv in Hss as [_ Hall].
    by apply Forall_cons in Hall as [? _]. }
  destruct (decide (arrival c < arrival q)) as [|Hnlt']; [by left|right].
  assert (arrival c = arrival q) as Ha by lia. split; [done|]. right.
  etrans; [|apply (sublist_filter (λ a, arrival a = arrival c))].
  rewrite <- (sorted_by_filter arrival).
  rewrite <- (filter_all (λ a, arrival a = arrival c) [c; q]).
  - by apply filter_sublist_mono.
  - intros x [->|Hx%list_elem_of_singleton]%elem_of_cons; [done|by subst].
Qed.
Lemma sjf_measure_ready st p :
  p ∈ processes → pid p ∉ sjf_completed st → arrival p ≤ sjf_current_time st →
  sjf_measure processes st
  = (2 * (length processes - size (sjf_completed st)) - 1)%nat.
Proof.
  intros Hp Hc Ha. unfold sjf_measure. rewrite decide_True; [done|].
  apply Exists_exists. by exists p.
Qed.

Lemma sjf_measure_le st :
  (2 * (length processes - size (sjf_completed st)) - 1
   ≤ sjf_measure processes st
   ≤ 2 * (length processes - size (sjf_completed st)))%nat.
Proof. unfold sjf_measure. case_decide; lia. Qed.

Lemma sjf_size_completed st :
  sjf_inv processes st → (size (sjf_completed st) ≤ length processes)%nat.
Proof.
  destruct Hvalid as (_ & Hnd & _). intros Hinv.
  rewrite <- (length_fmap pid), <- (size_list_to_set (C := gset string)) by done.
  apply subseteq_size, Hinv.
Qed.

(** A turn of the loop returns, keeps the invariant and makes progress. *)
Lemma sjf_body_inv st :
  sjf_inv processes st → sjf_cond processes st = true →
  ∃ st', sjf_body processes_sorted st = Returned st' ∧ sjf_inv processes st'
         ∧ (sjf_measure processes st' < sjf_measure processes st)%nat.
Proof.
  destruct Hvalid as (_ & Hnd & Hpos).
  intros Hinv Hcond. apply bool_decide_eq_true in Hcond.
  pose proof (sjf_ready_elem st) as Hready.
  specialize (λ p, Hready p Hinv).
  destruct (sorted_by burst (sjf_ready processes_sorted st)) as [|c rest] eqn:Hs.
  - (* nothing is ready: idle until the next arrival *)
    assert (sjf_ready processes_sorted st = []) as Hr.
    { apply length_zero_iff_nil. by rewrite <- (length_sorted_by burst), Hs. }
    destruct (incomplete_exists _ _ Hnd (sjf_inv_subset _ _ Hinv) Hcond)
      as (p0 & Hp0 & Hp0c).
    destruct (list_min (arrival <$> filter (λ p, pid p ∉ sjf_completed st)
                                      processes_sorted)) as [m|] eqn:Hm.
    2:{ apply list_min_None, fmap_nil_inv in Hm.
        exfalso. eapply (filter_nil_not_elem_of _ _ p0); [exact Hm|exact Hp0c|].
        by apply elem_of_sorted_by. }
    apply list_min_Some in Hm as Hmin. destruct Hmin as [Hmin Hle].
    apply list_elem_of_fmap in Hmin as (pm & -> & [Hpmc Hpm]%list_elem_of_filter).
    apply elem_of_sorted_by in Hpm.
    assert (∀ p, p ∈ processes → pid p ∉ sjf_completed st →
                 sjf_current_time st < arrival p) as Hlater.
    { intros p Hp Hc. destruct (decide (arrival p ≤ sjf_current_time st)); [|lia].
      exfalso. eapply elem_of_nil. rewrite <- Hr. by apply Hready. }
    eexists. split; [by apply sjf_body_idle_eq|].
    split; [split; simpl|].
    + exists (sjf_current_time st). split; [specialize (Hlater pm Hpm Hpmc); lia|].
      split; [by intros p ?%elem_of_nil|].
      intros p Hp Ha Hc. specialize (Hlater p Hp Hc). lia.
    + by intros p ?%elem_of_nil.
    + constructor.
    + intros k. apply sublist_nil_l.
    + apply Hinv.
    + intros p Hp Hc. destruct (sjf_inv_done _ _ Hinv p Hp Hc) as (s & Hs1 & Hs2).
      exists s. split; [done|]. rewrite filter_id_snoc_ne; [done|].
      simpl. intros Heq. by eapply pid_not_idle.
    + intros p Hp Hc. rewrite filter_id_snoc_ne; [by apply Hinv|].
      simpl. intros Heq. by eapply pid_not_idle.
    + intros s. rewrite last_snoc. intros [= <-]. left. split; [done|].
      exists pm. repeat split; [done..|lia].
    + apply no_adjacent_snoc. split; [apply Hinv|].
      intros s' Hs'. simpl.
      destruct (sjf_inv_last _ _ Hinv s' Hs') as [[_ (p & Hp & Hc & Ha)]|Hc].
      * specialize (Hlater p Hp Hc). lia.
      * apply (sjf_inv_subset _ _ Hinv) in Hc.
        apply elem_of_list_to_set, list_elem_of_fmap in Hc as (p & -> & Hp).
        by apply pid_not_idle.
    + rewrite (sjf_measure_ready _ pm); [| done | done | simpl; lia].
      simpl. unfold sjf_measure. rewrite decide_False; [lia|].
      intros (p & Hp & Hc & Ha)%Exists_exists.
      specialize (Hlater p Hp Hc). lia.
  - (* the shortest ready process runs to completion *)
    assert (c :: rest ≡ₚ sjf_ready processes_sorted st) as Hperm.
    { rewrite <- Hs. apply sorted_by_Permutation. }
    assert (NoDup (c :: rest)) as [Hcrest Hndrest]%NoDup_cons.
    { rewrite Hperm. by apply sjf_ready_NoDup. }
    assert (c ∈ sjf_ready processes_sorted st) as Hc.
    { rewrite <- Hperm. left. }
    apply Hready in Hc as (Hcin & Hca & Hcc).
    assert (∀ p, p ∈ rest → p ∈ processes ∧ arrival p ≤ sjf_current_time st
                             ∧ (pid p ∉ sjf_completed st) ∧ pid p ≠ pid c) as Hrest.
    { intros p Hp.
      assert (p ∈ sjf_ready processes_sorted st) as Hpr by (rewrite <- Hperm; by right).
      apply Hready in Hpr as (Hpin & Hpa & Hpc). repeat split; [done..|].
      intros Heq. apply (pid_inj processes) in Heq; [|done..]. by subst. }
    assert (0 < burst c) as Hbc.
    { eapply Forall_forall in Hpos; [|exact Hcin]. lia. }
    eexists. split; [by apply sjf_body_run_eq|].
    split; [split; simpl|].
    + exists (sjf_current_time st). split; [lia|].
      split; [intros p Hp; by apply Hrest|].
      intros p Hp Ha Hpc.
      apply not_elem_of_union in Hpc as [Hne%not_elem_of_singleton Hpc].
      assert (p ∈ c :: rest) as [->|Hpr]%elem_of_cons; [|done..].
      rewrite Hperm. by apply Hready.
    + intros p Hp. destruct (Hrest p Hp) as (Hpin & _ & Hpc & Hne).
      split; [done|]. rewrite not_elem_of_union, not_elem_of_singleton. done.
    + done.
    + intros k. etrans; [|apply (sjf_ready_order st k Hinv)].
      rewrite <- (sorted_by_filter burst k (sjf_ready _ _)), Hs.
      rewrite filter_cons. case_decide; [by constructor|done].
    + apply union_subseteq. split; [|apply Hinv].
      apply singleton_subseteq_l, elem_of_list_to_set.
      by apply list_elem_of_fmap_2.
    + intros p Hp Hpc. destruct (decide (pid p = pid c)) as [Heq|Hne].
      * apply (pid_inj processes) in Heq as ->; [|done..].
        exists (sjf_current_time st). split; [done|].
        rewrite filter_id_snoc_eq by done.
        by rewrite (sjf_inv_todo _ _ Hinv c).
      * apply elem_of_union in Hpc as [Hpc%elem_of_singleton|Hpc]; [done|].
        destruct (sjf_inv_done _ _ Hinv p Hp Hpc) as (s & Hs1 & Hs2).
        exists s. split; [done|]. rewrite filter_id_snoc_ne; [done|].
        simpl. congruence.
    + intros p Hp Hpc.
      apply not_elem_of_union in Hpc as [Hne%not_elem_of_singleton Hpc].
      rewrite filter_id_snoc_ne; [by apply Hinv|]. simpl. congruence.
    + intros s. rewrite last_snoc. intros [= <-]. right. simpl.
      apply elem_of_union_l. by apply elem_of_singleton.
    + apply no_adjacent_snoc. split; [apply Hinv|].
      intros s' Hs'. simpl.
      destruct (sjf_inv_last _ _ Hinv s' Hs') as [[-> _]|Hc].
      * apply not_eq_sym. by apply pid_not_idle.
      * intros Heq. by rewrite Heq in Hc.
    + pose proof (sjf_measure_ready st c Hcin Hcc Hca) as Hm.
      pose proof (sjf_size_completed st Hinv).
      rewrite Hm.
      match goal with |- (sjf_measure _ ?s < _)%nat =>
        pose proof (sjf_measure_le s) as Hle end.
      simpl in Hle.
      rewrite size_union in Hle by (by apply disjoint_singleton_l).
      rewrite size_singleton in Hle. lia.
Qed.
Lemma sjf_returns :
  ∃ st, while (sjf_cond processes) (sjf_body processes_sorted)
          (2 * length processes) sjf_init = Returned st
        ∧ sjf_inv processes st ∧ sjf_cond processes st = false.
Proof.
  apply (while_returns _ _ (sjf_inv processes) (sjf_measure processes)).
  - intros s Hs Hc. by apply sjf_body_inv.
  - apply sjf_init_inv.
  - pose proof (sjf_measure_le sjf_init). simpl in *. lia.
Qed.

Lemma sjf_turns_inv k st :
  turns (sjf_cond processes) (sjf_body processes_sorted) k sjf_init st →
  sjf_inv processes st.
Proof.
  apply turns_invariant; [|by apply sjf_init_inv].
  intros s s' Hs Hc Hb.
  destruct (sjf_body_inv s Hs Hc) as (s'' & Hb' & Hinv & _). congruence.
Qed.

Lemma sjf_body_prefix st st' :
  sjf_body processes_sorted st = Returned st' →
  sjf_timeline st `prefix_of` sjf_timeline st'.
Proof.
  unfold sjf_body. destruct (sjf_ready processes_sorted st) eqn:Hr.
  - destruct (list_min _); [|done]. intros [= <-]. simpl. by apply prefix_app_r.
  - destruct (sorted_by burst _); [done|]. intros [= <-]. simpl. by apply prefix_app_r.
Qed.

Lemma sjf_turns_prefix k a b :
  turns (sjf_cond processes) (sjf_body processes_sorted) k a b →
  sjf_timeline a `prefix_of` sjf_timeline b.
Proof.
  induction 1 as [|k s s' s'' Hc Hb _ IH]; [done|].
  etrans; [by apply sjf_body_prefix|done].
Qed.

Lemma sjf_final st p :
  sjf_inv processes st → sjf_cond processes st = false → p ∈ processes →
  ∃ s, arrival p ≤ s ∧
       filter (λ x, seg_id x = pid p) (sjf_timeline st)
       = [Segment (pid p) s (s + burst p)].
Proof.
  destruct Hvalid as (_ & Hnd & _).
  intros Hinv Hcond%bool_decide_eq_false Hp.
  apply Hinv; [done|].
  by apply (all_completed processes _ p Hnd (sjf_inv_subset _ _ Hinv)).
Qed.
End SjfFacts.

(** ** Owners of neighbouring segments *)

Lemma close_segment_adjacent timeline current start time completed c :
  adjacent_inv timeline current completed →
  (∀ s, last timeline = Some s → seg_id s ∈ completed → seg_id s ≠ c) →
  current ≠ Some c →
  adjacent_inv (close_segment timeline current start time) (Some c) completed.
Proof.
  intros [Hadj Hlast] Hc Hne. destruct current as [c'|]; unfold close_segment.
  - split.
    + apply no_adjacent_snoc. split; [done|]. intros s Hs. by apply Hlast.
    + intros s. rewrite last_snoc. intros [= <-]. simpl. congruence.
  - split; [done|]. intros s Hs. apply Hc; [done|]. by apply Hlast.
Qed.

Lemma switch_adjacent timeline current start time c tl0 cur0 st0 completed :
  (if decide (current ≠ Some c)
   then (close_segment timeline current start time, Some c, time)
   else (timeline, current, start)) = (tl0, cur0, st0) →
  adjacent_inv timeline current completed →
  (∀ s, last timeline = Some s → seg_id s ∈ completed → seg_id s ≠ c) →
  adjacent_inv tl0 (Some c) completed.
Proof.
  intros Hsw Hadj Hc. case_decide as Hne; simplify_eq; [|done].
  by apply close_segment_adjacent.
Qed.

Section SrtfAdjacent.
Context (processes : list process).
Hypothesis Hvalid : valid_processes processes.
Hypothesis Hidle : Idle ∉ pid <$> processes.

Local Abbreviation processes_sorted := (sorted_by arrival processes).
Local Abbreviation n := (length processes).

Lemma srtf_body_adjacent st :
  srtf_inv processes st → srtf_adjacent st →
  srtf_adjacent (srtf_body processes_sorted st).
Proof.
  intros Hinv Hadj.
  pose proof (srtf_inv_subset _ _ Hinv) as Hsub.
  destruct st as [remaining time timeline current segment_start completed].
  unfold srtf_adjacent in *. simpl in *. unfold srtf_body.
  destruct (srtf_next_proc _ _) as [next|] eqn:Hnext; simpl.
  - apply srtf_next_proc_Some in Hnext as (Hin & Harr & Hnc & Hmin). simpl in *.
    remember (if decide (current ≠ Some (pid next))
              then (close_segment timeline current segment_start time,
                    Some (pid next), time)
              else (timeline, current, segment_start)) as sw eqn:Hsw.
    destruct sw as [[tl0 cur0] st0]. symmetry in Hsw.
    assert (cur0 = Some (pid next)) as ->.
    { clear -Hsw. case_decide as Hne; simplify_eq; done. }
    apply (switch_adjacent _ _ _ _ _ _ _ _ completed) in Hsw as [Hadj0 Hlast0];
      [|done|].
    2:{ intros s _ Hs Heq. by rewrite Heq in Hs. }
    destruct (decide (_ !!! _ = 0)); simpl; [|done].
    unfold close_segment. split.
    + apply no_adjacent_snoc. split; [done|]. intros s Hs. by apply Hlast0.
    + intros s. rewrite last_snoc. intros [= <-]. simpl.
      apply elem_of_union_l. by apply elem_of_singleton.
  - case_decide as Hsw; simpl; [|done].
    apply close_segment_adjacent; [done| |done].
    intros s _ Hs Heq. apply Hidle. rewrite <- Heq.
    apply Hsub in Hs. by apply elem_of_list_to_set in Hs.
Qed.

Lemma srtf_turns_adjacent k st :
  turns (srtf_cond n) (srtf_turn processes_sorted) k (srtf_init processes) st →
  srtf_adjacent st.
Proof.
  intros Hturns.
  assert (srtf_inv processes st ∧ srtf_adjacent st) as [_ ?]; [|done].
  revert Hturns.
  apply (turns_invariant _ _ (λ s, srtf_inv processes s ∧ srtf_adjacent s)).
  - intros s s' [Hinv Hadj] Hc [= <-].
    split; [by apply srtf_body_inv|by apply srtf_body_adjacent].
  - split; [by apply srtf_init_inv|]. split; [done|]. by intros s [=].
Qed.
End SrtfAdjacent.

(** ** First come, first served *)

Lemma fcfs_step_prefix st p : st.2 `prefix_of` (fcfs_step st p).2.
Proof.
  destruct st as [t tl]. unfold fcfs_step. case_decide; simpl.
  - rewrite <- (assoc_L (++)). by apply prefix_app_r.
  - by apply prefix_app_r.
Qed.

Lemma fcfs_foldl_prefix l st : st.2 `prefix_of` (foldl fcfs_step st l).2.
Proof.
  revert st. induction l as [|a l IH]; intros st; simpl; [done|].
  etrans; [apply fcfs_step_prefix|apply IH].
Qed.

(** Every process of the list gets a segment of the length of its burst,
    whatever its fields hold. *)
Lemma fcfs_foldl_segments l st p :
  p ∈ l → ∃ s, Segment (pid p) s (s + burst p) ∈ (foldl fcfs_step st l).2.
Proof.
  revert st. induction l as [|a l IH]; intros st Hp; simpl.
  - by apply elem_of_nil in Hp.
  - apply elem_of_cons in Hp as [->|Hp]; [|by apply IH].
    destruct st as [t tl].
    assert (∃ s, Segment (pid a) s (s + burst a) ∈ (fcfs_step (t, tl) a).2)
      as (s & Hs).
    { unfold fcfs_step. case_decide; simpl; eexists; apply elem_of_app; right; left. }
    exists s. destruct (fcfs_foldl_prefix l (fcfs_step (t, tl) a)) as [more ->].
    apply elem_of_app. by left.
Qed.

Lemma fcfs_foldl_adjacent l seen t tl :
  NoDup (pid <$> (seen ++ l)) → Idle ∉ pid <$> (seen ++ l) →
  no_adjacent_same_owner tl →
  (∀ s, last tl = Some s → seg_id s ∈ pid <$> seen) →
  no_adjacent_same_owner (foldl fcfs_step (t, tl) l).2.
Proof.
  revert seen t tl. induction l as [|a l IH]; intros seen t tl Hnd Hidle Hadj Hlast;
    simpl; [done|].
  assert (pid a ∉ pid <$> seen) as Hfresh.
  { rewrite fmap_app, fmap_cons in Hnd. apply NoDup_app in Hnd as (_ & Hnd & _).
    intros Hin. apply (Hnd _ Hin). left. }
  assert (pid a ≠ Idle) as Hai.
  { intros Heq. apply Hidle. rewrite <- Heq, fmap_app, fmap_cons.
    apply elem_of_app. right. left. }
  replace (seen ++ a :: l) with ((seen ++ [a]) ++ l) in *
    by (by rewrite <- (assoc_L (++))).
  unfold fcfs_step. case_decide; apply (IH (seen ++ [a])); try done.
  - apply no_adjacent_snoc. split.
    + apply no_adjacent_snoc. split; [done|]. intros s Hs. simpl.
      intros Heq. apply Hidle. rewrite <- Heq, !fmap_app.
      apply elem_of_app. left. apply elem_of_app. left. by apply Hlast.
    + intros s. rewrite last_snoc. intros [= <-]. simpl. by apply not_eq_sym.
  - intros s. rewrite last_snoc. intros [= <-]. simpl.
    rewrite fmap_app. apply elem_of_app. right. left.
  - apply no_adjacent_snoc. split; [done|]. intros s Hs. simpl.
    intros Heq. apply Hfresh. rewrite <- Heq. by apply Hlast.
  - intros s. rewrite last_snoc. intros [= <-]. simpl.
    rewrite fmap_app. apply elem_of_app. right. left.
Qed.

Lemma fcfs_adjacent (processes : list process) :
  NoDup (pid <$> processes) → Idle ∉ pid <$> processes →
  no_adjacent_same_owner (fcfs_schedule processes).
Proof.
  intros Hnd Hidle. unfold fcfs_schedule.
  apply (fcfs_foldl_adjacent _ []); simpl.
  - by rewrite sorted_by_Permutation.
  - by rewrite sorted_by_Permutation.
  - done.
  - by intros s [=].
Qed.

(** ** Round robin on one processor *)

(** On a list sorted by arrival the admission loop takes the processes that
    have arrived by [current_time]. *)
Lemma rr_admit_spec pending current_time ready_queue i :
  Sorted (λ a b, arrival a ≤ arrival b) pending →
  rr_admit pending current_time ready_queue i
  = (ready_queue ++ filter (λ p, arrival p ≤ current_time) pending,
     (i + length (filter (λ p, (arrival p ≤ current_time)%Z) pending))%nat).
Proof.
  revert ready_queue i. induction pending as [|a l IH]; intros rq i Hs; simpl.
  - by rewrite app_nil_r, Nat.add_0_r.
  - apply Sorted_StronglySorted in Hs; [|intros x y z ??; lia].
    apply StronglySorted_inv in Hs as [Hs Hall].
    rewrite filter_cons. case_decide as Ha.
    + rewrite IH by by apply StronglySorted_Sorted.
      rewrite <- (assoc_L (++)). simpl. f_equal. lia.
    + rewrite filter_none.
      * by rewrite app_nil_r, Nat.add_0_r.
      * intros x Hx. eapply Forall_forall in Hall; [|done]. lia.
Qed.

Lemma Sorted_drop_filter (l : list process) (t : Z) :
  Sorted (λ a b, arrival a ≤ arrival b) l →
  drop (length (filter (λ p, arrival p ≤ t) l)) l = filter (λ p, ¬ arrival p ≤ t) l.
Proof.
  intros Hs. rewrite (Sorted_split arrival t l) at 2 by done.
  by rewrite drop_app_length.
Qed.

Lemma filter_length_split (l : list process) (t t' : Z) :
  t ≤ t' →
  length (filter (λ p, arrival p ≤ t') l)
  = (length (filter (λ p, (arrival p ≤ t)%Z) l)
     + length (filter (λ p, (t < arrival p ≤ t')%Z) l))%nat.
Proof.
  intros Hle. induction l as [|a l IH]; [done|].
  rewrite !filter_cons. repeat case_decide; simpl; lia.
Qed.

Lemma Sorted_filter {A} (R : A → A → Prop) (P : A → Prop) `{!∀ x, Decision (P x)}
    (l : list A) :
  Transitive R → Sorted R l → Sorted R (filter P l).
Proof.
  intros HR Hs. apply Sorted_StronglySorted in Hs; [|done].
  apply StronglySorted_Sorted.
  induction Hs as [|a l Hs IH Hall]; [constructor|].
  rewrite filter_cons. case_decide; [|done]. constructor; [done|].
  apply Forall_forall. intros x [_ Hx]%list_elem_of_filter.
  by eapply Forall_forall in Hall.
Qed.

Lemma sum_positive_burst_ge (ps : list process) :
  0 ≤ sum_positive_burst ps ∧ sum_burst ps ≤ sum_positive_burst ps.
Proof. unfold sum_positive_burst, sum_burst. induction ps; simpl; lia. Qed.

Section RrFacts.
Context (processes : list process) (time_quantum : Z).
Hypothesis Hvalid : valid_processes processes.
Hypothesis Hquantum : 0 < time_quantum.

Local Abbreviation processes_sorted := (sorted_by arrival processes).
Local Abbreviation n := (length processes).

(** Admission from the pointer [i] on, when [i] has passed the processes
    arrived by [t] and the clock has moved to [t']. *)
Lemma rr_admit_from t t' ready_queue :
  t ≤ t' →
  rr_admit (drop (length (filter (λ p, arrival p ≤ t) processes_sorted))
              processes_sorted)
    t' ready_queue (length (filter (λ p, arrival p ≤ t) processes_sorted))
  = (ready_queue ++ arrivals_between processes_sorted t t',
     length (filter (λ p, arrival p ≤ t') processes_sorted)).
Proof.
  intros Hle. pose proof (sorted_by_Sorted arrival processes) as Hsorted.
  rewrite Sorted_drop_filter by done.
  rewrite rr_admit_spec.
  2:{ apply Sorted_filter; [intros x y z ??; lia|done]. }
  rewrite list_filter_filter. unfold arrivals_between.
  rewrite (filter_length_split _ t t') by done.
  do 3 f_equal; apply list_filter_iff; intros x; lia.
Qed.

Lemma rr_inv_i_eq st :
  rr_inv processes st →
  rr_i st = length (filter (λ p, arrival p ≤ rr_current_time st) processes_sorted).
Proof.
  intros Hinv. rewrite <- (rr_inv_admitted _ _ Hinv), length_take.
  pose proof (rr_inv_i _ _ Hinv). rewrite length_sorted_by. lia.
Qed.
Lemma rr_take_filter t :
  take (length (filter (λ p, arrival p ≤ t) processes_sorted)) processes_sorted
  = filter (λ p, arrival p ≤ t) processes_sorted.
Proof.
  rewrite (Sorted_split arrival t processes_sorted) at 2 by apply sorted_by_Sorted.
  by rewrite take_app_length.
Qed.

Lemma arrivals_between_elem t t' p :
  p ∈ arrivals_between processes_sorted t t' ↔
  p ∈ processes ∧ t < arrival p ≤ t'.
Proof.
  unfold arrivals_between. rewrite list_elem_of_filter, elem_of_sorted_by. tauto.
Qed.

Lemma arrivals_between_NoDup t t' : NoDup (arrivals_between processes_sorted t t').
Proof.
  apply NoDup_filter. rewrite sorted_by_Permutation.
  destruct Hvalid as (_ & Hnd & _). by eapply NoDup_fmap_1.
Qed.

(** A dispatch: the head of the queue runs for [min(quantum, remaining)],
    the arrivals of the slice join the queue, then the process itself if
    it is not finished. *)
Lemma rr_body_dispatch st proc rest :
  rr_inv processes st → rr_ready_queue st = proc :: rest →
  rr_body processes_sorted time_quantum st
  = Returned (RrState
      (rr_timeline st
       ++ [Segment (pid proc) (rr_current_time st)
             (rr_current_time st + Z.min time_quantum (rr_remaining st !!! pid proc))])
      (rr_current_time st + Z.min time_quantum (rr_remaining st !!! pid proc))
      (<[pid proc := rr_remaining st !!! pid proc
                     - Z.min time_quantum (rr_remaining st !!! pid proc)]>
         (rr_remaining st))
      (rest
       ++ arrivals_between processes_sorted (rr_current_time st)
            (rr_current_time st + Z.min time_quantum (rr_remaining st !!! pid proc))
       ++ (if decide (0 < rr_remaining st !!! pid proc
                          - Z.min time_quantum (rr_remaining st !!! pid proc))
           then [proc] else []))
      (length (filter (λ p, arrival p ≤ rr_current_time st
                     + Z.min time_quantum (rr_remaining st !!! pid proc))
                 processes_sorted))).
Proof.
  intros Hinv Hq. pose proof (rr_inv_i_eq st Hinv) as Hi.
  destruct (rr_inv_queue _ _ Hinv proc) as (_ & _ & Hrem); [rewrite Hq; left|].
  destruct st as [timeline t remaining rq i]. simpl in *. subst rq i.
  rewrite rr_admit_from by lia.
  rewrite lookup_total_insert_eq.
  case_decide; [by rewrite <- (assoc_L (++))|by rewrite app_nil_r].
Qed.

(** An idle jump: the clock moves to the arrival of the next process, and
    the processes arriving then are admitted. *)
Lemma rr_body_idle st :
  rr_inv processes st → rr_ready_queue st = [] → rr_cond n st = true →
  ∃ p, processes_sorted !! rr_i st = Some p ∧ rr_current_time st < arrival p ∧
    rr_body processes_sorted time_quantum st
    = Returned (RrState
        (rr_timeline st ++ [Segment Idle (rr_current_time st) (arrival p)])
        (arrival p) (rr_remaining st)
        (arrivals_between processes_sorted (rr_current_time st) (arrival p))
        (length (filter (λ x, arrival x ≤ arrival p) processes_sorted))).
Proof.
  intros Hinv Hq Hcond. pose proof (rr_inv_i_eq st Hinv) as Hi.
  apply bool_decide_eq_true in Hcond as [Hne|Hlt]; [done|].
  destruct (lookup_lt_is_Some_2 processes_sorted (rr_i st)) as [p Hp].
  { by rewrite length_sorted_by. }
  assert (rr_current_time st < arrival p) as Hlater.
  { assert (p ∈ drop (rr_i st) processes_sorted) as Hin.
    { apply list_elem_of_lookup. exists 0%nat. rewrite lookup_drop.
      by rewrite Nat.add_0_r. }
    rewrite Hi, Sorted_drop_filter in Hin by apply sorted_by_Sorted.
    apply list_elem_of_filter in Hin as [Hgt _]. lia. }
  exists p. split; [done|]. split; [done|].
  destruct st as [timeline t remaining rq i]. simpl in *. subst rq.
  rewrite Hp. subst i. by rewrite rr_admit_from by lia.
Qed.
Lemma rr_init_eq :
  rr_init processes
  = RrState [] 0 (remaining_init processes)
      (filter (λ p, arrival p ≤ 0) processes_sorted)
      (length (filter (λ p, arrival p ≤ 0) processes_sorted)).
Proof.
  unfold rr_init. by rewrite rr_admit_spec by apply sorted_by_Sorted.
Qed.

Lemma rr_init_inv : rr_inv processes (rr_init processes).
Proof.
  destruct Hvalid as (_ & Hnd & Hpos). rewrite rr_init_eq.
  assert (∀ p, p ∈ processes → 0 < remaining_init processes !!! pid p) as Hrem.
  { intros p Hp. rewrite remaining_init_lookup by done.
    eapply Forall_forall in Hpos; [|done]. lia. }
  split; simpl.
  - apply rr_take_filter.
  - rewrite <- (length_sorted_by arrival processes). apply length_filter.
  - intros p [Ha Hp%elem_of_sorted_by]%list_elem_of_filter. auto.
  - apply NoDup_filter. rewrite sorted_by_Permutation. by eapply NoDup_fmap_1.
  - intros p Hp. specialize (Hrem p Hp). lia.
  - intros p Hp _. by apply remaining_init_lookup.
Qed.

(** A turn of the loop returns, keeps the invariant and makes progress. *)
Lemma rr_body_inv st :
  rr_inv processes st → rr_cond n st = true →
  ∃ st', rr_body processes_sorted time_quantum st = Returned st'
         ∧ rr_inv processes st'
         ∧ (rr_measure processes st' < rr_measure processes st)%nat.
Proof.
  destruct Hvalid as (_ & Hnd & Hpos).
  intros Hinv Hcond. pose proof (rr_inv_i_eq st Hinv) as Hi.
  destruct (rr_ready_queue st) as [|proc rest] eqn:Hq.
  - destruct (rr_body_idle st Hinv Hq Hcond) as (p & Hp & Hlater & ->).
    eexists. split; [done|].
    assert (p ∈ processes) as Hpin.
    { apply (elem_of_sorted_by arrival). by eapply list_elem_of_lookup_2. }
    split; [split; simpl|].
    + apply rr_take_filter.
    + rewrite <- (length_sorted_by arrival processes). apply length_filter.
    + intros q [Hq1 [Hq2 Hq3]]%arrivals_between_elem.
      split; [done|]. split; [lia|].
      rewrite (rr_inv_fresh _ _ Hinv) by done.
      eapply Forall_forall in Hpos; [|exact Hq1]. lia.
    + apply arrivals_between_NoDup.
    + apply Hinv.
    + intros q Hq1 Hq2. apply Hinv; [done|lia].
    + unfold rr_measure. simpl.
      rewrite (filter_length_split _ (rr_current_time st)) by lia.
      rewrite <- Hi.
      assert (p ∈ arrivals_between processes_sorted (rr_current_time st) (arrival p))
        as Hpa.
      { apply arrivals_between_elem. split; [done|lia]. }
      destruct (arrivals_between _ _ _) eqn:Harr; [by apply elem_of_nil in Hpa|].
      unfold arrivals_between in Harr. rewrite Harr. simpl.
      pose proof (rr_inv_i _ _ Hinv).
      assert (rr_i st < n)%nat; [|lia].
      apply lookup_lt_Some in Hp. by rewrite length_sorted_by in Hp.
  - rewrite (rr_body_dispatch st proc rest Hinv Hq).
    eexists. split; [done|].
    destruct (rr_inv_queue _ _ Hinv proc) as (Hpin & Hpa & Hrem); [rewrite Hq; left|].
    pose proof (rr_inv_nodup _ _ Hinv) as Hnodup. rewrite Hq in Hnodup.
    apply NoDup_cons in Hnodup as [Hprest Hndrest].
    set (exec_time := Z.min time_quantum (rr_remaining st !!! pid proc)).
    assert (0 < exec_time ≤ rr_remaining st !!! pid proc) as Hexec by lia.
    assert (∀ p, p ∈ processes → p ≠ proc →
              <[pid proc := rr_remaining st !!! pid proc - exec_time]>
                (rr_remaining st) !!! pid p
              = rr_remaining st !!! pid p) as Hother.
    { intros p Hp Hne. rewrite lookup_total_insert_ne; [done|].
      intros Heq. apply Hne. symmetry. by apply (pid_inj processes). }
    split; [split; simpl|].
    + apply rr_take_filter.
    + rewrite <- (length_sorted_by arrival processes). apply length_filter.
    + intros p [Hp|[Hp|Hp]%elem_of_app]%elem_of_app.
      * destruct (rr_inv_queue _ _ Hinv p) as (Hp1 & Hp2 & Hp3); [rewrite Hq; by right|].
        split; [done|]. split; [lia|].
        rewrite Hother; [done..|]. by intros ->.
      * apply arrivals_between_elem in Hp as [Hp1 Hp2].
        split; [done|]. split; [lia|].
        rewrite Hother; [|done|intros ->; lia].
        rewrite (rr_inv_fresh _ _ Hinv) by (done || lia).
        eapply Forall_forall in Hpos; [|exact Hp1]. lia.
      * case_decide as Hleft; [|by apply elem_of_nil in Hp].
        apply list_elem_of_singleton in Hp as ->.
        split; [done|]. split; [lia|]. by rewrite lookup_total_insert_eq.
    + apply NoDup_app. split; [done|]. split.
      * intros p Hp [Hp'|Hp']%elem_of_app.
        -- apply arrivals_between_elem in Hp' as [_ Hp'].
           destruct (rr_inv_queue _ _ Hinv p) as (_ & Hp2 & _); [rewrite Hq; by right|].
           lia.
        -- case_decide; [|by apply elem_of_nil in Hp'].
           by apply list_elem_of_singleton in Hp' as ->.
      * apply NoDup_app. split; [apply arrivals_between_NoDup|]. split.
        -- intros p [_ Hp]%arrivals_between_elem Hp'.
           case_decide; [|by apply elem_of_nil in Hp'].
           apply list_elem_of_singleton in Hp' as ->. lia.
        -- case_decide; [apply NoDup_singleton|constructor].
    + intros p Hp. destruct (decide (p = proc)) as [->|Hne].
      * rewrite lookup_total_insert_eq. lia.
      * rewrite Hother by done. by apply Hinv.
    + intros p Hp Hlater. rewrite Hother; [|done|intros ->; lia].
      apply Hinv; [done|lia].
    + unfold rr_measure. simpl.
      rewrite total_remaining_insert by done.
      destruct (total_remaining_ge processes (rr_remaining st) proc) as [Hge0 Hge];
        [apply Hinv|done|].
      rewrite (filter_length_split _ (rr_current_time st)) by lia.
      rewrite <- Hi. fold exec_time. lia.
Qed.

Lemma rr_returns :
  ∃ st, while (rr_cond n) (rr_body processes_sorted time_quantum)
          (rr_fuel processes) (rr_init processes) = Returned st
        ∧ rr_inv processes st ∧ rr_cond n st = false.
Proof.
  apply (while_returns _ _ (rr_inv processes) (rr_measure processes)).
  - intros s Hs Hc. by apply rr_body_inv.
  - apply rr_init_inv.
  - rewrite rr_init_eq. unfold rr_measure, rr_fuel. simpl.
    rewrite total_remaining_init by apply Hvalid.
    pose proof (sum_positive_burst_ge processes). lia.
Qed.

Lemma rr_turns_inv k st :
  turns (rr_cond n) (rr_body processes_sorted time_quantum) k (rr_init processes) st →
  rr_inv processes st.
Proof.
  apply turns_invariant; [|by apply rr_init_inv].
  intros s s' Hs Hc Hb.
  destruct (rr_body_inv s Hs Hc) as (s'' & Hb' & Hinv & _). congruence.
Qed.

Lemma rr_body_prefix st st' :
  rr_body processes_sorted time_quantum st = Returned st' →
  rr_timeline st `prefix_of` rr_timeline st'.
Proof.
  destruct st as [timeline t remaining rq i]. unfold rr_body.
  destruct rq as [|proc rest].
  - destruct (processes_sorted !! i); [|done].
    destruct (rr_admit _ _ _ _). intros [= <-]. simpl. by apply prefix_app_r.
  - destruct (rr_admit _ _ _ _). intros [= <-]. simpl. by apply prefix_app_r.
Qed.

Lemma rr_turns_prefix k a b :
  turns (rr_cond n) (rr_body processes_sorted time_quantum) k a b →
  rr_timeline a `prefix_of` rr_timeline b.
Proof.
  induction 1 as [|k s s' s'' Hc Hb _ IH]; [done|].
  etrans; [by apply rr_body_prefix|done].
Qed.
End RrFacts.

Lemma rr_example_processes_valid : valid_processes rr_example_processes.
Proof.
  split; [done|]. split.
  - apply (bool_decide_unpack _). by vm_compute.
  - repeat constructor; simpl; lia.
Qed.

(** ** The timelines of the repository's examples *)

(** C7: on the process table of question1.py the first-come-first-served
    scheduler returns exactly P1[0,5), P2[5,6), Idle[6,10), P3[10,21),
    P4[21,23), P5[23,35), in that order. *)
Theorem fcfs_question1_timeline :
  fcfs_schedule question1_processes =
    [ Segment "P1" 0 5; Segment "P2" 5 6; Segment Idle 6 10;
      Segment "P3" 10 21; Segment "P4" 21 23; Segment "P5" 23 35 ].
Proof. reflexivity. Qed.

Lemma rr_example_timeline :
  round_robin_schedule rr_example_processes 2
  = Returned
      [ Segment "P1" 0 2; Segment "P1" 2 4; Segment "P2" 4 5; Segment "P1" 5 6;
        Segment Idle 6 10; Segment "P3" 10 12; Segment "P3" 12 14;
        Segment "P3" 14 16; Segment "P3" 16 18; Segment "P3" 18 20;
        Segment "P3" 20 21 ].
Proof. by vm_compute. Qed.

(** ** Coalescing *)

(** Round robin with quantum 2 on the example of the specification: P1 is
    dispatched again right after its first quantum, and the timeline holds
    the two slices as separate neighbouring segments. *)
Lemma rr_emits_adjacent_same_owner :
  valid_processes rr_example_processes ∧
  ∃ timeline,
    round_robin_schedule rr_example_processes 2 = Returned timeline ∧
    ¬ no_adjacent_same_owner timeline.
Proof.
  split; [exact rr_example_processes_valid|].
  eexists. split; [exact rr_example_timeline|].
  simpl. intros [Hne _]. done.
Qed.

(** C8 (amended): no component merges segments; the schedulers without a
    time quantum (first come first served, shortest job first, shortest
    remaining time first) never emit two neighbouring segments with the same
    owner on a valid input whose ids differ from the Idle owner. *)
Theorem no_adjacent_same_owner_without_quantum (processes : list process) :
  valid_processes processes → Idle ∉ pid <$> processes →
  no_adjacent_same_owner (fcfs_schedule processes) ∧
  (∃ timeline, sjf_non_preemptive_schedule processes = Returned timeline
               ∧ no_adjacent_same_owner timeline) ∧
  (∃ timeline, sjf_preemptive_schedule processes = Returned timeline
               ∧ no_adjacent_same_owner timeline).
Proof.
  intros Hvalid Hidle. split; [|split].
  - apply fcfs_adjacent; [apply Hvalid|done].
  - destruct (sjf_returns processes Hvalid Hidle) as (final & Hwhile & Hfinal & _).
    exists (sjf_timeline final). unfold sjf_non_preemptive_schedule.
    rewrite Hwhile. split; [done|]. apply Hfinal.
  - destruct (srtf_returns processes Hvalid Hidle) as (final & Hwhile & _ & _).
    exists (srtf_timeline final). unfold sjf_preemptive_schedule.
    rewrite Hwhile. split; [done|].
    apply while_turns in Hwhile as (k & _ & Hturns & _).
    by apply (srtf_turns_adjacent processes Hvalid Hidle) in Hturns as [? _].
Qed.

Lemma no_adjacent_same_owner_without_quantum_witness :
  valid_processes question2_processes ∧ (Idle ∉ pid <$> question2_processes) ∧
  no_adjacent_same_owner (fcfs_schedule question2_processes).
Proof.
  split; [exact question2_processes_valid|].
  split; [exact question2_processes_not_idle|].
  exact (proj1 (no_adjacent_same_owner_without_quantum question2_processes
                  question2_processes_valid question2_processes_not_idle)).
Defined.

(** ** Input validation *)

(** A non-positive burst is simulated like any other: the call returns a
    timeline, here with a segment that ends before it starts. *)
Lemma fcfs_accepts_invalid_input :
  ¬ valid_processes [Process "P1" 0 (-3)] ∧
  fcfs_schedule [Process "P1" 0 (-3)] = [Segment "P1" 0 (-3)].
Proof.
  split; [|reflexivity].
  intros (_ & _ & Hpos). apply Forall_cons in Hpos as [[_ Hb] _]. simpl in Hb. lia.
Qed.

(** C9 (amended): the schedulers have no validation step and no InvalidInput
    error.  First come first served returns a timeline for every list of
    process dictionaries, holding for each process a segment of the length
    of its burst whatever the signs of its fields and whether ids repeat;
    on the empty list the four single-processor schedulers return the empty
    timeline. *)
Theorem schedulers_do_not_validate :
  (∀ processes p, p ∈ processes →
     ∃ s, Segment (pid p) s (s + burst p) ∈ fcfs_schedule processes) ∧
  fcfs_schedule [] = [] ∧
  sjf_non_preemptive_schedule [] = Returned [] ∧
  sjf_preemptive_schedule [] = Returned [] ∧
  (∀ time_quantum, round_robin_schedule [] time_quantum = Returned []).
Proof.
  split; [|done].
  intros processes p Hp. apply fcfs_foldl_segments. by apply elem_of_sorted_by.
Qed.

(** ** Round robin on several processors *)

Lemma question6_events :
  question6_schedule_events
  = Returned
      [ Event Idle (Some 0) 2 "Processor 2";
        Event "P1" (Some 0) 3 "Processor 1";
        Event "P1" (Some 2) 5 "Processor 1";
        Event "P1" (Some 4) 6 "Processor 1";
        Event "P2" (Some 3) 6 "Processor 2";
        Event "P2" (Some 5) 8 "Processor 2";
        Event "P3" (Some 10) 13 "Processor 1";
        Event "P4" (Some 12) 15 "Processor 1";
        Event "P3" (Some 12) 15 "Processor 2";
        Event "P4" (Some 14) 17 "Processor 1";
        Event "P3" (Some 14) 17 "Processor 2";
        Event "P4" (Some 16) 18 "Processor 2";
        Event "P5" (Some 16) 19 "Processor 1";
        Event "P3" (Some 17) 20 "Processor 2";
        Event "P5" (Some 18) 21 "Processor 1";
        Event "P3" (Some 19) 22 "Processor 2";
        Event "P5" (Some 20) 23 "Processor 1";
        Event "P3" (Some 21) 23 "Processor 2";
        Event "P5" (Some 22) 25 "Processor 1";
        Event "P5" (Some 24) 27 "Processor 1";
        Event "P5" (Some 26) 29 "Processor 1" ].
Proof. by vm_compute. Qed.

(** C1: on the constants of question6.py itself the multi-processor
    scheduler records for P1, whose burst is 5, the events [0,3), [2,5) and
    [4,6) : 8 units; for P2, whose burst is 4, it records 6 units. *)
Theorem mp_durations_exceed_burst :
  ∃ events,
    question6_schedule_events = Returned events ∧
    Process6 "P1" 0 5 5 ∈ question6_processes ∧ event_total "P1" events = 8 ∧
    Process6 "P2" 3 4 4 ∈ question6_processes ∧ event_total "P2" events = 6.
Proof.
  eexists. split; [exact question6_events|].
  split; [left|]. split; [by vm_compute|].
  split; [right; left|]. by vm_compute.
Qed.

(** C2: on the constants of question6.py itself the events of Processor 1
    overlap (the unit [2,3) lies in two of them) and leave a gap (the unit
    [6,7) lies in none, although later events of that processor exist). *)
Theorem mp_events_overlap_and_gap :
  ∃ events,
    question6_schedule_events = Returned events ∧
    cover_count "Processor 1" 2 events = 2%nat ∧
    cover_count "Processor 1" 6 events = 0%nat ∧
    Event "P3" (Some 10) 13 "Processor 1" ∈ events.
Proof.
  eexists. split; [exact question6_events|].
  split; [by vm_compute|]. split; [by vm_compute|].
  do 6 right. left.
Qed.

(** Two units into the run of [two_phase_processes] (quantum 2, two
    processors) processor 1 is free and processor 2 runs B on the last unit
    of its quantum.  In the next unit the script serves processor 1 first,
    which finds the queue empty; then processor 2 re-queues B and takes it
    back at once.  Were all updates made before any dispatch, B would go to
    processor 1. *)
Lemma mp_dispatch_precedes_later_updates :
  ∃ st st_code st_spec,
    turns mp_cond (mp_body 2 2) 2 (mp_init two_phase_processes 2) st ∧
    mp_body 2 2 st = Returned st_code ∧
    spec_two_phase_body 2 2 st = Returned st_spec ∧
    ps_proc <$> mp_processors st = [None; Some "B"] ∧
    ps_proc <$> mp_processors st_code = [None; Some "B"] ∧
    ps_proc <$> mp_processors st_spec = [Some "B"; None].
Proof.
  eexists _, _, _. split.
  { eapply turns_S; [by vm_compute|by vm_compute|].
    eapply turns_S; [by vm_compute|by vm_compute|]. apply turns_O. }
  split; [by vm_compute|]. split; [by vm_compute|].
  split; [by vm_compute|]. split; by vm_compute.
Qed.

Lemma mp_for_snoc time_quantum range i st :
  mp_for time_quantum (range ++ [i]) st
  = match mp_for time_quantum range st with
    | Returned st' => mp_processor_turn time_quantum st' i
    | Raised e => Raised e
    | OutOfFuel => OutOfFuel
    end.
Proof.
  revert st. induction range as [|j range IH]; intros st; simpl.
  - by destruct (mp_processor_turn time_quantum st i).
  - destruct (mp_processor_turn time_quantum st j); [apply IH|done..].
Qed.

Lemma mp_store_other i j st proc_state :
  j ≠ i → mp_processors (mp_store i st proc_state) !! j = mp_processors st !! j.
Proof. intros Hne. simpl. by apply list_lookup_insert_ne. Qed.

Lemma mp_update_processors i st proc_state st1 ps1 :
  mp_update i st proc_state = Returned (st1, ps1) →
  mp_processors st1 = mp_processors st ∧
  ∃ requeued, mp_ready_queue st1 = mp_ready_queue st ++ requeued
              ∧ (length requeued ≤ 1)%nat.
Proof.
  destruct st as [processes global_time ready_queue schedule_events finished processors].
  unfold mp_update. destruct (ps_proc proc_state) as [cur|].
  - destruct (get_process processes cur) as [[k cur_proc]|]; [|done].
    simpl. repeat case_decide; intros [= <- <-]; simpl; (split; [done|]).
    + exists []. rewrite app_nil_r. split; [done|simpl; lia].
    + eexists [_]. split; [done|simpl; lia].
    + exists []. rewrite app_nil_r. split; [done|simpl; lia].
  - intros [= <- <-]. split; [done|]. exists []. rewrite app_nil_r.
    split; [done|simpl; lia].
Qed.

Lemma mp_dispatch_processors time_quantum st proc_state st2 ps2 skip :
  mp_dispatch time_quantum st proc_state = Returned (st2, ps2, skip) →
  mp_processors st2 = mp_processors st ∧
  (mp_ready_queue st = mp_ready_queue st2
   ∨ ∃ next_pid, mp_ready_queue st = next_pid :: mp_ready_queue st2).
Proof.
  destruct st as [processes global_time ready_queue schedule_events finished processors].
  unfold mp_dispatch. destruct (ps_proc proc_state) as [cur|].
  - intros [= <- <- <-]. split; [done|]. by left.
  - destruct ready_queue as [|next_pid rest].
    + destruct (ps_idle proc_state); intros [= <- <- <-]; (split; [done|]); by left.
    + case_decide.
      * intros [= <- <- <-]. split; [done|]. right. by eexists.
      * destruct (get_process processes next_pid) as [[k proc]|]; [|done].
        intros [= <- <- <-]. split; [done|]. right. by eexists.
Qed.

Lemma mp_idle_event_processors i st proc_state st3 ps3 :
  mp_idle_event i st proc_state = Returned (st3, ps3) →
  mp_processors st3 = mp_processors st ∧ mp_ready_queue st3 = mp_ready_queue st.
Proof.
  destruct st as [processes global_time ready_queue schedule_events finished processors].
  unfold mp_idle_event.
  destruct (ps_proc proc_state) as [cur|]; [by intros [= <- <-]|].
  destruct (ps_idle proc_state) as [[|]|]; [|by intros [= <- <-]..].
  destruct (ps_event_start proc_state) as [event_start|]; [|done].
  case_decide; by intros [= <- <-].
Qed.

(** ** The schedulers on Python objects *)

Section Reads.
Context (σ : store).

Lemma reads_ret {A} (a : A) : reads σ (ret a) (Returned a).
Proof. done. Qed.

Lemma reads_raise {A} (e : exn) : reads σ (raise (A := A) e) (Raised e).
Proof. done. Qed.

Lemma reads_bind {A B} (m : M A) (f : A → M B) a o :
  reads σ m (Returned a) → reads σ (f a) o → reads σ (bind m f) o.
Proof. unfold reads, bind. by intros -> ->. Qed.

Lemma reads_iter : reads σ obj_iter (Returned (store_list σ)).
Proof. done. Qed.

Lemma reads_getitem p : reads σ (obj_getitem p) (Returned (store_dict σ p)).
Proof. done. Qed.

Lemma reads_mapM {A B} (f : A → M B) (g : A → B) l :
  (∀ x, reads σ (f x) (Returned (g x))) →
  reads σ (mapM f l) (Returned (g <$> l)).
Proof.
  intros Hf. induction l as [|x l IH]; simpl; [done|].
  eapply reads_bind; [apply Hf|]. eapply reads_bind; [apply IH|]. done.
Qed.

Lemma reads_foldlM {A A' B B'} (R : A → A' → Prop) (h : B → B')
    (f : A → B → M A) (g : A' → B' → A') l a a' :
  (∀ a a' x, R a a' → ∃ b, reads σ (f a x) (Returned b) ∧ R b (g a' (h x))) →
  R a a' →
  ∃ b, reads σ (foldlM f a l) (Returned b) ∧ R b (foldl g a' (h <$> l)).
Proof.
  intros Hf. revert a a'. induction l as [|x l IH]; intros a a' HR; simpl.
  - by exists a.
  - destruct (Hf a a' x HR) as (b & Hb & HRb).
    destruct (IH b _ HRb) as (c & Hc & HRc).
    exists c. split; [|done]. by eapply reads_bind.
Qed.

Lemma reads_whileM {S S'} (φ : S → S') (cond : S → bool) (cond' : S' → bool)
    (body : S → M S) (body' : S' → outcome S') fuel st :
  (∀ s, cond s = cond' (φ s)) →
  (∀ s, ∃ o, reads σ (body s) o ∧ outcome_map φ o = body' (φ s)) →
  ∃ o, reads σ (whileM cond body fuel st) o
       ∧ outcome_map φ o = while cond' body' fuel (φ st).
Proof.
  intros Hcond Hbody. revert st. induction fuel as [|fuel IH]; intros st; simpl;
    rewrite <- Hcond; destruct (cond st).
  - by exists OutOfFuel.
  - by exists (Returned st).
  - destruct (Hbody st) as (o & Ho & Hφ). rewrite <- Hφ.
    destruct o as [s1|e|]; simpl.
    + destruct (IH s1) as (o1 & Ho1 & Hφ1). exists o1. split; [|done].
      by eapply reads_bind.
    + exists (Raised e). split; [|done]. unfold reads, bind. by rewrite Ho.
    + exists OutOfFuel. split; [|done]. unfold reads, bind. by rewrite Ho.
  - by exists (Returned st).
Qed.

(** Sorting references by a key read through them sorts what they point
    to. *)
Lemma insert_by_fmap {A B} (f : B → A) (keyB : B → Z) (keyA : A → Z) y l :
  (∀ x, x ∈ y :: l → keyB x = keyA (f x)) →
  f <$> insert_by keyB y l = insert_by keyA (f y) (f <$> l).
Proof.
  intros Hkey. induction l as [|z l IH]; [done|].
  rewrite fmap_cons. cbn [insert_by].
  rewrite (Hkey y), (Hkey z) by (rewrite !elem_of_cons; auto).
  case_decide; [done|]. rewrite fmap_cons. f_equal. apply IH.
  intros x Hx. apply Hkey. rewrite !elem_of_cons in *. tauto.
Qed.

Lemma sorted_by_fmap {A B} (f : B → A) (keyB : B → Z) (keyA : A → Z) l :
  (∀ x, x ∈ l → keyB x = keyA (f x)) →
  f <$> sorted_by keyB l = sorted_by keyA (f <$> l).
Proof.
  intros Hkey. induction l as [|z l IH]; [done|].
  rewrite fmap_cons. cbn [sorted_by foldr]. fold (sorted_by keyB l).
  fold (sorted_by keyA (f <$> l)).
  rewrite <- IH by (intros x Hx; apply Hkey; by right).
  apply insert_by_fmap. intros x [->|Hx%elem_of_sorted_by]%elem_of_cons.
  - apply Hkey. left.
  - apply Hkey. by right.
Qed.

Lemma sorted_by_zip_keys {B} (key : B → Z) (l : list B) :
  (sorted_by fst (zip (key <$> l) l)).*2 = sorted_by key l.
Proof.
  rewrite (sorted_by_fmap snd fst key).
  - by rewrite snd_zip by (by rewrite length_fmap).
  - intros [k x] Hin. simpl.
    induction l as [|a l IH]; simpl in Hin; [by apply elem_of_nil in Hin|].
    apply elem_of_cons in Hin as [[= -> ->]|Hin]; [done|by apply IH].
Qed.

Lemma reads_sorted_obj (key : process → Z) (l : list loc) :
  ∃ l', reads σ (sorted_obj key l) (Returned l') ∧
        store_dict σ <$> l' = sorted_by key (store_dict σ <$> l).
Proof.
  eexists. split.
  - unfold sorted_obj. eapply reads_bind; [|apply reads_ret].
    apply (reads_mapM _ (λ p, key (store_dict σ p))).
    intros p. eapply reads_bind; [apply reads_getitem|apply reads_ret].
  - rewrite (sorted_by_zip_keys (λ p, key (store_dict σ p))).
    by apply sorted_by_fmap.
Qed.
Lemma reads_try_except {A} (m : M A) (h : exn → M A) a :
  reads σ m (Returned a) → reads σ (try_except m h) (Returned a).
Proof. unfold reads, try_except. by intros ->. Qed.

Lemma outcome_map_id {A} (o : outcome A) : outcome_map id o = o.
Proof. by destruct o. Qed.

(** *** question1.py *)
Lemma fcfs_obj_reads :
  reads σ fcfs_schedule_obj (Returned (fcfs_schedule (snapshot σ))).
Proof.
  unfold fcfs_schedule_obj, fcfs_schedule, snapshot.
  apply reads_try_except.
  eapply reads_bind; [apply reads_iter|].
  destruct (reads_sorted_obj arrival (store_list σ)) as (ps & Hps & <-).
  eapply reads_bind; [exact Hps|].
  destruct (reads_foldlM eq (store_dict σ) fcfs_step_obj fcfs_step ps (0, []) (0, []))
    as (b & Hb & ->); [|done|].
  - intros a a' x <-. eexists. split; [|done].
    eapply reads_bind; [apply reads_getitem|apply reads_ret].
  - eapply reads_bind; [exact Hb|apply reads_ret].
Qed.

(** *** question3.py *)
Lemma srtf_obj_reads :
  reads σ sjf_preemptive_schedule_obj (sjf_preemptive_schedule (snapshot σ)).
Proof.
  unfold sjf_preemptive_schedule_obj, sjf_preemptive_schedule, snapshot.
  eapply reads_bind; [apply reads_iter|].
  eapply reads_bind; [apply (reads_mapM _ (store_dict σ)), reads_getitem|].
  destruct (reads_sorted_obj arrival (store_list σ)) as (ps & Hps & <-).
  eapply reads_bind; [exact Hps|].
  rewrite length_fmap.
  destruct (reads_whileM id (srtf_cond (length (store_list σ)))
              (srtf_cond (length (store_list σ)))
              (srtf_body_obj ps) (srtf_turn (store_dict σ <$> ps))
              (srtf_fuel (store_dict σ <$> store_list σ))
              (srtf_init (store_dict σ <$> store_list σ)))
    as (o & Ho & Hφ); [done| |].
  { intros s. eexists. split.
    - unfold srtf_body_obj. eapply reads_bind; [|apply reads_ret].
      apply (reads_mapM _ (store_dict σ)), reads_getitem.
    - done. }
  rewrite outcome_map_id in Hφ. unfold id in Hφ. rewrite <- Hφ.
  destruct o as [st|e|].
  - eapply reads_bind; [exact Ho|apply reads_ret].
  - unfold reads, bind. by rewrite Ho.
  - unfold reads, bind. by rewrite Ho.
Qed.
(** *** question2.py *)
Lemma sjf_admit_obj_reads completed current_time ready_queue p :
  ∃ ready_queue',
    reads σ (sjf_admit_obj completed current_time ready_queue p)
      (Returned ready_queue') ∧
    store_dict σ <$> ready_queue'
    = sjf_admit completed current_time (store_dict σ <$> ready_queue)
        (store_dict σ p).
Proof.
  unfold sjf_admit_obj, sjf_admit.
  destruct (decide ((pid (store_dict σ p) ∉ completed)
                    ∧ arrival (store_dict σ p) ≤ current_time)) as [Hadm|Hadm].
  - destruct (decide (store_dict σ p ∈ store_dict σ <$> ready_queue)) as [Hin|Hin].
    + exists ready_queue. split; [|done].
      eapply reads_bind; [apply reads_getitem|]. rewrite decide_True by done.
      eapply reads_bind; [apply (reads_mapM _ (store_dict σ)), reads_getitem|].
      by rewrite decide_True by done.
    + exists (ready_queue ++ [p]). split; [|by rewrite fmap_app].
      eapply reads_bind; [apply reads_getitem|]. rewrite decide_True by done.
      eapply reads_bind; [apply (reads_mapM _ (store_dict σ)), reads_getitem|].
      by rewrite decide_False by done.
  - exists ready_queue. split; [|done].
    eapply reads_bind; [apply reads_getitem|]. by rewrite decide_False by done.
Qed.

Lemma sjf_body_obj_reads processes_sorted st :
  ∃ o, reads σ (sjf_body_obj processes_sorted st) o ∧
       outcome_map (sjf_state_of σ) o
       = sjf_body (store_dict σ <$> processes_sorted) (sjf_state_of σ st).
Proof.
  unfold sjf_body_obj, sjf_body, sjf_ready.
  destruct (reads_foldlM (λ rq rq', store_dict σ <$> rq = rq') (store_dict σ)
              (sjf_admit_obj (sjfo_completed st) (sjfo_current_time st))
              (sjf_admit (sjfo_completed st) (sjfo_current_time st))
              processes_sorted (sjfo_ready_queue st)
              (store_dict σ <$> sjfo_ready_queue st))
    as (rq1 & Hrq1 & Heq1); [|done|].
  { intros a a' x <-. apply sjf_admit_obj_reads. }
  cbn -[sorted_by foldl]. rewrite <- Heq1. destruct rq1 as [|p1 rq1].
  - simpl. destruct (list_min _) as [next_arrival|] eqn:Hmin.
    + eexists. split.
      * eapply reads_bind; [exact Hrq1|]. simpl.
        eapply reads_bind; [apply (reads_mapM _ (store_dict σ)), reads_getitem|].
        rewrite Hmin. apply reads_ret.
      * done.
    + exists (Raised ValueError). split; [|done].
      eapply reads_bind; [exact Hrq1|]. simpl.
      eapply reads_bind; [apply (reads_mapM _ (store_dict σ)), reads_getitem|].
      rewrite Hmin. apply reads_raise.
  - destruct (reads_sorted_obj burst (p1 :: rq1)) as (sq & Hsq & Heq).
    rewrite <- Heq. destruct sq as [|sp rest]; simpl.
    + exists (Raised IndexError). split; [|done].
      eapply reads_bind; [exact Hrq1|]. simpl.
      eapply reads_bind; [exact Hsq|]. apply reads_raise.
    + eexists. split.
      * eapply reads_bind; [exact Hrq1|]. simpl.
        eapply reads_bind; [exact Hsq|]. simpl.
        eapply reads_bind; [apply reads_getitem|apply reads_ret].
      * done.
Qed.

Lemma sjf_obj_reads :
  reads σ sjf_non_preemptive_schedule_obj
    (sjf_non_preemptive_schedule (snapshot σ)).
Proof.
  unfold sjf_non_preemptive_schedule_obj, sjf_non_preemptive_schedule, snapshot.
  eapply reads_bind; [apply reads_iter|].
  destruct (reads_sorted_obj arrival (store_list σ)) as (ps & Hps & <-).
  eapply reads_bind; [exact Hps|].
  rewrite length_fmap.
  destruct (reads_whileM (sjf_state_of σ)
              (λ st, bool_decide (size (sjfo_completed st) < length (store_list σ))%nat)
              (sjf_cond (store_dict σ <$> store_list σ))
              (sjf_body_obj ps) (sjf_body (store_dict σ <$> ps))
              (2 * length (store_list σ)) (SjfStateObj [] [] 0 ∅))
    as (o & Ho & Hφ).
  { intros s. unfold sjf_cond. by rewrite length_fmap. }
  { intros s. apply sjf_body_obj_reads. }
  change (sjf_state_of σ (SjfStateObj [] [] 0 ∅)) with sjf_init in Hφ.
  rewrite <- Hφ. destruct o as [st|e|]; simpl.
  - eapply reads_bind; [exact Ho|apply reads_ret].
  - unfold reads, bind. by rewrite Ho.
  - unfold reads, bind. by rewrite Ho.
Qed.

(** *** question4.py *)
Lemma rr_admit_obj_reads pending current_time ready_queue i :
  ∃ ready_queue' i',
    reads σ (rr_admit_obj pending current_time ready_queue i)
      (Returned (ready_queue', i')) ∧
    rr_admit (store_dict σ <$> pending) current_time
      (store_dict σ <$> ready_queue) i
    = (store_dict σ <$> ready_queue', i').
Proof.
  revert ready_queue i. induction pending as [|p pending IH]; intros rq i; simpl.
  - by exists rq, i.
  - destruct (decide (arrival (store_dict σ p) ≤ current_time)) as [Ha|Ha].
    + destruct (IH (rq ++ [p]) (S i)) as (rq' & i' & Hr & Heq).
      exists rq', i'. split.
      * eapply reads_bind; [apply reads_getitem|]. by rewrite decide_True by done.
      * by rewrite <- Heq, fmap_app.
    + exists rq, i. split; [|done].
      eapply reads_bind; [apply reads_getitem|]. by rewrite decide_False by done.
Qed.

Lemma rr_body_obj_reads processes_sorted time_quantum st :
  ∃ o, reads σ (rr_body_obj processes_sorted time_quantum st) o ∧
       outcome_map (rr_state_of σ) o
       = rr_body (store_dict σ <$> processes_sorted) time_quantum (rr_state_of σ st).
Proof.
  destruct st as [timeline current_time remaining ready_queue i].
  unfold rr_body_obj, rr_body, rr_state_of. simpl.
  destruct ready_queue as [|proc rest]; simpl.
  - rewrite list_lookup_fmap. destruct (processes_sorted !! i) as [p|]; simpl.
    + destruct (rr_admit_obj_reads (drop i processes_sorted)
                  (arrival (store_dict σ p)) [] i) as (rq' & i' & Hr & Heq).
      rewrite fmap_drop in Heq. simpl in Heq. rewrite Heq.
      eexists. split.
      * eapply reads_bind; [apply reads_getitem|]. simpl.
        eapply reads_bind; [exact Hr|]. apply reads_ret.
      * done.
    + exists (Raised IndexError). split; [apply reads_raise|done].
  - destruct (rr_admit_obj_reads (drop i processes_sorted)
                (current_time
                 + Z.min time_quantum (remaining !!! pid (store_dict σ proc)))
                rest i)
      as (rq' & i' & Hr & Heq).
    rewrite fmap_drop in Heq.
    change (list_fmap loc process (store_dict σ) rest) with (store_dict σ <$> rest).
    rewrite Heq.
    eexists. split.
    + eapply reads_bind; [apply reads_getitem|]. simpl.
      eapply reads_bind; [exact Hr|]. apply reads_ret.
    + simpl. unfold rr_state_of. simpl.
      case_decide; [by rewrite fmap_app|done].
Qed.

Lemma rr_obj_reads time_quantum :
  reads σ (round_robin_schedule_obj time_quantum)
    (round_robin_schedule (snapshot σ) time_quantum).
Proof.
  unfold round_robin_schedule_obj, round_robin_schedule, snapshot.
  eapply reads_bind; [apply reads_iter|].
  eapply reads_bind; [apply (reads_mapM _ (store_dict σ)), reads_getitem|].
  destruct (reads_sorted_obj arrival (store_list σ)) as (ps & Hps & Hsorted).
  eapply reads_bind; [exact Hps|].
  rewrite length_fmap.
  destruct (rr_admit_obj_reads ps 0 [] 0%nat) as (rq0 & i0 & Hr0 & Heq0).
  eapply reads_bind; [exact Hr0|]. simpl.
  destruct (reads_whileM (rr_state_of σ)
              (λ st, bool_decide (rro_ready_queue st ≠ []
                                  ∨ (rro_i st < length (store_list σ))%nat))
              (rr_cond (length (store_list σ)))
              (rr_body_obj ps time_quantum)
              (rr_body (store_dict σ <$> ps) time_quantum)
              (rr_fuel (store_dict σ <$> store_list σ))
              (RrStateObj [] 0 (remaining_init (store_dict σ <$> store_list σ)) rq0 i0))
    as (o & Ho & Hφ).
  { intros s. unfold rr_cond. simpl. apply bool_decide_ext.
    destruct (rro_ready_queue s); simpl; split; intros [?|?]; auto; by left. }
  { intros s. apply rr_body_obj_reads. }
  assert (rr_state_of σ (RrStateObj [] 0
              (remaining_init (store_dict σ <$> store_list σ)) rq0 i0)
          = rr_init (store_dict σ <$> store_list σ)) as Hinit.
  { unfold rr_init, rr_state_of. rewrite <- Hsorted.
    change (@nil process) with (store_dict σ <$> []). rewrite Heq0. done. }
  rewrite Hinit, Hsorted in Hφ. rewrite <- Hφ. destruct o as [st|e|]; simpl.
  - eapply reads_bind; [exact Ho|apply reads_ret].
  - unfold reads, bind. by rewrite Ho.
  - unfold reads, bind. by rewrite Ho.
Qed.
End Reads.

(** The store can change: an in-place edit of a dictionary is seen in it. *)
Lemma obj_setitem_writes σ p d :
  store_dict σ p ≠ d → (obj_setitem p d σ).2 ≠ σ.
Proof.
  intros Hne Heq. apply Hne. rewrite <- Heq at 1. simpl. apply fn_lookup_insert.
Qed.

(** ** Durations and cover of the single-processor timelines *)

Lemma timeline_end_snoc t timeline s : timeline_end t (timeline ++ [s]) = seg_end s.
Proof. unfold timeline_end. by rewrite last_snoc. Qed.

Lemma gapless_snoc t timeline s :
  gapless t (timeline ++ [s]) ↔
  gapless t timeline ∧ seg_start s = timeline_end t timeline ∧ seg_start s < seg_end s.
Proof.
  revert t. induction timeline as [|a l IH]; intros t; simpl.
  - unfold timeline_end. simpl. tauto.
  - rewrite IH. unfold timeline_end. rewrite last_cons.
    destruct (last l) eqn:Hl; simpl; tauto.
Qed.

Lemma gapless_positive t timeline s : gapless t timeline → s ∈ timeline → 0 < duration s.
Proof.
  revert t. induction timeline as [|a l IH]; intros t Hg Hs.
  - by apply elem_of_nil in Hs.
  - destruct Hg as (_ & Hpos & Hg). apply elem_of_cons in Hs as [->|Hs].
    + unfold duration. lia.
    + by eapply IH.
Qed.

(** *** First come, first served *)

Lemma fcfs_foldl_gapless l t tl :
  Forall (λ p, 0 < burst p) l → gapless 0 tl → timeline_end 0 tl = t →
  gapless 0 (foldl fcfs_step (t, tl) l).2
  ∧ timeline_end 0 (foldl fcfs_step (t, tl) l).2 = (foldl fcfs_step (t, tl) l).1.
Proof.
  revert t tl. induction l as [|a l IH]; intros t tl Hpos Hg Hend; simpl; [done|].
  apply Forall_cons in Hpos as [Ha Hpos]. unfold fcfs_step.
  case_decide; apply IH; try done.
  - apply gapless_snoc. rewrite timeline_end_snoc. simpl. split; [|lia].
    apply gapless_snoc. simpl. split; [done|]. split; [done|lia].
  - by rewrite timeline_end_snoc.
  - apply gapless_snoc. simpl. split; [done|]. split; [done|lia].
  - by rewrite timeline_end_snoc.
Qed.

Lemma fcfs_foldl_total l t tl owner :
  owner ≠ Idle →
  total_duration owner (foldl fcfs_step (t, tl) l).2
  = total_duration owner tl + sum_burst (filter (λ p, pid p = owner) l).
Proof.
  intros Ho. revert t tl. induction l as [|a l IH]; intros t tl; simpl.
  - unfold sum_burst. simpl. lia.
  - unfold fcfs_step. rewrite filter_cons.
    case_decide; rewrite IH, !total_duration_snoc; unfold duration; simpl;
      repeat case_decide; simplify_eq; simpl; lia.
Qed.

Lemma filter_pid_NoDup (l : list process) p :
  NoDup (pid <$> l) → p ∈ l → filter (λ q, pid q = pid p) l = [p].
Proof.
  induction l as [|a l IH]; intros Hnd Hp.
  - by apply elem_of_nil in Hp.
  - rewrite fmap_cons in Hnd. apply NoDup_cons in Hnd as [Ha Hnd].
    rewrite filter_cons. apply elem_of_cons in Hp as [->|Hp].
    + rewrite decide_True by done. f_equal. apply filter_none.
      intros q Hq Heq. apply Ha. rewrite <- Heq. by apply list_elem_of_fmap_2.
    + rewrite decide_False; [by apply IH|].
      intros Heq. apply Ha. rewrite Heq. by apply list_elem_of_fmap_2.
Qed.

Lemma fcfs_total (processes : list process) p :
  NoDup (pid <$> processes) → Idle ∉ pid <$> processes → p ∈ processes →
  total_duration (pid p) (fcfs_schedule processes) = burst p.
Proof.
  intros Hnd Hidle Hp. unfold fcfs_schedule. rewrite fcfs_foldl_total.
  - rewrite filter_pid_NoDup.
    + unfold total_duration, sum_burst. simpl. lia.
    + by rewrite sorted_by_Permutation.
    + by apply elem_of_sorted_by.
  - intros Heq. apply Hidle. rewrite <- Heq. by apply list_elem_of_fmap_2.
Qed.

Lemma fcfs_gapless (processes : list process) :
  Forall (λ p, 0 ≤ arrival p ∧ 0 < burst p) processes →
  gapless 0 (fcfs_schedule processes).
Proof.
  intros Hpos. unfold fcfs_schedule. apply fcfs_foldl_gapless; [|done..].
  rewrite sorted_by_Permutation. eapply Forall_impl; [done|]. by intros p [_ ?].
Qed.

(** *** Shortest job first *)

Section SjfCover.
Context (processes : list process).
Hypothesis Hvalid : valid_processes processes.
Hypothesis Hidle : Idle ∉ pid <$> processes.

Local Abbreviation processes_sorted := (sorted_by arrival processes).

Lemma sjf_body_gapless st st' :
  sjf_inv processes st → sjf_gapless st →
  sjf_body processes_sorted st = Returned st' → sjf_gapless st'.
Proof.
  destruct Hvalid as (_ & Hnd & Hpos).
  intros Hinv [Hg Hend] Hbody.
  destruct (sorted_by burst (sjf_ready processes_sorted st)) as [|c rest] eqn:Hs.
  - assert (sjf_ready processes_sorted st = []) as Hr.
    { apply length_zero_iff_nil. by rewrite <- (length_sorted_by burst), Hs. }
    unfold sjf_body in Hbody. rewrite Hr in Hbody.
    destruct (list_min _) as [m|] eqn:Hm; [|done]. injection Hbody as <-.
    apply list_min_Some in Hm as [Hmin _].
    apply list_elem_of_fmap in Hmin as (pm & -> & [Hpmc Hpm]%list_elem_of_filter).
    apply elem_of_sorted_by in Hpm.
    assert (sjf_current_time st < arrival pm) as Hlater.
    { destruct (decide (arrival pm ≤ sjf_current_time st)); [|lia].
      exfalso. eapply elem_of_nil. rewrite <- Hr.
      by apply (sjf_ready_elem processes Hvalid). }
    split; simpl.
    + apply gapless_snoc. simpl. split; [done|]. split; [done|lia].
    + by rewrite timeline_end_snoc.
  - rewrite (sjf_body_run_eq processes _ _ _ Hs) in Hbody. injection Hbody as <-.
    assert (c ∈ processes) as Hc.
    { apply (sjf_ready_elem processes Hvalid st c Hinv).
      rewrite <- (elem_of_sorted_by burst), Hs. left. }
    eapply Forall_forall in Hpos; [|exact Hc].
    split; simpl.
    + apply gapless_snoc. simpl. split; [done|]. split; [done|lia].
    + by rewrite timeline_end_snoc.
Qed.

Lemma sjf_turns_gapless k st :
  turns (sjf_cond processes) (sjf_body processes_sorted) k sjf_init st →
  sjf_gapless st.
Proof.
  intros Hturns.
  assert (sjf_inv processes st ∧ sjf_gapless st) as [_ ?]; [|done].
  revert Hturns.
  apply (turns_invariant _ _ (λ s, sjf_inv processes s ∧ sjf_gapless s)).
  - intros s s' [Hinv Hg] Hc Hb. split; [|by eapply sjf_body_gapless].
    destruct (sjf_body_inv processes Hvalid Hidle s Hinv Hc) as (s'' & Hb' & ? & _).
    congruence.
  - split; [by apply sjf_init_inv|]. by split.
Qed.
End SjfCover.

(** *** Shortest remaining time first *)

Lemma close_segment_gapless timeline current start time :
  gapless 0 timeline → timeline_end 0 timeline = start →
  (is_Some current → start < time) → (current = None → start = time) →
  gapless 0 (close_segment timeline current start time)
  ∧ timeline_end 0 (close_segment timeline current start time) = time.
Proof.
  intros Hg Hend Hsome Hnone. destruct current as [c|]; unfold close_segment.
  - rewrite timeline_end_snoc. split; [|done].
    apply gapless_snoc. simpl. split; [done|]. split; [done|].
    apply Hsome. by eexists.
  - split; [done|]. by rewrite Hend, Hnone.
Qed.

Section SrtfCover.
Context (processes : list process).
Hypothesis Hvalid : valid_processes processes.
Hypothesis Hidle : Idle ∉ pid <$> processes.

Local Abbreviation processes_sorted := (sorted_by arrival processes).
Local Abbreviation n := (length processes).

Lemma srtf_body_gapless st :
  srtf_inv processes st → srtf_gapless st →
  srtf_gapless (srtf_body processes_sorted st).
Proof.
  intros Hinv [Hg Hend].
  pose proof (srtf_inv_none _ _ Hinv) as Hnone.
  pose proof (srtf_inv_some _ _ Hinv) as Hsome.
  destruct st as [remaining time timeline current segment_start completed].
  unfold srtf_gapless in *. simpl in *. unfold srtf_body.
  destruct (srtf_next_proc _ _) as [next|] eqn:Hnext; simpl.
  - assert (∀ tl0 cur0 st0,
      (if decide (current ≠ Some (pid next))
       then (close_segment timeline current segment_start time, Some (pid next), time)
       else (timeline, current, segment_start)) = (tl0, cur0, st0) →
      gapless 0 tl0 ∧ timeline_end 0 tl0 = st0 ∧ st0 < time + 1
      ∧ cur0 = Some (pid next)) as Hsw.
    { intros tl0 cur0 st0 Heq. case_decide as Hne; injection Heq as <- <- <-.
      - destruct (close_segment_gapless timeline current segment_start time)
          as [? ?]; [done..|]. repeat split; try done; lia.
      - repeat split; try done. assert (segment_start < time); [|lia].
        apply Hsome. by eexists. }
    destruct (if decide (current ≠ Some (pid next)) then _ else _) as [[tl0 cur0] st0].
    destruct (Hsw _ _ _ eq_refl) as (Hg0 & Hend0 & Hlt0 & ->).
    destruct (decide (_ !!! _ = 0)); simpl; [|done].
    apply close_segment_gapless; [done..| |done]. by intros _.
  - case_decide as Hsw; simpl; [|done].
    by apply close_segment_gapless.
Qed.

Lemma srtf_turns_gapless k st :
  turns (srtf_cond n) (srtf_turn processes_sorted) k (srtf_init processes) st →
  srtf_gapless st.
Proof.
  intros Hturns.
  assert (srtf_inv processes st ∧ srtf_gapless st) as [_ ?]; [|done].
  revert Hturns.
  apply (turns_invariant _ _ (λ s, srtf_inv processes s ∧ srtf_gapless s)).
  - intros s s' [Hinv Hg] Hc [= <-].
    split; [by apply srtf_body_inv|by apply srtf_body_gapless].
  - split; [by apply srtf_init_inv|]. by split.
Qed.
End SrtfCover.

(** *** Round robin *)

Section RrCover.
Context (processes : list process) (time_quantum : Z).
Hypothesis Hvalid : valid_processes processes.
Hypothesis Hidle : Idle ∉ pid <$> processes.
Hypothesis Hquantum : 0 < time_quantum.

Local Abbreviation processes_sorted := (sorted_by arrival processes).
Local Abbreviation n := (length processes).

Lemma rr_init_account : rr_account processes (rr_init processes).
Proof.
  destruct Hvalid as (_ & Hnd & Hpos). rewrite rr_init_eq.
  split; simpl; try done.
  - intros p Hp. rewrite remaining_init_lookup by done.
    unfold total_duration. simpl. lia.
  - intros p Hp Ha _. apply list_elem_of_filter. split; [done|].
    by apply elem_of_sorted_by.
Qed.

Lemma rr_body_account st st' :
  rr_inv processes st → rr_cond n st = true → rr_account processes st →
  rr_body processes_sorted time_quantum st = Returned st' →
  rr_account processes st'.
Proof.
  destruct Hvalid as (_ & Hnd & Hpos).
  intros Hinv Hcond [Hg Hend Hsum Hqueued] Hbody.
  destruct (rr_ready_queue st) as [|proc rest] eqn:Hq.
  - destruct (rr_body_idle processes time_quantum st Hinv Hq Hcond)
      as (p0 & Hp0 & Hlater & Hbody').
    rewrite Hbody' in Hbody. injection Hbody as <-.
    split; simpl.
    + apply gapless_snoc. simpl. split; [done|]. split; [done|lia].
    + by rewrite timeline_end_snoc.
    + intros p Hp. rewrite total_duration_snoc. simpl.
      rewrite decide_False; [specialize (Hsum p Hp); lia|].
      intros Heq. apply Hidle. rewrite Heq. by apply list_elem_of_fmap_2.
    + intros p Hp Ha Hrem. apply arrivals_between_elem. split; [done|].
      split; [|done]. destruct (decide (arrival p ≤ rr_current_time st)); [|lia].
      exfalso. eapply elem_of_nil. by apply Hqueued.
  - rewrite (rr_body_dispatch processes time_quantum Hquantum st proc rest Hinv Hq)
      in Hbody.
    injection Hbody as <-.
    destruct (rr_inv_queue _ _ Hinv proc) as (Hpin & Hpa & Hrem); [rewrite Hq; left|].
    set (exec_time := Z.min time_quantum (rr_remaining st !!! pid proc)).
    assert (0 < exec_time ≤ rr_remaining st !!! pid proc) as Hexec by lia.
    assert (pid proc ≠ Idle) as Hpi.
    { intros Heq. apply Hidle. rewrite <- Heq. by apply list_elem_of_fmap_2. }
    split; simpl.
    + apply gapless_snoc. simpl. split; [done|]. split; [done|]. fold exec_time. lia.
    + by rewrite timeline_end_snoc.
    + intros p Hp. rewrite total_duration_snoc. unfold duration. simpl.
      fold exec_time. specialize (Hsum p Hp).
      destruct (decide (pid proc = pid p)) as [Heq|Hne].
      * rewrite <- Heq, lookup_total_insert_eq. rewrite <- Heq in Hsum. lia.
      * rewrite lookup_total_insert_ne by done. lia.
    + intros p Hp Ha. fold exec_time.
      destruct (decide (p = proc)) as [->|Hne].
      * rewrite lookup_total_insert_eq. intros Hleft.
        rewrite decide_True by done. rewrite !elem_of_app. right. right. left.
      * rewrite lookup_total_insert_ne.
        2:{ intros Heq. apply Hne. symmetry. by apply (pid_inj processes). }
        intros Hleft. rewrite !elem_of_app.
        destruct (decide (arrival p ≤ rr_current_time st)) as [Hold|Hnew].
        -- left. specialize (Hqueued p Hp Hold Hleft).
           by apply elem_of_cons in Hqueued as [?|?].
        -- right. left. apply arrivals_between_elem. split; [done|lia].
Qed.

Lemma rr_turns_account k st :
  turns (rr_cond n) (rr_body processes_sorted time_quantum) k (rr_init processes) st →
  rr_account processes st.
Proof.
  intros Hturns.
  assert (rr_inv processes st ∧ rr_account processes st) as [_ ?]; [|done].
  revert Hturns.
  apply (turns_invariant _ _ (λ s, rr_inv processes s ∧ rr_account processes s)).
  - intros s s' [Hinv Hacc] Hc Hb. split; [|by eapply rr_body_account].
    destruct (rr_body_inv processes time_quantum Hvalid Hquantum s Hinv Hc)
      as (s'' & Hb' & ? & _).
    congruence.
  - split; [by apply rr_init_inv|apply rr_init_account].
Qed.

(** When the loop ends every process has arrived and has no work left. *)
Lemma rr_final st p :
  rr_inv processes st → rr_account processes st → rr_cond n st = false →
  p ∈ processes → total_duration (pid p) (rr_timeline st) = burst p.
Proof.
  intros Hinv Hacc Hcond Hp.
  apply bool_decide_eq_false in Hcond.
  assert (rr_ready_queue st = []) as Hq.
  { destruct (rr_ready_queue st); [done|]. exfalso. apply Hcond. by left. }
  assert (¬ (rr_i st < n)%nat) as Hi by tauto.
  assert (arrival p ≤ rr_current_time st) as Ha.
  { assert (p ∈ take (rr_i st) processes_sorted) as Hin.
    { rewrite take_ge; [by apply elem_of_sorted_by|]. rewrite length_sorted_by. lia. }
    rewrite (rr_inv_admitted _ _ Hinv) in Hin.
    by apply list_elem_of_filter in Hin as [? _]. }
  pose proof (rr_account_sum _ _ Hacc p Hp) as Hsum.
  pose proof (rr_inv_nonneg _ _ Hinv p Hp) as Hnn.
  destruct (decide (0 < rr_remaining st !!! pid p)) as [Hleft|Hdone]; [|lia].
  exfalso. eapply elem_of_nil. rewrite <- Hq. by apply (rr_account_queued _ _ Hacc).
Qed.
End RrCover.

(** ** The single-processor schedulers meet the duration and cover
    properties that the multi-processor script misses *)

(** On a valid input whose ids differ from the Idle owner (and, for round
    robin, a positive quantum) the segments of every process sum to its
    burst in the timeline of each of the four single-processor schedulers. *)
Lemma single_processor_durations (processes : list process) (time_quantum : Z) p :
  valid_processes processes → Idle ∉ pid <$> processes → 0 < time_quantum →
  p ∈ processes →
  total_duration (pid p) (fcfs_schedule processes) = burst p ∧
  (∃ timeline, sjf_non_preemptive_schedule processes = Returned timeline
               ∧ total_duration (pid p) timeline = burst p) ∧
  (∃ timeline, sjf_preemptive_schedule processes = Returned timeline
               ∧ total_duration (pid p) timeline = burst p) ∧
  (∃ timeline, round_robin_schedule processes time_quantum = Returned timeline
               ∧ total_duration (pid p) timeline = burst p).
Proof.
  intros Hvalid Hidle Hquantum Hp. split; [|split; [|split]].
  - apply fcfs_total; [apply Hvalid|done..].
  - destruct (sjf_returns processes Hvalid Hidle) as (final & Hwhile & Hfinal & Hend).
    exists (sjf_timeline final). unfold sjf_non_preemptive_schedule.
    rewrite Hwhile. split; [done|].
    destruct (sjf_final processes Hvalid final p Hfinal Hend Hp) as (s & _ & Hs).
    unfold total_duration. rewrite Hs. unfold duration. simpl. lia.
  - destruct (srtf_returns processes Hvalid Hidle) as (final & Hwhile & Hfinal & Hend).
    exists (srtf_timeline final). unfold sjf_preemptive_schedule.
    rewrite Hwhile. split; [done|]. by apply (srtf_final processes).
  - destruct (rr_returns processes time_quantum Hvalid Hquantum)
      as (final & Hwhile & Hfinal & Hend).
    exists (rr_timeline final). unfold round_robin_schedule.
    rewrite Hwhile. split; [done|].
    apply while_turns in Hwhile as (k & _ & Hturns & _).
    pose proof (rr_turns_account processes time_quantum Hvalid Hidle Hquantum
                  _ _ Hturns) as Hacc.
    by apply (rr_final processes).
Qed.

(** Under the same conditions each of the four timelines covers the time
    from 0 to its end without gap or overlap. *)
Lemma single_processor_gapless (processes : list process) (time_quantum : Z) :
  valid_processes processes → Idle ∉ pid <$> processes → 0 < time_quantum →
  gapless 0 (fcfs_schedule processes) ∧
  (∃ timeline, sjf_non_preemptive_schedule processes = Returned timeline
               ∧ gapless 0 timeline) ∧
  (∃ timeline, sjf_preemptive_schedule processes = Returned timeline
               ∧ gapless 0 timeline) ∧
  (∃ timeline, round_robin_schedule processes time_quantum = Returned timeline
               ∧ gapless 0 timeline).
Proof.
  intros Hvalid Hidle Hquantum. split; [|split; [|split]].
  - apply fcfs_gapless, Hvalid.
  - destruct (sjf_returns processes Hvalid Hidle) as (final & Hwhile & _ & _).
    exists (sjf_timeline final). unfold sjf_non_preemptive_schedule.
    rewrite Hwhile. split; [done|].
    apply while_turns in Hwhile as (k & _ & Hturns & _).
    by apply (sjf_turns_gapless processes Hvalid Hidle) in Hturns as [? _].
  - destruct (srtf_returns processes Hvalid Hidle) as (final & Hwhile & _ & _).
    exists (srtf_timeline final). unfold sjf_preemptive_schedule.
    rewrite Hwhile. split; [done|].
    apply while_turns in Hwhile as (k & _ & Hturns & _).
    by apply (srtf_turns_gapless processes Hvalid Hidle) in Hturns as [? _].
  - destruct (rr_returns processes time_quantum Hvalid Hquantum)
      as (final & Hwhile & _ & _).
    exists (rr_timeline final). unfold round_robin_schedule.
    rewrite Hwhile. split; [done|].
    apply while_turns in Hwhile as (k & _ & Hturns & _).
    by apply (rr_turns_account processes time_quantum Hvalid Hidle Hquantum)
      in Hturns as [? _ _ _].
Qed.

(** ** The keys of [remaining]

    The subscripts [remaining[..]] of question3.py and question4.py are
    modelled with the total lookup.  They cannot raise KeyError: the
    comprehension gives [remaining] a key for every id, and the loops only
    overwrite keys of processes of the list. *)

Lemma remaining_init_dom (processes : list process) :
  dom (remaining_init processes) = list_to_set (pid <$> processes).
Proof.
  unfold remaining_init.
  assert (∀ (m : gmap string Z),
            dom (foldl (λ m p, <[pid p := burst p]> m) m processes)
            = dom m ∪ list_to_set (pid <$> processes)) as Hgen.
  { induction processes as [|a l IH]; intros m; simpl.
    - by rewrite union_empty_r_L.
    - rewrite IH, dom_insert_L. by rewrite (comm_L _ {[pid a]}), (assoc_L _). }
  by rewrite Hgen, dom_empty_L, union_empty_l_L.
Qed.

Lemma dom_insert_present (m : gmap string Z) k v :
  k ∈ dom m → dom (<[k := v]> m) = dom m.
Proof.
  intros Hk. rewrite dom_insert_L. apply subseteq_union_1_L.
  by apply singleton_subseteq_l.
Qed.

Lemma srtf_body_keys processes_sorted st :
  (∀ p, p ∈ processes_sorted → pid p ∈ dom (srtf_remaining st)) →
  dom (srtf_remaining (srtf_body processes_sorted st)) = dom (srtf_remaining st).
Proof.
  destruct st as [remaining time timeline current segment_start completed].
  simpl. intros Hkeys. unfold srtf_body.
  destruct (srtf_next_proc _ _) as [next|] eqn:Hnext; simpl.
  - assert (pid next ∈ dom remaining) as Hin.
    { apply Hkeys. unfold srtf_next_proc, srtf_available in Hnext.
      apply min_by_Some in Hnext as [Hnext _].
      by apply list_elem_of_filter in Hnext as [_ ?]. }
    destruct (if decide (current ≠ Some (pid next)) then _ else _) as [[tl0 cur0] st0].
    destruct (decide (_ !!! _ = 0)); simpl; by apply dom_insert_present.
  - by case_decide.
Qed.

Lemma rr_body_keys processes_sorted time_quantum st st' :
  (∀ p, p ∈ rr_ready_queue st → pid p ∈ dom (rr_remaining st)) →
  rr_body processes_sorted time_quantum st = Returned st' →
  dom (rr_remaining st') = dom (rr_remaining st).
Proof.
  destruct st as [timeline current_time remaining ready_queue i].
  simpl. intros Hkeys. unfold rr_body. destruct ready_queue as [|proc rest].
  - destruct (processes_sorted !! i); [|done].
    destruct (rr_admit _ _ _ _). by intros [= <-].
  - destruct (rr_admit _ _ _ _). intros [= <-]. simpl.
    apply dom_insert_present, Hkeys. left.
Qed.

(** ** Loops that do not end *)
Section WhileDiverges.
Context {S : Type} (cond : S → bool) (body : S → outcome S).

(** A loop whose condition holds on every state that it can reach does not
    return, whatever number of turns it is granted. *)
Lemma while_not_returned (I : S → Prop) fuel st st' :
  (∀ s, I s → cond s = true) →
  (∀ s s', I s → body s = Returned s' → I s') →
  I st → while cond body fuel st ≠ Returned st'.
Proof.
  intros Hcond Hstep. revert st. induction fuel as [|fuel IH]; intros st HI; simpl.
  - by rewrite (Hcond _ HI).
  - rewrite (Hcond _ HI). destruct (body st) as [s1| |] eqn:Hb; [|done..].
    apply IH. by eapply Hstep.
Qed.

(** If moreover no turn raises, the loop is still running after any number
    of turns. *)
Lemma while_out_of_fuel (I : S → Prop) fuel st :
  (∀ s, I s → cond s = true ∧ ∃ s', body s = Returned s' ∧ I s') →
  I st → while cond body fuel st = OutOfFuel.
Proof.
  intros Hstep. revert st. induction fuel as [|fuel IH]; intros st HI; simpl;
    destruct (Hstep _ HI) as (-> & s' & Hb & HI'); [done|].
  rewrite Hb. by apply IH.
Qed.
End WhileDiverges.

(** The ids of a list form a set that is no larger than the list, and
    smaller when an id repeats or when one id is taken out. *)
Lemma size_ids_le (l : list string) :
  (size (list_to_set l : gset string) ≤ length l)%nat.
Proof.
  induction l as [|a l IH]; [by rewrite list_to_set_nil, size_empty|].
  rewrite list_to_set_cons, length_cons, size_union_alt, size_singleton.
  pose proof (subseteq_size (list_to_set l ∖ {[a]}) (list_to_set l : gset string)) as Hle.
  assert (list_to_set l ∖ {[a]} ⊆ (list_to_set l : gset string)) as Hsub
    by apply subseteq_difference_l, reflexivity.
  specialize (Hle Hsub). lia.
Qed.

Lemma size_ids_repeated (l : list string) :
  ¬ NoDup l → (size (list_to_set l : gset string) < length l)%nat.
Proof.
  induction l as [|a l IH]; intros Hnd.
  - destruct Hnd. constructor.
  - rewrite list_to_set_cons, length_cons.
    destruct (decide (a ∈ l)) as [Hin|Hout].
    + assert ({[a]} ∪ list_to_set l = (list_to_set l : gset string)) as ->.
      { apply subseteq_union_1_L, singleton_subseteq_l. by apply elem_of_list_to_set. }
      pose proof (size_ids_le l). lia.
    + assert (¬ NoDup l) as Hl.
      { intros Hl. apply Hnd. by constructor. }
      specialize (IH Hl).
      rewrite size_union_alt, size_singleton.
      pose proof (subseteq_size (list_to_set l ∖ {[a]}) (list_to_set l : gset string)) as Hle.
      assert (list_to_set l ∖ {[a]} ⊆ (list_to_set l : gset string)) as Hsub
        by apply subseteq_difference_l, reflexivity.
      specialize (Hle Hsub). lia.
Qed.

Lemma size_ids_without (l : list string) (x : string) :
  x ∈ l → (size ((list_to_set l : gset string) ∖ {[x]}) < length l)%nat.
Proof.
  intros Hx. rewrite size_difference.
  - rewrite size_singleton. pose proof (size_ids_le l).
    assert (0 < size (list_to_set l : gset string))%nat; [|lia].
    apply Nat.neq_0_lt_0. intros Hz. apply size_empty_inv in Hz.
    apply (not_elem_of_empty (C:=gset string) x). rewrite <- Hz.
    by apply elem_of_list_to_set.
  - apply singleton_subseteq_l. by apply elem_of_list_to_set.
Qed.

(** ** Inputs on which shortest remaining time first does not end *)

(** The value that the comprehension leaves under the id of a process is
    the burst of a process of the list with that id. *)
Lemma remaining_init_elem (processes : list process) p :
  p ∈ processes →
  ∃ q, q ∈ processes ∧ pid q = pid p ∧ remaining_init processes !!! pid p = burst q.
Proof.
  unfold remaining_init. induction processes as [|a l IH] using rev_ind; intros Hp.
  - by apply elem_of_nil in Hp.
  - rewrite foldl_snoc. destruct (decide (pid a = pid p)) as [Heq|Hne].
    + exists a. split; [apply elem_of_app; right; left|]. split; [done|].
      rewrite Heq. by rewrite lookup_total_insert_eq.
    + apply elem_of_app in Hp as [Hp|Hp%list_elem_of_singleton]; [|by subst].
      destruct (IH Hp) as (q & Hq & Hid & Hrem). exists q.
      split; [apply elem_of_app; by left|]. split; [done|].
      by rewrite lookup_total_insert_ne.
Qed.

Section SrtfDiverges.
Context (processes : list process).

Local Abbreviation processes_sorted := (sorted_by arrival processes).
Local Abbreviation n := (length processes).

(** Only ids of the list are ever marked complete, and an id with no work
    left to count down to zero never is. *)
Lemma srtf_body_completed (bad : string → Prop) st :
  srtf_completed st ⊆ list_to_set (pid <$> processes) →
  (∀ x, bad x → (x ∉ srtf_completed st) ∧ srtf_remaining st !!! x ≤ 0) →
  srtf_completed (srtf_body processes_sorted st) ⊆ list_to_set (pid <$> processes) ∧
  (∀ x, bad x → (x ∉ srtf_completed (srtf_body processes_sorted st))
               ∧ srtf_remaining (srtf_body processes_sorted st) !!! x ≤ 0).
Proof.
  destruct st as [remaining time timeline current segment_start completed].
  simpl. intros Hsub Hbad. unfold srtf_body.
  destruct (srtf_next_proc _ _) as [next|] eqn:Hnext; simpl.
  - assert (pid next ∈ (list_to_set (pid <$> processes) : gset string)) as Hin.
    { unfold srtf_next_proc, srtf_available in Hnext.
      apply min_by_Some in Hnext as [Hnext _].
      apply list_elem_of_filter in Hnext as [_ Hnext%elem_of_sorted_by].
      apply elem_of_list_to_set. by apply list_elem_of_fmap_2. }
    destruct (if decide (current ≠ Some (pid next)) then _ else _) as [[tl0 cur0] st0].
    destruct (decide (_ !!! _ = 0)) as [Hz|Hnz]; simpl.
    + rewrite lookup_total_insert_eq in Hz. split.
      * apply union_subseteq. split; [by apply singleton_subseteq_l|done].
      * intros x Hx. destruct (Hbad x Hx) as [Hnc Hrem].
        assert (x ≠ pid next) as Hne by (intros ->; lia).
        split.
        -- rewrite not_elem_of_union, not_elem_of_singleton. done.
        -- by rewrite lookup_total_insert_ne.
    + split; [done|]. intros x Hx. destruct (Hbad x Hx) as [Hnc Hrem].
      split; [done|]. destruct (decide (pid next = x)) as [->|Hne].
      * rewrite lookup_total_insert_eq. lia.
      * by rewrite lookup_total_insert_ne.
  - case_decide; simpl; auto.
Qed.

Lemma srtf_diverges (bad : string → Prop) (bound : gset string) fuel :
  (size bound < n)%nat →
  (∀ X : gset string,
     X ⊆ list_to_set (pid <$> processes) → (∀ x, bad x → x ∉ X) → X ⊆ bound) →
  (∀ x, bad x → remaining_init processes !!! x ≤ 0) →
  while (srtf_cond n) (srtf_turn processes_sorted) fuel (srtf_init processes)
  = OutOfFuel.
Proof.
  intros Hsize Hbound Hinit.
  apply (while_out_of_fuel _ _
    (λ st, srtf_completed st ⊆ list_to_set (pid <$> processes) ∧
           ∀ x, bad x → (x ∉ srtf_completed st) ∧ srtf_remaining st !!! x ≤ 0)).
  - intros st [Hsub Hbad]. split.
    + apply bool_decide_eq_true.
      assert (srtf_completed st ⊆ bound) as Hle.
      { apply Hbound; [done|]. intros x Hx. by apply Hbad. }
      apply subseteq_size in Hle. lia.
    + exists (srtf_body processes_sorted st). split; [done|].
      by apply srtf_body_completed.
  - simpl. split; [apply empty_subseteq|].
    intros x Hx. split; [apply not_elem_of_empty|by apply Hinit].
Qed.
End SrtfDiverges.

(** The shortest-remaining-time-first loop ends when as many ids are
    complete as the list has processes, and a process is complete when its
    counter reaches zero exactly.  With an id that occurs twice, or a burst
    that is zero or negative, the loop is still running after any number of
    turns. *)
Lemma srtf_loop_never_ends (processes : list process) fuel :
  ¬ NoDup (pid <$> processes) ∨ (∃ p, p ∈ processes ∧ burst p ≤ 0) →
  while (srtf_cond (length processes)) (srtf_turn (sorted_by arrival processes))
    fuel (srtf_init processes) = OutOfFuel.
Proof.
  intros Hbad.
  destruct (decide (NoDup (pid <$> processes))) as [Hnd|Hdup].
  - destruct Hbad as [?|(p & Hp & Hburst)]; [done|].
    apply (srtf_diverges processes (λ x, x = pid p)
             (list_to_set (pid <$> processes) ∖ {[pid p]})).
    + rewrite <- (length_fmap pid processes). apply size_ids_without.
      by apply list_elem_of_fmap_2.
    + intros X Hsub Hout x Hx. apply elem_of_difference. split; [by apply Hsub|].
      rewrite not_elem_of_singleton. intros ->. by apply (Hout (pid p)).
    + intros x ->. by rewrite remaining_init_lookup.
  - apply (srtf_diverges processes (λ _, False) (list_to_set (pid <$> processes))).
    + rewrite <- (length_fmap pid processes). by apply size_ids_repeated.
    + by intros X Hsub _.
    + by intros x [].
Qed.

(** A call of the shortest-remaining-time-first scheduler never returns
    when an id occurs twice in the list, or when a burst is zero or
    negative: no number of turns ends its loop. *)
Theorem srtf_never_returns (processes : list process) :
  ¬ NoDup (pid <$> processes) ∨ (∃ p, p ∈ processes ∧ burst p ≤ 0) →
  sjf_preemptive_schedule processes = OutOfFuel ∧
  ∀ fuel,
    while (srtf_cond (length processes)) (srtf_turn (sorted_by arrival processes))
      fuel (srtf_init processes) = OutOfFuel.
Proof.
  intros Hbad. split.
  - unfold sjf_preemptive_schedule. by rewrite srtf_loop_never_ends.
  - intros fuel. by apply srtf_loop_never_ends.
Qed.

Lemma srtf_never_returns_witness :
  sjf_preemptive_schedule [Process "P1" 0 0] = OutOfFuel.
Proof.
  apply (srtf_never_returns [Process "P1" 0 0]).
  right. exists (Process "P1" 0 0). split; [left|simpl; lia].
Defined.

(** ** Round robin without a positive quantum *)

(** The admission loop appends a prefix of the pending processes and moves
    the pointer past them. *)
Lemma rr_admit_prefix pending current_time ready_queue i :
  ∃ more, more `prefix_of` pending ∧
    rr_admit pending current_time ready_queue i
    = (ready_queue ++ more, (i + length more)%nat).
Proof.
  revert ready_queue i. induction pending as [|a l IH]; intros rq i; simpl.
  - exists []. split; [done|]. by rewrite app_nil_r, Nat.add_0_r.
  - case_decide.
    + destruct (IH (rq ++ [a]) (S i)) as (more & Hpre & ->).
      exists (a :: more). split; [by apply prefix_cons|].
      rewrite <- (assoc_L (++)). simpl. f_equal. lia.
    + exists []. split; [apply prefix_nil|]. by rewrite app_nil_r, Nat.add_0_r.
Qed.

Section RrDiverges.
Context (processes : list process) (time_quantum : Z).
Hypothesis Hpos : Forall (λ p, 0 < burst p) processes.
Hypothesis Hquantum : time_quantum ≤ 0.

Local Abbreviation processes_sorted := (sorted_by arrival processes).
Local Abbreviation n := (length processes).

Lemma rr_admit_members pending current_time ready_queue i rq' i' :
  (∀ p, p ∈ pending → p ∈ processes) →
  (∀ p, p ∈ ready_queue → p ∈ processes) →
  (i + length pending ≤ n)%nat →
  rr_admit pending current_time ready_queue i = (rq', i') →
  (∀ p, p ∈ rq' → p ∈ processes) ∧ (i' ≤ n)%nat
  ∧ ∃ more, rq' = ready_queue ++ more.
Proof.
  intros Hpend Hq Hlen Hadm.
  destruct (rr_admit_prefix pending current_time ready_queue i)
    as (more & Hpre & Heq).
  rewrite Heq in Hadm. injection Hadm as <- <-.
  split; [|split].
  - intros p [Hp|Hp]%elem_of_app; [by apply Hq|].
    apply Hpend. destruct Hpre as [rest ->]. apply elem_of_app. by left.
  - apply prefix_length in Hpre. lia.
  - by exists more.
Qed.

Lemma rr_stuck_init : processes ≠ [] → rr_stuck processes (rr_init processes).
Proof.
  intros Hne. unfold rr_init.
  destruct (rr_admit processes_sorted 0 [] 0%nat) as [rq i] eqn:Hadm.
  destruct (rr_admit_prefix processes_sorted 0 [] 0%nat) as (more & Hpre & Heq).
  rewrite Heq in Hadm. injection Hadm as <- <-. unfold rr_stuck. simpl.
  split; [|split; [|split]].
  - intros p Hp. destruct (remaining_init_elem processes p Hp) as (q & Hq & _ & Hr).
    rewrite Hr. by eapply Forall_forall in Hpos.
  - intros p Hp. apply (elem_of_sorted_by arrival).
    destruct Hpre as [rest ->]. apply elem_of_app. by left.
  - apply prefix_length in Hpre. rewrite length_sorted_by in Hpre. lia.
  - destruct more as [|a more]; [right|by left].
    simpl. destruct processes; [done|simpl; lia].
Qed.

Lemma rr_stuck_body st :
  rr_stuck processes st →
  rr_cond n st = true
  ∧ ∃ st', rr_body processes_sorted time_quantum st = Returned st'
           ∧ rr_stuck processes st'.
Proof.
  intros (Hrem & Hq & Hi & Hcond).
  split; [by apply bool_decide_eq_true|].
  destruct st as [timeline t remaining rq i]. simpl in *.
  assert (∀ p, p ∈ drop i processes_sorted → p ∈ processes) as Hdrop.
  { intros p Hp. apply (elem_of_sorted_by arrival).
    rewrite <- (take_drop i processes_sorted). apply elem_of_app. by right. }
  assert (i + length (drop i processes_sorted) ≤ n)%nat as Hlen.
  { rewrite length_drop, length_sorted_by. lia. }
  destruct rq as [|proc rest].
  - destruct Hcond as [?|Hlt]; [done|].
    destruct (lookup_lt_is_Some_2 processes_sorted i) as [p Hp].
    { by rewrite length_sorted_by. }
    rewrite Hp.
    destruct (rr_admit (drop i processes_sorted) (arrival p) [] i) as [rq' i'] eqn:Hadm.
    eexists. split; [done|].
    destruct (rr_admit_members _ _ _ _ _ _ Hdrop Hq Hlen Hadm) as (Hq' & Hi' & _).
    split; [done|]. split; [done|]. split; [done|]. left.
    cbn [rr_ready_queue].
    rewrite (drop_S _ p) in Hadm by done. simpl in Hadm.
    rewrite decide_True in Hadm by lia.
    destruct (rr_admit_prefix (drop (S i) processes_sorted) (arrival p) [p] (S i))
      as (more & _ & Heq).
    rewrite Heq in Hadm. by injection Hadm as <- <-.
  - destruct (rr_admit (drop i processes_sorted) _ rest i) as [rq' i'] eqn:Hadm.
    eexists. split; [done|].
    assert (∀ p, p ∈ rest → p ∈ processes) as Hrest
      by (intros p Hp; apply Hq; by right).
    destruct (rr_admit_members _ _ _ _ _ _ Hdrop Hrest Hlen Hadm) as (Hq' & Hi' & _).
    assert (proc ∈ processes) as Hproc by (apply Hq; left).
    pose proof (Hrem proc Hproc) as Hproc_rem.
    rewrite lookup_total_insert_eq, decide_True by lia.
    unfold rr_stuck. cbn [rr_remaining rr_ready_queue rr_i].
    split; [|split; [|split]].
    + intros p Hp. destruct (decide (pid proc = pid p)) as [Heq|Hne].
      * rewrite <- Heq, lookup_total_insert_eq. lia.
      * rewrite lookup_total_insert_ne by done. by apply Hrem.
    + intros p [Hp|Hp%list_elem_of_singleton]%elem_of_app; [by apply Hq'|by subst].
    + done.
    + left. by destruct rq'.
Qed.
End RrDiverges.

(** With a quantum of zero or less a dispatch gives the process no time
    (or takes time back), so its remaining work never shrinks and it is
    queued again every time: on a non-empty list of processes with positive
    bursts the call never returns. *)
Theorem rr_never_returns_without_quantum (processes : list process) (time_quantum : Z) :
  processes ≠ [] → Forall (λ p, 0 < burst p) processes → time_quantum ≤ 0 →
  round_robin_schedule processes time_quantum = OutOfFuel ∧
  ∀ fuel,
    while (rr_cond (length processes))
      (rr_body (sorted_by arrival processes) time_quantum)
      fuel (rr_init processes) = OutOfFuel.
Proof.
  intros Hne Hpos Hquantum.
  assert (∀ fuel,
    while (rr_cond (length processes))
      (rr_body (sorted_by arrival processes) time_quantum)
      fuel (rr_init processes) = OutOfFuel) as Hloop.
  { intros fuel. apply (while_out_of_fuel _ _ (rr_stuck processes)).
    - intros st Hst. by apply rr_stuck_body.
    - by apply rr_stuck_init. }
  split; [|done]. unfold round_robin_schedule. by rewrite Hloop.
Qed.

Lemma rr_never_returns_without_quantum_witness :
  round_robin_schedule rr_example_processes 0 = OutOfFuel.
Proof.
  apply (rr_never_returns_without_quantum rr_example_processes 0).
  - done.
  - repeat constructor.
  - lia.
Defined.

(** ** The subscripts of [remaining] *)

Lemma rr_body_members (processes : list process) time_quantum st st' :
  (∀ p, p ∈ rr_ready_queue st → p ∈ processes) →
  (rr_i st ≤ length processes)%nat →
  rr_body (sorted_by arrival processes) time_quantum st = Returned st' →
  (∀ p, p ∈ rr_ready_queue st' → p ∈ processes)
  ∧ (rr_i st' ≤ length processes)%nat.
Proof.
  destruct st as [timeline t remaining rq i]. simpl. intros Hq Hi.
  assert (∀ p, p ∈ drop i (sorted_by arrival processes) → p ∈ processes) as Hdrop.
  { intros p Hp. apply (elem_of_sorted_by arrival).
    rewrite <- (take_drop i (sorted_by arrival processes)). apply elem_of_app. by right. }
  assert (i + length (drop i (sorted_by arrival processes)) ≤ length processes)%nat
    as Hlen.
  { rewrite length_drop, length_sorted_by. lia. }
  destruct rq as [|proc rest].
  - destruct (sorted_by arrival processes !! i) as [p|]; [|done].
    destruct (rr_admit _ (arrival p) [] i) as [rq' i'] eqn:Hadm.
    intros [= <-]. simpl.
    by destruct (rr_admit_members processes _ _ _ _ _ _ Hdrop Hq Hlen Hadm)
      as (Hq' & Hi' & _).
  - destruct (rr_admit _ _ rest i) as [rq' i'] eqn:Hadm.
    intros [= <-]. simpl.
    assert (∀ p, p ∈ rest → p ∈ processes) as Hrest
      by (intros p Hp; apply Hq; by right).
    destruct (rr_admit_members processes _ _ _ _ _ _ Hdrop Hrest Hlen Hadm)
      as (Hq' & Hi' & _).
    split; [|done]. case_decide; [|done].
    intros p [Hp|Hp%list_elem_of_singleton]%elem_of_app; [by apply Hq'|].
    subst. apply Hq. left.
Qed.

(** The dictionary [remaining] of question3.py and question4.py keeps the
    ids of the process list as its keys through every turn of the loops,
    and the loops subscript it only with ids of processes of the list: no
    subscript [remaining[..]] can raise KeyError, whatever the list and the
    quantum. *)
Theorem remaining_subscripts_never_fail (processes : list process) (time_quantum : Z) :
  (∀ k st,
     turns (srtf_cond (length processes)) (srtf_turn (sorted_by arrival processes))
       k (srtf_init processes) st →
     dom (srtf_remaining st) = list_to_set (pid <$> processes) ∧
     ∀ x, x ∈ srtf_available (sorted_by arrival processes) st →
          pid x ∈ dom (srtf_remaining st)) ∧
  (∀ k st,
     turns (rr_cond (length processes))
       (rr_body (sorted_by arrival processes) time_quantum) k (rr_init processes) st →
     dom (rr_remaining st) = list_to_set (pid <$> processes) ∧
     ∀ proc, proc ∈ rr_ready_queue st → pid proc ∈ dom (rr_remaining st)).
Proof.
  assert (∀ p, p ∈ processes →
            pid p ∈ (list_to_set (pid <$> processes) : gset string)) as Hid.
  { intros p Hp. apply elem_of_list_to_set. by apply list_elem_of_fmap_2. }
  split.
  - intros k st Hturns.
    assert (dom (srtf_remaining st) = list_to_set (pid <$> processes)) as Hdom.
    { apply (turns_invariant (srtf_cond (length processes))
        (srtf_turn (sorted_by arrival processes))
        (λ st, dom (srtf_remaining st) = list_to_set (pid <$> processes))
        k (srtf_init processes) st); [|apply remaining_init_dom|done].
      intros s s' Hs _ [= <-]. rewrite srtf_body_keys; [done|].
      intros p Hp%elem_of_sorted_by. rewrite Hs. by apply Hid. }
    split; [done|]. intros x [_ Hx%elem_of_sorted_by]%list_elem_of_filter.
    rewrite Hdom. by apply Hid.
  - intros k st Hturns.
    assert (dom (rr_remaining st) = list_to_set (pid <$> processes) ∧
            (∀ p, p ∈ rr_ready_queue st → p ∈ processes) ∧
            (rr_i st ≤ length processes)%nat) as (Hdom & Hq & _).
    { apply (turns_invariant (rr_cond (length processes))
        (rr_body (sorted_by arrival processes) time_quantum)
        (λ st, dom (rr_remaining st) = list_to_set (pid <$> processes) ∧
               (∀ p, p ∈ rr_ready_queue st → p ∈ processes) ∧
               (rr_i st ≤ length processes)%nat)
        k (rr_init processes) st); [| |done].
      - intros s s' (Hs & Hq & Hi) _ Hb. split.
        + rewrite <- Hs. eapply rr_body_keys; [|done].
          intros p Hp. rewrite Hs. by apply Hid, Hq.
        + by eapply rr_body_members.
      - unfold rr_init.
        destruct (rr_admit (sorted_by arrival processes) 0 [] 0%nat) as [rq i] eqn:Hadm.
        simpl. split; [apply remaining_init_dom|].
        assert (∀ p, p ∈ sorted_by arrival processes → p ∈ processes) as Hall
          by (intros p Hp; by apply (elem_of_sorted_by arrival)).
        assert (∀ p : process, p ∈ [] → p ∈ processes) as Hnil
          by (intros p Hp; by apply elem_of_nil in Hp).
        assert (0 + length (sorted_by arrival processes) ≤ length processes)%nat
          as Hlen by (rewrite length_sorted_by; lia).
        destruct (rr_admit_members processes _ _ _ _ _ _ Hall Hnil Hlen Hadm)
          as (Hq & Hi & _).
        done. }
    split; [done|]. intros proc Hproc. rewrite Hdom. by apply Hid, Hq.
Qed.

(** ** Witnesses of the duration and cover lemmas *)

Lemma single_processor_durations_witness :
  total_duration "P1" (fcfs_schedule question2_processes) = 5.
Proof.
  apply (single_processor_durations question2_processes 2 (Process "P1" 0 5)
           question2_processes_valid question2_processes_not_idle).
  - lia.
  - left.
Defined.

Lemma single_processor_gapless_witness :
  gapless 0 (fcfs_schedule question2_processes).
Proof.
  apply (single_processor_gapless question2_processes 2
           question2_processes_valid question2_processes_not_idle).
  lia.
Defined.

(** ** The order of the input list *)
Section SortOrder.
Context {A : Type} (key : A → Z).

Lemma insert_by_comm x y l :
  key x ≠ key y →
  insert_by key x (insert_by key y l) = insert_by key y (insert_by key x l).
Proof.
  intros Hne. induction l as [|z l IH]; simpl.
  - repeat case_decide; (done || lia).
  - repeat (case_decide; simpl); try done; try lia. by rewrite IH.
Qed.

(** When the keys are pairwise distinct the sorted list does not depend on
    the order of the input. *)
Lemma sorted_by_distinct_keys l1 l2 :
  l1 ≡ₚ l2 → NoDup (key <$> l1) → sorted_by key l1 = sorted_by key l2.
Proof.
  induction 1 as [|x l1 l2 Hperm IH|x y l|l1 l2 l3 H12 IH12 H23 IH23]; intros Hnd.
  - done.
  - simpl. rewrite fmap_cons in Hnd. apply NoDup_cons in Hnd as [_ Hnd].
    by rewrite IH.
  - simpl. rewrite !fmap_cons in Hnd.
    apply NoDup_cons in Hnd as [Hy _]. apply insert_by_comm.
    intros Heq. apply Hy. rewrite Heq. left.
  - rewrite IH12 by done. apply IH23. by rewrite <- H12.
Qed.
End SortOrder.

Lemma remaining_init_distinct_ids (l1 l2 : list process) :
  l1 ≡ₚ l2 → NoDup (pid <$> l1) → remaining_init l1 = remaining_init l2.
Proof.
  unfold remaining_init. generalize (∅ : gmap string Z).
  intros m Hperm. revert m.
  induction Hperm as [|x l1 l2 Hperm IH|x y l|l1 l2 l3 H12 IH12 H23 IH23];
    intros m Hnd.
  - done.
  - simpl. rewrite fmap_cons in Hnd. apply NoDup_cons in Hnd as [_ Hnd].
    by apply IH.
  - simpl. rewrite !fmap_cons in Hnd. apply NoDup_cons in Hnd as [Hy _].
    f_equal. apply insert_insert_ne. intros Heq. apply Hy. rewrite Heq. left.
  - rewrite IH12 by done. apply IH23. by rewrite <- H12.
Qed.

Lemma sum_burst_Permutation (l1 l2 : list process) :
  l1 ≡ₚ l2 → sum_burst l1 = sum_burst l2.
Proof.
  unfold sum_burst.
  induction 1 as [|x l1 l2 Hperm IH|x y l|l1 l2 l3 H12 IH12 H23 IH23]; simpl;
    [done|lia|lia|congruence].
Qed.

Lemma sum_positive_burst_Permutation (l1 l2 : list process) :
  l1 ≡ₚ l2 → sum_positive_burst l1 = sum_positive_burst l2.
Proof.
  unfold sum_positive_burst.
  induction 1 as [|x l1 l2 Hperm IH|x y l|l1 l2 l3 H12 IH12 H23 IH23]; simpl;
    [done|lia|lia|congruence].
Qed.

Lemma max_arrival_Permutation (l1 l2 : list process) :
  l1 ≡ₚ l2 → max_arrival l1 = max_arrival l2.
Proof.
  unfold max_arrival.
  induction 1 as [|x l1 l2 Hperm IH|x y l|l1 l2 l3 H12 IH12 H23 IH23]; simpl;
    [done|lia|lia|congruence].
Qed.

(** The schedulers look at the input list only through its sort by arrival
    (stable, so that processes arriving together keep their input order),
    its length and the dictionary of bursts by id.  When the arrival times
    are pairwise distinct, listing the same processes in another order
    gives the same timeline (for shortest remaining time first and round
    robin: when the ids are distinct too); with a tie in the arrival times
    the input order decides. *)
Theorem schedule_independent_of_input_order (processes processes' : list process)
    (time_quantum : Z) :
  processes ≡ₚ processes' → NoDup (arrival <$> processes) →
  fcfs_schedule processes = fcfs_schedule processes' ∧
  sjf_non_preemptive_schedule processes = sjf_non_preemptive_schedule processes' ∧
  (NoDup (pid <$> processes) →
     sjf_preemptive_schedule processes = sjf_preemptive_schedule processes' ∧
     round_robin_schedule processes time_quantum
     = round_robin_schedule processes' time_quantum) ∧
  fcfs_schedule [Process "A" 0 1; Process "B" 0 1]
  ≠ fcfs_schedule [Process "B" 0 1; Process "A" 0 1].
Proof.
  intros Hperm Hnd.
  pose proof (sorted_by_distinct_keys arrival _ _ Hperm Hnd) as Hsorted.
  pose proof (Permutation_length Hperm) as Hlen.
  split; [|split; [|split]].
  - unfold fcfs_schedule. by rewrite Hsorted.
  - unfold sjf_non_preemptive_schedule, sjf_cond. by rewrite Hsorted, Hlen.
  - intros Hids.
    pose proof (remaining_init_distinct_ids _ _ Hperm Hids) as Hrem.
    split.
    + unfold sjf_preemptive_schedule, srtf_fuel, srtf_init.
      by rewrite Hsorted, Hlen, Hrem, (sum_burst_Permutation _ _ Hperm),
        (max_arrival_Permutation _ _ Hperm).
    + unfold round_robin_schedule, rr_fuel, rr_init.
      by rewrite Hsorted, Hlen, Hrem, (sum_positive_burst_Permutation _ _ Hperm).
  - by vm_compute.
Qed.

Lemma schedule_independent_of_input_order_witness :
  fcfs_schedule question2_processes = fcfs_schedule (reverse question2_processes).
Proof.
  apply (schedule_independent_of_input_order question2_processes
           (reverse question2_processes) 2).
  - symmetry. apply reverse_Permutation.
  - apply (bool_decide_unpack _). by vm_compute.
Defined.

(** ** First come, first served: order of service *)

Lemma fcfs_step_inv served st p :
  pid p ≠ Idle → 0 ≤ burst p → (∀ q, q ∈ served → arrival q ≤ arrival p) →
  fcfs_inv served st → fcfs_inv (served ++ [p]) (fcfs_step st p).
Proof.
  intros Hid Hburst Hsorted [Horder Hrun Hidle Hserved].
  destruct st as [t tl]. simpl in *.
  assert (∀ s, s ∈ tl → seg_id s = Idle →
            seg_start s < seg_end s ∧
            (∃ q, q ∈ served ++ [p] ∧ arrival q = seg_end s) ∧
            ∀ q, q ∈ served ++ [p] → arrival q < seg_end s →
              ∃ x, x ∈ tl ∧ seg_id x = pid q ∧ seg_end x = seg_start x + burst q
                   ∧ seg_end x ≤ seg_start s) as Hidle'.
  { intros s Hs Hsi. destruct (Hidle s Hs Hsi) as (Hlen & (p0 & Hp0 & Hp0a) & Hall).
    split; [done|]. split.
    - exists p0. split; [apply elem_of_app; by left|done].
    - intros q [Hq|Hq%list_elem_of_singleton]%elem_of_app Hqa; [by apply Hall|].
      subst q. specialize (Hsorted p0 Hp0). lia. }
  assert (∀ s, s ∈ tl → seg_id s ≠ Idle →
            ∃ q, q ∈ served ++ [p] ∧ pid q = seg_id s ∧ arrival q ≤ seg_start s
                 ∧ seg_end s = seg_start s + burst q) as Hrun'.
  { intros s Hs Hsi. destruct (Hrun s Hs Hsi) as (q & Hq & ?).
    exists q. split; [apply elem_of_app; by left|done]. }
  unfold fcfs_step. case_decide as Hwait; split; simpl.
  - rewrite !filter_app, !filter_singleton, decide_False, decide_True by (simpl; auto).
    by rewrite app_nil_r, !fmap_app, Horder.
  - intros s [[Hs|Hs%list_elem_of_singleton]%elem_of_app|Hs%list_elem_of_singleton]%elem_of_app
      Hsi; [by apply Hrun'|by subst|].
    subst s. simpl. exists p. split; [apply elem_of_app; right; left|].
    split; [done|]. split; [lia|done].
  - intros s [[Hs|Hs%list_elem_of_singleton]%elem_of_app|Hs%list_elem_of_singleton]%elem_of_app
      Hsi.
    + destruct (Hidle' s Hs Hsi) as (Hlen & Hp0 & Hall).
      split; [done|]. split; [done|]. intros q Hq Hqa.
      destruct (Hall q Hq Hqa) as (x & Hx & ?). exists x.
      split; [|done]. apply elem_of_app. left. apply elem_of_app. by left.
    + subst s. simpl. split; [done|]. split.
      * exists p. split; [apply elem_of_app; right; left|done].
      * intros q [Hq|Hq%list_elem_of_singleton]%elem_of_app Hqa; [|subst; lia].
        destruct (Hserved q Hq) as (x & Hx & ?). exists x.
        split; [|done]. apply elem_of_app. left. apply elem_of_app. by left.
    + subst s. done.
  - intros q [Hq|Hq%list_elem_of_singleton]%elem_of_app.
    + destruct (Hserved q Hq) as (x & Hx & Hxi & Hxe & Hxt). exists x.
      split; [apply elem_of_app; left; apply elem_of_app; by left|].
      split; [done|]. split; [done|lia].
    + subst q. eexists. split; [apply elem_of_app; right; left|]. simpl.
      split; [done|]. split; [done|lia].
  - rewrite !filter_app, !filter_singleton, decide_True by (simpl; auto).
    by rewrite !fmap_app, Horder.
  - intros s [Hs|Hs%list_elem_of_singleton]%elem_of_app Hsi; [by apply Hrun'|].
    subst s. simpl. exists p. split; [apply elem_of_app; right; left|].
    split; [done|]. split; [lia|done].
  - intros s [Hs|Hs%list_elem_of_singleton]%elem_of_app Hsi; [|by subst].
    destruct (Hidle' s Hs Hsi) as (Hlen & Hp0 & Hall).
    split; [done|]. split; [done|]. intros q Hq Hqa.
    destruct (Hall q Hq Hqa) as (x & Hx & ?). exists x.
    split; [|done]. apply elem_of_app. by left.
  - intros q [Hq|Hq%list_elem_of_singleton]%elem_of_app.
    + destruct (Hserved q Hq) as (x & Hx & Hxi & Hxe & Hxt). exists x.
      split; [apply elem_of_app; by left|].
      split; [done|]. split; [done|lia].
    + subst q. eexists. split; [apply elem_of_app; right; left|]. simpl.
      split; [done|]. split; [done|lia].
Qed.

Lemma fcfs_foldl_inv (l : list process) :
  Idle ∉ pid <$> l → Forall (λ p, 0 ≤ burst p) l →
  StronglySorted (λ a b, arrival a ≤ arrival b) l →
  fcfs_inv l (foldl fcfs_step (0, []) l).
Proof.
  induction l as [|p l IH] using rev_ind; intros Hidle Hburst Hsorted.
  - split; simpl; try done; intros ? Hs; by apply elem_of_nil in Hs.
  - rewrite foldl_snoc. rewrite fmap_app in Hidle.
    apply not_elem_of_app in Hidle as [Hidle Hp].
    apply Forall_app in Hburst as [Hburst Hpb].
    apply StronglySorted_app in Hsorted as (Hle & Hsorted & _).
    apply fcfs_step_inv.
    + intros Heq. apply Hp. rewrite <- Heq. simpl. left.
    + by apply (Forall_singleton (λ p, 0 ≤ burst p)) in Hpb.
    + intros q Hq. apply Hle; [done|left].
    + by apply IH.
Qed.

(** First come, first served on bursts that are not negative and ids other
    than the Idle owner: the processes are served in the order of their
    arrival, those arriving together in the order of the input list; every
    segment of a process starts no earlier than its arrival and lasts its
    burst; and an Idle segment ends with an arrival, while every process
    that arrived before that has already run to its end. *)
Theorem fcfs_serves_in_arrival_order (processes : list process) :
  Idle ∉ pid <$> processes → Forall (λ p, 0 ≤ burst p) processes →
  seg_id <$> filter (λ s, seg_id s ≠ Idle) (fcfs_schedule processes)
  = pid <$> sorted_by arrival processes ∧
  (∀ s, s ∈ fcfs_schedule processes → seg_id s ≠ Idle →
     ∃ p, p ∈ processes ∧ pid p = seg_id s ∧ arrival p ≤ seg_start s
          ∧ seg_end s = seg_start s + burst p) ∧
  (∀ s, s ∈ fcfs_schedule processes → seg_id s = Idle →
     seg_start s < seg_end s ∧
     (∃ p, p ∈ processes ∧ arrival p = seg_end s) ∧
     ∀ q, q ∈ processes → arrival q < seg_end s →
       ∃ x, x ∈ fcfs_schedule processes ∧ seg_id x = pid q
            ∧ seg_end x = seg_start x + burst q ∧ seg_end x ≤ seg_start s).
Proof.
  intros Hidle Hburst.
  destruct (fcfs_foldl_inv (sorted_by arrival processes)) as [Horder Hrun Hidl _].
  - by rewrite sorted_by_Permutation.
  - by rewrite sorted_by_Permutation.
  - apply Sorted_StronglySorted; [intros x y z ??; lia|apply sorted_by_Sorted].
  - unfold fcfs_schedule. split; [done|]. split.
    + intros s Hs Hsi. destruct (Hrun s Hs Hsi) as (p & Hp%elem_of_sorted_by & ?).
      by exists p.
    + intros s Hs Hsi.
      destruct (Hidl s Hs Hsi) as (Hlen & (p & Hp%elem_of_sorted_by & Hpa) & Hall).
      split; [done|]. split; [by exists p|].
      intros q Hq Hqa. apply Hall; [by apply elem_of_sorted_by|done].
Qed.

Lemma fcfs_serves_in_arrival_order_witness :
  seg_id <$> filter (λ s, seg_id s ≠ Idle) (fcfs_schedule question1_processes)
  = pid <$> sorted_by arrival question1_processes.
Proof.
  apply (fcfs_serves_in_arrival_order question1_processes).
  - apply (bool_decide_unpack _). by vm_compute.
  - repeat constructor; simpl; lia.
Defined.

(** ** Shortest job first on a list with a repeated id *)
Section WhileRaises.
Context {S : Type} (cond : S → bool) (body : S → outcome S).

(** A loop whose turns either raise [e] or make progress, and whose
    condition holds all along, ends by raising [e]. *)
Lemma while_raises (I : S → Prop) (m : S → nat) (e : exn) fuel st :
  (∀ s, I s →
     cond s = true ∧
     (body s = Raised e
      ∨ ∃ s', body s = Returned s' ∧ I s' ∧ (m s' < m s)%nat)) →
  I st → (m st < fuel)%nat → while cond body fuel st = Raised e.
Proof.
  intros Hstep. revert st. induction fuel as [|fuel IH]; intros st HI Hm; [lia|].
  simpl. destruct (Hstep _ HI) as [-> [->|(s' & -> & HI' & Hlt)]]; [done|].
  apply IH; [done|lia].
Qed.
End WhileRaises.

Lemma length_remove_dups_le `{EqDecision A} (l : list A) :
  (length (remove_dups l) ≤ length l)%nat.
Proof. induction l as [|a l IH]; simpl; [done|]. case_decide; simpl; lia. Qed.

Lemma length_remove_dups_lt `{EqDecision A} (l : list A) :
  ¬ NoDup l → (length (remove_dups l) < length l)%nat.
Proof.
  induction l as [|a l IH]; intros Hnd; simpl.
  - destruct Hnd. constructor.
  - pose proof (length_remove_dups_le l). case_decide as Hin; simpl; [lia|].
    assert (¬ NoDup l) as Hl by (intros Hl; apply Hnd; by constructor).
    specialize (IH Hl). lia.
Qed.

Lemma filter_length_le {A} (P Q : A → Prop) `{!∀ x, Decision (P x)}
    `{!∀ x, Decision (Q x)} (l : list A) :
  (∀ x, x ∈ l → P x → Q x) → (length (filter P l) ≤ length (filter Q l))%nat.
Proof.
  induction l as [|a l IH]; intros Himp; [done|].
  rewrite !filter_cons.
  assert (length (filter P l) ≤ length (filter Q l))%nat as Hle.
  { apply IH. intros x Hx. apply Himp. by right. }
  destruct (decide (P a)) as [HP|HP]; destruct (decide (Q a)) as [HQ|HQ]; simpl;
    try lia.
  exfalso. apply HQ, Himp; [left|done].
Qed.

Lemma filter_length_lt {A} (P Q : A → Prop) `{!∀ x, Decision (P x)}
    `{!∀ x, Decision (Q x)} (l : list A) a :
  (∀ x, x ∈ l → P x → Q x) → a ∈ l → Q a → ¬ P a →
  (length (filter P l) < length (filter Q l))%nat.
Proof.
  induction l as [|b l IH]; intros Himp Ha HQ HP.
  - by apply elem_of_nil in Ha.
  - rewrite !filter_cons.
    assert (∀ x, x ∈ l → P x → Q x) as Himp' by (intros x Hx; apply Himp; by right).
    pose proof (filter_length_le P Q l Himp') as Hle.
    apply elem_of_cons in Ha as [Heq|Ha].
    + subst b. rewrite decide_False, decide_True by done. simpl. lia.
    + specialize (IH Himp' Ha HQ HP).
      destruct (decide (P b)) as [HPb|HPb]; destruct (decide (Q b)) as [HQb|HQb];
        simpl; try lia.
      exfalso. apply HQb, Himp; [left|done].
Qed.

(** The admission loop on any list: what it leaves in the queue. *)
Lemma sjf_admit_foldl_elem completed t (ps rq : list process) p :
  p ∈ foldl (sjf_admit completed t) rq ps ↔
  p ∈ rq ∨ (p ∈ ps ∧ (pid p ∉ completed) ∧ arrival p ≤ t).
Proof.
  revert rq. induction ps as [|a ps IH]; intros rq; simpl.
  - split; [by left|]. intros [?|[?%elem_of_nil _]]; done.
  - rewrite IH. unfold sjf_admit.
    destruct (decide ((pid a ∉ completed) ∧ arrival a ≤ t)) as [Ha|Ha].
    + destruct (decide (a ∈ rq)) as [Hin|Hout].
      * split; [intros [?|(? & ?)]; [by left|right; split; [by right|done]]|].
        intros [?|([->|?]%elem_of_cons & ?)]; [by left|by left|by right].
      * rewrite elem_of_app, list_elem_of_singleton. split.
        -- intros [[?| ->]|(? & ?)]; [by left|right; split; [left|done]|].
           right. split; [by right|done].
        -- intros [?|([->|?]%elem_of_cons & ?)]; [left; by left|left; by right|by right].
    + split; [intros [?|(? & ?)]; [by left|right; split; [by right|done]]|].
      intros [?|([->|?]%elem_of_cons & ?)]; [by left|done|by right].
Qed.

Lemma sjf_admit_foldl_NoDup completed t (ps rq : list process) :
  NoDup rq → NoDup (foldl (sjf_admit completed t) rq ps).
Proof.
  revert rq. induction ps as [|a ps IH]; intros rq Hnd; simpl; [done|].
  apply IH. unfold sjf_admit. repeat case_decide; try done.
  apply NoDup_app. split; [done|]. split; [|apply NoDup_singleton].
  by intros x Hx ->%list_elem_of_singleton.
Qed.

Section SjfRepeated.
Context (processes : list process).

Local Abbreviation processes_sorted := (sorted_by arrival processes).

Lemma sjf_ready_any st p :
  p ∈ sjf_ready processes_sorted st ↔
  p ∈ sjf_ready_queue st
  ∨ (p ∈ processes ∧ (pid p ∉ sjf_completed st) ∧ arrival p ≤ sjf_current_time st).
Proof. unfold sjf_ready. by rewrite sjf_admit_foldl_elem, elem_of_sorted_by. Qed.

Lemma sjf_fresh_ids_pos st p :
  p ∈ processes → pid p ∉ sjf_completed st → (0 < sjf_fresh_ids processes st)%nat.
Proof.
  intros Hp Hc. unfold sjf_fresh_ids.
  assert (pid p ∈ filter (λ i, i ∉ sjf_completed st) (remove_dups (pid <$> processes)))
    as Hin.
  { apply list_elem_of_filter. split; [done|].
    apply elem_of_remove_dups. by apply list_elem_of_fmap_2. }
  destruct (filter _ _); [by apply elem_of_nil in Hin|simpl; lia].
Qed.

(** A turn on any input: it raises ValueError, or it returns and fewer
    turns are left. *)
Lemma sjf_body_any st :
  sjf_queue_inv processes st →
  sjf_body processes_sorted st = Raised ValueError
  ∨ ∃ st', sjf_body processes_sorted st = Returned st'
           ∧ sjf_queue_inv processes st'
           ∧ (sjf_turns_left processes st' < sjf_turns_left processes st)%nat.
Proof.
  intros [Hmem Hnd Hsub].
  pose proof (sjf_ready_any st) as Hready.
  assert (NoDup (sjf_ready processes_sorted st)) as Hrnd
    by by apply sjf_admit_foldl_NoDup.
  assert (∀ p, p ∈ sjf_ready processes_sorted st → p ∈ processes) as Hrmem.
  { intros p [Hp|(Hp & _)]%Hready; [by apply Hmem|done]. }
  unfold sjf_turns_left, sjf_fresh_ready at 2.
  unfold sjf_body.
  destruct (sjf_ready processes_sorted st) as [|r0 ready] eqn:HR.
  - (* nothing is ready *)
    assert (sjf_ready_queue st = []) as Hq.
    { destruct (sjf_ready_queue st) as [|q0 rq]; [done|].
      exfalso. eapply elem_of_nil. apply Hready. left. left. }
    destruct (list_min _) as [next_arrival|] eqn:Hmin; [right|by left].
    eexists. split; [done|]. split.
    { split; simpl; [by intros p ?%elem_of_nil|constructor|done]. }
    apply list_min_Some in Hmin as [Hin _].
    apply list_elem_of_fmap in Hin as (p & -> & [Hfresh Hp%elem_of_sorted_by]%list_elem_of_filter).
    rewrite decide_False by (by intros ?%Exists_nil).
    unfold sjf_fresh_ready. rewrite decide_True.
    2:{ apply Exists_exists. exists p. split; [|done].
        apply sjf_ready_any. right. simpl. split; [done|]. split; [done|lia]. }
    pose proof (sjf_fresh_ids_pos st p Hp Hfresh) as Hpos.
    set (st' := SjfState _ _ _ _).
    assert (sjf_fresh_ids processes st' = sjf_fresh_ids processes st) as -> by done.
    assert (sjf_pending processes st' = sjf_pending processes st) as ->.
    { unfold sjf_pending. simpl. by rewrite Hq. }
    lia.
  - (* a process runs *)
    right.
    pose proof (sorted_by_Permutation burst (r0 :: ready)) as Hperm.
    destruct (sorted_by burst (r0 :: ready)) as [|x rest] eqn:Hsort.
    { by apply Permutation_nil_cons in Hperm. }
    eexists. split; [done|].
    assert (NoDup (x :: rest)) as Hxnd by by rewrite Hperm.
    apply NoDup_cons in Hxnd as [Hxrest Hrestnd].
    assert (∀ p, p ∈ x :: rest ↔ p ∈ r0 :: ready) as Helem
      by (intros p; by rewrite Hperm).
    assert (x ∈ processes) as Hx by (apply Hrmem, Helem; left).
    assert (x ∈ sjf_ready_queue st ∨ pid x ∉ sjf_completed st) as HPx.
    { destruct (proj1 (Hready x)) as [?|(_ & ? & _)]; [apply Helem; left|by left|by right]. }
    split.
    { split; simpl.
      - intros p Hp. apply Hrmem, Helem. by right.
      - done.
      - apply union_subseteq. split; [|done]. apply singleton_subseteq_l.
        apply elem_of_list_to_set. by apply list_elem_of_fmap_2. }
    (* the measure *)
    assert (sjf_pending processes
              (SjfState (sjf_timeline st
                           ++ [Segment (pid x) (sjf_current_time st)
                                 (sjf_current_time st + burst x)])
                 rest (sjf_current_time st + burst x) ({[pid x]} ∪ sjf_completed st))
            < sjf_pending processes st)%nat as Hpending.
    { unfold sjf_pending. simpl. apply (filter_length_lt _ _ _ x).
      - intros p _ [Hp|Hp].
        + destruct (proj1 (Hready p)) as [?|(_ & ? & _)];
            [apply Helem; by right|by left|by right].
        + right. intros Hc. apply Hp. apply elem_of_union. by right.
      - by apply elem_of_remove_dups.
      - done.
      - intros [?|Hn]; [done|]. apply Hn. apply elem_of_union. left.
        by apply elem_of_singleton. }
    assert (sjf_fresh_ids processes
              (SjfState (sjf_timeline st
                           ++ [Segment (pid x) (sjf_current_time st)
                                 (sjf_current_time st + burst x)])
                 rest (sjf_current_time st + burst x) ({[pid x]} ∪ sjf_completed st))
            ≤ sjf_fresh_ids processes st)%nat as Hids.
    { unfold sjf_fresh_ids. simpl. apply filter_length_le.
      intros i _ Hi Hc. apply Hi. apply elem_of_union. by right. }
    set (st' := SjfState _ rest _ _) in *.
    destruct (decide (pid x ∈ sjf_completed st)) as [Hstale|Hfresh].
    + (* its id was complete already *)
      destruct (decide (Exists _ (r0 :: ready))) as [Hex|Hex].
      * apply Exists_exists in Hex as (p & Hp & Hpf).
        assert (p ∈ rest) as Hprest.
        { apply Helem in Hp. apply elem_of_cons in Hp as [->|Hp]; [done|done]. }
        unfold sjf_fresh_ready. rewrite decide_True.
        2:{ apply Exists_exists. exists p. split.
            - apply sjf_ready_any. by left.
            - simpl. intros [Hc%elem_of_singleton|Hc]%elem_of_union; [|done].
              apply Hpf. by rewrite Hc. }
        pose proof (sjf_fresh_ids_pos st p (Hrmem p Hp) Hpf). lia.
      * lia.
    + (* its id is new *)
      assert (sjf_fresh_ids processes st' < sjf_fresh_ids processes st)%nat as Hids'.
      { unfold sjf_fresh_ids. simpl. apply (filter_length_lt _ _ _ (pid x)).
        - intros i _ Hi Hc. apply Hi. apply elem_of_union. by right.
        - apply elem_of_remove_dups. by apply list_elem_of_fmap_2.
        - done.
        - intros Hn. apply Hn. apply elem_of_union. left. by apply elem_of_singleton. }
      unfold sjf_fresh_ready. repeat case_decide; lia.
Qed.
End SjfRepeated.

(** When an id occurs twice in the list, the set of completed ids can
    never grow to the length of the list; the loop goes on until no process
    is left to wait for, and [min] is called on an empty sequence. *)
Lemma sjf_loop_raises (processes : list process) :
  ¬ NoDup (pid <$> processes) →
  while (sjf_cond processes) (sjf_body (sorted_by arrival processes))
    (2 * length processes) sjf_init = Raised ValueError.
Proof.
  intros Hdup.
  apply (while_raises _ _ (sjf_queue_inv processes) (sjf_turns_left processes)
             ValueError).
  - intros st Hinv. split; [|by apply sjf_body_any].
    apply bool_decide_eq_true.
    pose proof (subseteq_size _ _ (sjf_queue_completed _ _ Hinv)) as Hle.
    pose proof (size_ids_repeated _ Hdup) as Hlt.
    rewrite length_fmap in Hlt. lia.
  - split; simpl; [by intros p ?%elem_of_nil|constructor|apply empty_subseteq].
  - assert (sjf_fresh_ids processes sjf_init ≤ length (remove_dups (pid <$> processes)))%nat
      as Ha by apply length_filter.
    assert (sjf_pending processes sjf_init ≤ length (remove_dups processes))%nat
      as Hb by apply length_filter.
    pose proof (length_remove_dups_lt _ Hdup) as Ha'.
    pose proof (length_remove_dups_le processes) as Hb'.
    rewrite length_fmap in Ha'. unfold sjf_turns_left. lia.
Qed.

(** A call of the non-preemptive shortest-job-first scheduler on a list in
    which an id occurs twice raises ValueError, whatever the arrival times
    and bursts. *)
Theorem sjf_raises_on_repeated_id (processes : list process) :
  ¬ NoDup (pid <$> processes) →
  sjf_non_preemptive_schedule processes = Raised ValueError.
Proof.
  intros Hdup. unfold sjf_non_preemptive_schedule.
  by rewrite sjf_loop_raises.
Qed.

Lemma sjf_raises_on_repeated_id_witness :
  sjf_non_preemptive_schedule [Process "A" 0 1; Process "A" 0 2] = Raised ValueError.
Proof.
  apply (sjf_raises_on_repeated_id [Process "A" 0 1; Process "A" 0 2]).
  apply (bool_decide_unpack _). by vm_compute.
Defined.

(** ** Round robin: the slices of a process *)
Section RrSlices.
Context (processes : list process) (time_quantum : Z).
Hypothesis Hvalid : valid_processes processes.
Hypothesis Hidle : Idle ∉ pid <$> processes.
Hypothesis Hquantum : 0 < time_quantum.

Local Abbreviation processes_sorted := (sorted_by arrival processes).
Local Abbreviation n := (length processes).

Lemma rr_init_slices : rr_slices processes time_quantum (rr_init processes).
Proof.
  destruct Hvalid as (_ & Hnd & Hpos). rewrite rr_init_eq.
  intros p Hp. simpl. left. rewrite remaining_init_lookup by done.
  eapply Forall_forall in Hpos; [|done]. rewrite filter_nil. simpl.
  split; [lia|]. split; [constructor|lia].
Qed.

Lemma rr_body_slices st st' :
  rr_inv processes st → rr_cond n st = true → rr_slices processes time_quantum st →
  rr_body processes_sorted time_quantum st = Returned st' →
  rr_slices processes time_quantum st'.
Proof.
  destruct Hvalid as (_ & Hnd & Hpos).
  intros Hinv Hcond Hslices Hbody.
  destruct (rr_ready_queue st) as [|proc rest] eqn:Hq.
  - destruct (rr_body_idle processes time_quantum st Hinv Hq Hcond)
      as (p0 & Hp0 & Hlater & Hbody').
    rewrite Hbody' in Hbody. injection Hbody as <-.
    intros p Hp. simpl. rewrite filter_id_snoc_ne; [by apply Hslices|].
    simpl. intros Heq. apply Hidle. rewrite Heq. by apply list_elem_of_fmap_2.
  - rewrite (rr_body_dispatch processes time_quantum Hquantum st proc rest Hinv Hq)
      in Hbody.
    injection Hbody as <-.
    destruct (rr_inv_queue _ _ Hinv proc) as (Hpin & Hpa & Hrem); [rewrite Hq; left|].
    intros p Hp. simpl. specialize (Hslices p Hp).
    destruct (decide (pid proc = pid p)) as [Heq|Hne].
    + rewrite filter_id_snoc_eq by done.
      rewrite <- Heq, lookup_total_insert_eq. rewrite <- Heq in Hslices.
      assert (proc = p) as -> by by apply (pid_inj processes).
      destruct Hslices as [(_ & Hfull & Hsum)|[Hzero _]]; [|lia].
      destruct (decide (rr_remaining st !!! pid p ≤ time_quantum)) as [Hlast|Hmore].
      * right. rewrite Z.min_r by done. split; [lia|].
        eexists _, _. split; [done|]. split; [done|].
        unfold duration. simpl. split; lia.
      * left. rewrite Z.min_l by lia. split; [lia|]. split.
        -- apply Forall_app. split; [done|]. apply Forall_singleton.
           unfold duration. simpl. lia.
        -- rewrite length_app. simpl. lia.
    + rewrite filter_id_snoc_ne by done.
      by rewrite lookup_total_insert_ne.
Qed.

Lemma rr_turns_slices k st :
  turns (rr_cond n) (rr_body processes_sorted time_quantum) k (rr_init processes) st →
  rr_slices processes time_quantum st.
Proof.
  intros Hturns.
  assert (rr_inv processes st ∧ rr_slices processes time_quantum st) as [_ ?]; [|done].
  revert Hturns.
  apply (turns_invariant _ _
           (λ s, rr_inv processes s ∧ rr_slices processes time_quantum s)).
  - intros s s' [Hinv Hsl] Hc Hb. split; [|by eapply rr_body_slices].
    destruct (rr_body_inv processes time_quantum Hvalid Hquantum s Hinv Hc)
      as (s'' & Hb' & ? & _).
    congruence.
  - split; [by apply rr_init_inv|apply rr_init_slices].
Qed.
End RrSlices.

(** Round robin on a valid input (ids other than the Idle owner, positive
    quantum) dispatches a process of burst b exactly ceil(b / quantum)
    times: first floor((b - 1) / quantum) slices of a full quantum each, and
    then one last slice with what is left, between one unit and a quantum. *)
Theorem rr_cuts_burst_into_quanta (processes : list process) (time_quantum : Z) :
  valid_processes processes → Idle ∉ pid <$> processes → 0 < time_quantum →
  ∃ timeline,
    round_robin_schedule processes time_quantum = Returned timeline ∧
    ∀ p, p ∈ processes →
      ∃ full lst,
        filter (λ s, seg_id s = pid p) timeline = full ++ [lst] ∧
        Forall (λ s, duration s = time_quantum) full ∧
        Z.of_nat (length full) = (burst p - 1) / time_quantum ∧
        duration lst = burst p - time_quantum * ((burst p - 1) / time_quantum) ∧
        0 < duration lst ≤ time_quantum.
Proof.
  intros Hvalid Hidle Hquantum.
  destruct (rr_returns processes time_quantum Hvalid Hquantum)
    as (final & Hwhile & Hfinal & Hend).
  exists (rr_timeline final). unfold round_robin_schedule.
  rewrite Hwhile. split; [done|].
  apply while_turns in Hwhile as (k & _ & Hturns & _).
  pose proof (rr_turns_account processes time_quantum Hvalid Hidle Hquantum
                _ _ Hturns) as Hacc.
  pose proof (rr_turns_slices processes time_quantum Hvalid Hidle Hquantum
                _ _ Hturns) as Hslices.
  intros p Hp.
  pose proof (rr_final processes final p Hfinal Hacc Hend Hp) as Htotal.
  pose proof (rr_account_sum _ _ Hacc p Hp) as Hsum.
  destruct (Hslices p Hp) as [(Hleft & _)|(_ & full & lst & Heq & Hfull & Hlst & Hburst)];
    [lia|].
  exists full, lst. split; [done|]. split; [done|].
  assert (Z.of_nat (length full) = (burst p - 1) / time_quantum) as Hlen.
  { apply (Z.div_unique _ _ _ (duration lst - 1)); lia. }
  split; [done|]. split; [|done]. rewrite <- Hlen. lia.
Qed.

Lemma rr_cuts_burst_into_quanta_witness :
  ∃ timeline,
    round_robin_schedule question2_processes 2 = Returned timeline ∧
    ∀ p, p ∈ question2_processes →
      ∃ full lst,
        filter (λ s, seg_id s = pid p) timeline = full ++ [lst] ∧
        Forall (λ s, duration s = 2) full ∧
        Z.of_nat (length full) = (burst p - 1) / 2 ∧
        duration lst = burst p - 2 * ((burst p - 1) / 2) ∧
        0 < duration lst ≤ 2.
Proof.
  apply (rr_cuts_burst_into_quanta question2_processes 2
           question2_processes_valid question2_processes_not_idle).
  lia.
Defined.

(** ** Round robin on any input: the fuel is enough *)
Section WhileTurns.
Context {S : Type} (cond : S → bool) (body : S → outcome S).

Lemma while_of_turns k fuel st st' :
  turns cond body k st st' → cond st' = false → (k ≤ fuel)%nat →
  while cond body fuel st = Returned st'.
Proof.
  intros Hturns Hend. revert fuel.
  induction Hturns as [st|k st s1 st' Hc Hb _ IH]; intros fuel Hk.
  - destruct fuel; simpl; by rewrite Hend.
  - destruct fuel as [|fuel]; [lia|]. simpl. rewrite Hc, Hb. apply IH; [done|lia].
Qed.

Lemma while_raised_turns fuel st e :
  while cond body fuel st = Raised e →
  ∃ k s, turns cond body k st s ∧ cond s = true ∧ body s = Raised e.
Proof.
  revert st. induction fuel as [|fuel IH]; intros st; simpl.
  - by destruct (cond st).
  - destruct (cond st) eqn:Hc; [|done].
    destruct (body st) as [s1|e'|] eqn:Hb; [|intros [= ->]|done].
    + intros (k & s & Ht & Hcs & Hbs)%IH. exists (Datatypes.S k), s.
      split; [by eapply turns_S|done].
    + exists 0%nat, st. split; [constructor|done].
Qed.
End WhileTurns.

Lemma positive_work_nonneg (m : gmap string Z) : 0 ≤ positive_work m.
Proof.
  unfold positive_work.
  apply (map_fold_weak_ind (λ r _, 0 ≤ r)); [done|]. intros i x m' r _ Hr. lia.
Qed.

Lemma positive_work_fresh (m : gmap string Z) k v :
  m !! k = None → positive_work (<[k := v]> m) = Z.max 0 v + positive_work m.
Proof.
  intros Hk. unfold positive_work. rewrite map_fold_insert_L; [done| |done].
  intros. lia.
Qed.

Lemma positive_work_insert (m : gmap string Z) k v :
  k ∈ dom m →
  positive_work (<[k := v]> m) = positive_work m - Z.max 0 (m !!! k) + Z.max 0 v.
Proof.
  intros [v0 Hv0]%elem_of_dom. rewrite (lookup_total_correct _ _ _ Hv0).
  rewrite <- insert_delete_eq, positive_work_fresh by apply lookup_delete_eq.
  unfold positive_work at 2.
  rewrite (map_fold_delete_L _ _ k v0 m); [|intros; lia|done].
  fold (positive_work (delete k m)). lia.
Qed.

Lemma sum_positive_burst_snoc (l : list process) a :
  sum_positive_burst (l ++ [a]) = sum_positive_burst l + Z.max 0 (burst a).
Proof. unfold sum_positive_burst. induction l; simpl; lia. Qed.

Lemma positive_work_init (processes : list process) :
  positive_work (remaining_init processes) ≤ sum_positive_burst processes.
Proof.
  unfold remaining_init. induction processes as [|a l IH] using rev_ind; [done|].
  rewrite foldl_snoc, sum_positive_burst_snoc.
  set (m := foldl _ ∅ l) in *.
  destruct (m !! pid a) as [v0|] eqn:Hk.
  - rewrite positive_work_insert by (apply elem_of_dom; by eexists). lia.
  - rewrite positive_work_fresh by done. lia.
Qed.

Section RrAny.
Context (processes : list process) (time_quantum : Z).

Local Abbreviation processes_sorted := (sorted_by arrival processes).
Local Abbreviation n := (length processes).

Lemma rr_any_init : rr_any_inv processes (rr_init processes).
Proof.
  unfold rr_init.
  destruct (rr_admit processes_sorted 0 [] 0%nat) as [rq i] eqn:Hadm.
  assert (∀ p, p ∈ processes_sorted → p ∈ processes) as Hall
    by (intros p Hp; by apply (elem_of_sorted_by arrival)).
  assert (∀ p : process, p ∈ [] → p ∈ processes) as Hnil
    by (intros p Hp; by apply elem_of_nil in Hp).
  assert (0 + length processes_sorted ≤ n)%nat as Hlen
    by (rewrite length_sorted_by; lia).
  destruct (rr_admit_members processes _ _ _ _ _ _ Hall Hnil Hlen Hadm)
    as (Hq & Hi & _).
  split; simpl; [done|done|apply remaining_init_dom].
Qed.

Lemma rr_any_body st st' :
  rr_any_inv processes st →
  rr_body processes_sorted time_quantum st = Returned st' →
  rr_any_inv processes st'.
Proof.
  intros [Hq Hi Hdom] Hb.
  destruct (rr_body_members processes time_quantum st st' Hq Hi Hb) as [Hq' Hi'].
  split; [done|done|]. rewrite <- Hdom. eapply rr_body_keys; [|done].
  intros p Hp. rewrite Hdom. apply elem_of_list_to_set.
  by apply list_elem_of_fmap_2, Hq.
Qed.

(** A turn never raises; it leaves fewer turns to take, unless the quantum
    is not positive and a process with work left is queued again. *)
Lemma rr_potential_step st :
  rr_any_inv processes st → rr_cond n st = true →
  ∃ st', rr_body processes_sorted time_quantum st = Returned st' ∧
    ((rr_potential processes st' < rr_potential processes st)%nat
     ∨ (time_quantum ≤ 0 ∧ rr_doomed st')).
Proof.
  intros [Hq Hi Hdom] Hcond%bool_decide_eq_true.
  destruct st as [timeline t remaining rq i]. simpl in *.
  assert (∀ p, p ∈ drop i processes_sorted → p ∈ processes) as Hdrop.
  { intros p Hp. apply (elem_of_sorted_by arrival).
    rewrite <- (take_drop i processes_sorted). apply elem_of_app. by right. }
  assert (i + length (drop i processes_sorted) ≤ n)%nat as Hlen.
  { rewrite length_drop, length_sorted_by. lia. }
  unfold rr_potential.
  destruct rq as [|proc rest].
  - destruct Hcond as [?|Hlt]; [done|].
    destruct (lookup_lt_is_Some_2 processes_sorted i) as [p Hp].
    { by rewrite length_sorted_by. }
    rewrite Hp.
    destruct (rr_admit (drop i processes_sorted) (arrival p) [] i) as [rq' i'] eqn:Hadm.
    eexists. split; [done|]. left.
    destruct (rr_admit_members processes _ _ _ _ _ _ Hdrop Hq Hlen Hadm) as (_ & Hi' & _).
    rewrite (drop_S _ p) in Hadm by done. simpl in Hadm.
    rewrite decide_True in Hadm by lia.
    destruct (rr_admit_prefix (drop (S i) processes_sorted) (arrival p) [p] (S i))
      as (more & _ & Heq).
    rewrite Heq in Hadm. injection Hadm as <- <-. simpl in *. lia.
  - destruct (rr_admit (drop i processes_sorted) _ rest i) as [rq' i'] eqn:Hadm.
    eexists. split; [done|].
    assert (∀ p, p ∈ rest → p ∈ processes) as Hrest
      by (intros p Hp; apply Hq; by right).
    destruct (rr_admit_members processes _ _ _ _ _ _ Hdrop Hrest Hlen Hadm)
      as (_ & Hi' & _).
    destruct (rr_admit_prefix (drop i processes_sorted)
                (t + Z.min time_quantum (remaining !!! pid proc)) rest i)
      as (more & _ & Heq).
    rewrite Heq in Hadm. injection Hadm as <- <-.
    assert (pid proc ∈ dom remaining) as Hkey.
    { rewrite Hdom. apply elem_of_list_to_set, list_elem_of_fmap_2, Hq. left. }
    rewrite lookup_total_insert_eq.
    cbn [rr_i rr_ready_queue rr_remaining].
    rewrite positive_work_insert by done.
    pose proof (positive_work_nonneg remaining) as Hnn.
    pose proof (positive_work_nonneg
                  (<[pid proc := remaining !!! pid proc
                                 - Z.min time_quantum (remaining !!! pid proc)]>
                     remaining)) as Hnn'.
    rewrite positive_work_insert in Hnn' by done.
    set (rem := remaining !!! pid proc) in *.
    destruct (decide (0 < rem - Z.min time_quantum rem)) as [Hleft|Hdone].
    + destruct (decide (0 < time_quantum)) as [Hpos|Hnonpos].
      * left. rewrite !length_app in *. simpl. lia.
      * right. split; [lia|]. unfold rr_doomed. simpl.
        apply Exists_app. right. apply Exists_cons. left.
        rewrite lookup_total_insert_eq. by fold rem.
    + left. rewrite !length_app in *. simpl. lia.
Qed.

Lemma rr_doomed_cond st : rr_doomed st → rr_cond n st = true.
Proof.
  intros Hd. apply bool_decide_eq_true. left. intros Hq.
  unfold rr_doomed in Hd. rewrite Hq in Hd. by apply Exists_nil in Hd.
Qed.

Lemma rr_doomed_body st st' :
  time_quantum ≤ 0 → rr_doomed st →
  rr_body processes_sorted time_quantum st = Returned st' → rr_doomed st'.
Proof.
  intros Hquantum (p & Hp & Hrem)%Exists_exists.
  destruct st as [timeline t remaining rq i]. simpl in *.
  destruct rq as [|proc rest]; [by apply elem_of_nil in Hp|].
  destruct (rr_admit (drop i processes_sorted) _ rest i) as [rq' i'] eqn:Hadm.
  destruct (rr_admit_prefix (drop i processes_sorted)
              (t + Z.min time_quantum (remaining !!! pid proc)) rest i)
    as (more & _ & Heq).
  rewrite Heq in Hadm. injection Hadm as <- <-.
  intros [= <-]. unfold rr_doomed. simpl.
  rewrite lookup_total_insert_eq.
  destruct (decide (pid p = pid proc)) as [Hsame|Hother].
  - rewrite Hsame in Hrem. rewrite decide_True by lia.
    apply Exists_app. right. apply Exists_cons. left.
    rewrite lookup_total_insert_eq. lia.
  - assert (p ∈ rest) as Hrest.
    { apply elem_of_cons in Hp as [->|Hp]; done. }
    assert (0 < <[pid proc := remaining !!! pid proc
                     - Z.min time_quantum (remaining !!! pid proc)]> remaining
                !!! pid p) as Hrem'.
    { by rewrite lookup_total_insert_ne. }
    case_decide; repeat (apply Exists_app; left);
      apply Exists_exists; by exists p.
Qed.

Lemma rr_doomed_turns k st st' :
  time_quantum ≤ 0 → rr_doomed st →
  turns (rr_cond n) (rr_body processes_sorted time_quantum) k st st' →
  rr_doomed st'.
Proof.
  intros Hquantum Hd Hturns. revert Hd.
  induction Hturns as [|k s s1 s' Hc Hb _ IH]; [done|].
  intros Hd. apply IH. by eapply rr_doomed_body.
Qed.

(** A run that ends takes no more turns than the potential of the state it
    starts from. *)
Lemma rr_turns_bounded k st st' :
  turns (rr_cond n) (rr_body processes_sorted time_quantum) k st st' →
  rr_cond n st' = false → rr_any_inv processes st →
  (k ≤ rr_potential processes st)%nat.
Proof.
  intros Hturns Hend. induction Hturns as [|k s s1 s' Hc Hb Hrest IH]; intros Hinv.
  - lia.
  - destruct (rr_potential_step s Hinv Hc) as (s2 & Hb2 & Hstep).
    assert (s2 = s1) as -> by congruence.
    destruct Hstep as [Hlt|[Hquantum Hd]].
    + assert (k ≤ rr_potential processes s1)%nat; [|lia].
      apply IH; [done|]. by eapply rr_any_body.
    + pose proof (rr_doomed_turns _ _ _ Hquantum Hd Hrest) as Hd'.
      apply rr_doomed_cond in Hd'. congruence.
Qed.

Lemma rr_potential_init :
  (rr_potential processes (rr_init processes) ≤ rr_fuel processes)%nat.
Proof.
  unfold rr_init, rr_potential, rr_fuel.
  destruct (rr_admit_prefix processes_sorted 0 [] 0%nat) as (more & Hpre & ->).
  simpl.
  pose proof (positive_work_init processes).
  pose proof (positive_work_nonneg (remaining_init processes)).
  apply prefix_length in Hpre. rewrite length_sorted_by in Hpre. lia.
Qed.

Lemma rr_turns_any_inv k st :
  turns (rr_cond n) (rr_body processes_sorted time_quantum) k (rr_init processes) st →
  rr_any_inv processes st.
Proof.
  apply turns_invariant; [|apply rr_any_init].
  intros s s' Hs _ Hb. by eapply rr_any_body.
Qed.
End RrAny.

(** The fuel of the round-robin model is enough on every list and for
    every quantum: a run of the loop that ends, ends within [rr_fuel]
    turns, and no turn raises; so the model runs out of fuel only where the
    loop goes on for ever. *)
Lemma rr_fuel_enough (processes : list process) (time_quantum : Z) :
  (∀ fuel st,
     while (rr_cond (length processes))
       (rr_body (sorted_by arrival processes) time_quantum) fuel (rr_init processes)
     = Returned st →
     while (rr_cond (length processes))
       (rr_body (sorted_by arrival processes) time_quantum) (rr_fuel processes)
       (rr_init processes)
     = Returned st) ∧
  (∀ fuel e,
     while (rr_cond (length processes))
       (rr_body (sorted_by arrival processes) time_quantum) fuel (rr_init processes)
     ≠ Raised e).
Proof.
  split.
  - intros fuel st (k & _ & Hturns & Hend)%while_turns.
    apply (while_of_turns _ _ k); [done|done|].
    etrans; [|apply rr_potential_init].
    eapply rr_turns_bounded; [done|done|apply rr_any_init].
  - intros fuel e (k & s & Hturns & Hc & Hb)%while_raised_turns.
    pose proof (rr_turns_any_inv _ _ _ _ Hturns) as Hinv.
    destruct (rr_potential_step processes time_quantum s Hinv Hc) as (s' & Hb' & _).
    congruence.
Qed.

(** With a positive quantum the loop ends on every list of processes. *)
Lemma rr_returns_any (processes : list process) (time_quantum : Z) :
  0 < time_quantum →
  ∃ st,
    while (rr_cond (length processes))
      (rr_body (sorted_by arrival processes) time_quantum) (rr_fuel processes)
      (rr_init processes)
    = Returned st.
Proof.
  intros Hquantum.
  destruct (while_returns (rr_cond (length processes))
              (rr_body (sorted_by arrival processes) time_quantum)
              (rr_any_inv processes) (rr_potential processes)
              (rr_fuel processes) (rr_init processes)) as (st & Hw & _).
  - intros s Hs Hc.
    destruct (rr_potential_step processes time_quantum s Hs Hc)
      as (s' & Hb & [Hlt|[? _]]); [|lia].
    exists s'. split; [done|]. split; [by eapply rr_any_body|done].
  - apply rr_any_init.
  - apply rr_potential_init.
  - by exists st.
Qed.

(** ** Shortest job first on any input: the fuel is enough *)

(** On distinct ids the loop ends, whatever the arrival times and bursts. *)
Lemma sjf_returns_distinct (processes : list process) :
  NoDup (pid <$> processes) →
  ∃ st,
    while (sjf_cond processes) (sjf_body (sorted_by arrival processes))
      (2 * length processes) sjf_init = Returned st
    ∧ sjf_queue_inv processes st ∧ sjf_cond processes st = false.
Proof.
  intros Hnd.
  apply (while_returns _ _ (sjf_queue_inv processes) (sjf_turns_left processes)).
  - intros st Hinv Hcond.
    destruct (sjf_body_any processes st Hinv) as [Hraise|Hstep]; [|done].
    exfalso. apply bool_decide_eq_true in Hcond.
    destruct (incomplete_exists _ _ Hnd (sjf_queue_completed _ _ Hinv) Hcond)
      as (p0 & Hp0 & Hp0c).
    unfold sjf_body in Hraise.
    destruct (sjf_ready _ st) as [|r0 ready].
    + destruct (list_min _) as [m|] eqn:Hm; [done|].
      apply list_min_None, fmap_nil_inv in Hm.
      eapply (filter_nil_not_elem_of _ _ p0); [exact Hm|exact Hp0c|].
      by apply elem_of_sorted_by.
    + by destruct (sorted_by burst (r0 :: ready)).
  - split; simpl; [by intros p ?%elem_of_nil|constructor|apply empty_subseteq].
  - assert (sjf_fresh_ids processes sjf_init ≤ length (remove_dups (pid <$> processes)))%nat
      as Ha by apply length_filter.
    assert (sjf_pending processes sjf_init ≤ length (remove_dups processes))%nat
      as Hb by apply length_filter.
    pose proof (length_remove_dups_le (pid <$> processes)) as Ha'.
    pose proof (length_remove_dups_le processes) as Hb'.
    rewrite length_fmap in Ha'. unfold sjf_turns_left. lia.
Qed.

(** The shortest-job-first model never runs out of fuel: on distinct ids
    it returns, on a repeated id it raises ValueError. *)
Lemma sjf_fuel_enough (processes : list process) :
  sjf_non_preemptive_schedule processes = Raised ValueError
  ∨ ∃ timeline, sjf_non_preemptive_schedule processes = Returned timeline.
Proof.
  destruct (decide (NoDup (pid <$> processes))) as [Hnd|Hdup].
  - right. destruct (sjf_returns_distinct processes Hnd) as (st & Hw & _).
    exists (sjf_timeline st). unfold sjf_non_preemptive_schedule. by rewrite Hw.
  - left. unfold sjf_non_preemptive_schedule. by rewrite sjf_loop_raises.
Qed.

(** ** Shortest remaining time first on any input: the fuel is enough *)
Section SrtfAny.
Context (processes : list process).
Hypothesis Hnd : NoDup (pid <$> processes).
Hypothesis Hpos : Forall (λ p, 0 < burst p) processes.

Local Abbreviation processes_sorted := (sorted_by arrival processes).
Local Abbreviation n := (length processes).

Lemma srtf_progress_init : srtf_progress processes (srtf_init processes).
Proof.
  split; simpl.
  - apply empty_subseteq.
  - by intros p _ ?%not_elem_of_empty.
  - intros p Hp _. rewrite remaining_init_lookup by done.
    by eapply Forall_forall in Hpos.
Qed.

Lemma srtf_progress_body st :
  srtf_progress processes st → srtf_cond n st = true →
  srtf_progress processes (srtf_body processes_sorted st)
  ∧ (srtf_measure processes (srtf_body processes_sorted st)
     < srtf_measure processes st)%nat.
Proof.
  intros [Hsub Hcomp Hinc] Hcond. apply bool_decide_eq_true in Hcond.
  destruct (incomplete_exists _ _ Hnd Hsub Hcond) as (p0 & Hp0 & Hp0c).
  assert (∀ q, q ∈ processes → 0 ≤ srtf_remaining st !!! pid q) as Hnn.
  { intros q Hq. destruct (decide (pid q ∈ srtf_completed st)) as [Hc|Hc].
    - by rewrite Hcomp.
    - specialize (Hinc q Hq Hc). lia. }
  destruct st as [remaining time timeline current segment_start completed].
  unfold srtf_measure, srtf_body. simpl in *.
  destruct (srtf_next_proc _ _) as [next|] eqn:Hnext.
  - apply srtf_next_proc_Some in Hnext as (Hin & Harr & Hnc & Hmin). simpl in *.
    pose proof (Hinc next Hin Hnc) as Hnext_pos.
    destruct (total_remaining_ge processes remaining next Hnn Hin) as [Hge0 Hge].
    assert (total_remaining processes
              (<[pid next:=remaining !!! pid next - 1]> remaining)
            = total_remaining processes remaining - 1) as Htr.
    { rewrite total_remaining_insert by done. lia. }
    assert (∀ p, pid p ≠ pid next →
              <[pid next:=remaining !!! pid next - 1]> remaining !!! pid p
              = remaining !!! pid p) as Hother.
    { intros p Hne. by rewrite lookup_total_insert_ne. }
    destruct (if decide (current ≠ Some (pid next)) then _ else _) as [[tl0 cur0] st0].
    rewrite lookup_total_insert_eq.
    destruct (decide (remaining !!! pid next - 1 = 0)) as [Hz|Hz]; simpl.
    + split; [split; simpl|rewrite Htr; lia].
      * apply union_subseteq. split; [|done].
        apply singleton_subseteq_l, elem_of_list_to_set.
        by apply list_elem_of_fmap_2.
      * intros p Hp Hc. destruct (decide (pid p = pid next)) as [Heq|Hne].
        -- rewrite Heq. by rewrite lookup_total_insert_eq.
        -- rewrite Hother by done. apply Hcomp; [done|].
           by apply elem_of_union in Hc as [Hc%elem_of_singleton|Hc].
      * intros p Hp Hc.
        apply not_elem_of_union in Hc as [Hc1%not_elem_of_singleton Hc2].
        rewrite Hother by done. by apply Hinc.
    + split; [split; simpl|rewrite Htr; lia].
      * done.
      * intros p Hp Hc. rewrite Hother; [by apply Hcomp|].
        intros Heq. by rewrite Heq in Hc.
      * intros p Hp Hc. destruct (decide (pid p = pid next)) as [Heq|Hne].
        -- rewrite Heq, lookup_total_insert_eq. lia.
        -- rewrite Hother by done. by apply Hinc.
  - pose proof (srtf_next_proc_None _ _ _ Hnext Hp0 Hp0c) as Hlt. simpl in Hlt.
    pose proof (max_arrival_ge _ _ Hp0).
    destruct (total_remaining_ge processes remaining p0 Hnn Hp0) as [Hge0 Hge].
    case_decide; simpl; (split; [by split|lia]).
Qed.

Lemma srtf_returns_any :
  ∃ st, while (srtf_cond n) (srtf_turn processes_sorted)
          (srtf_fuel processes) (srtf_init processes) = Returned st
        ∧ srtf_progress processes st ∧ srtf_cond n st = false.
Proof.
  apply (while_returns _ _ (srtf_progress processes) (srtf_measure processes)).
  - intros s Hs Hc. exists (srtf_body processes_sorted s).
    split; [done|]. by apply srtf_progress_body.
  - apply srtf_progress_init.
  - unfold srtf_measure, srtf_fuel. simpl.
    rewrite total_remaining_init by done.
    pose proof (max_arrival_nonneg processes). lia.
Qed.
End SrtfAny.

(** The shortest-remaining-time model runs out of fuel only where the loop
    goes on for ever: on distinct ids and positive bursts it returns,
    whatever the arrival times, and otherwise no number of turns is
    enough. *)
Lemma srtf_fuel_enough (processes : list process) :
  (∃ timeline, sjf_preemptive_schedule processes = Returned timeline)
  ∨ ∀ fuel,
      while (srtf_cond (length processes)) (srtf_turn (sorted_by arrival processes))
        fuel (srtf_init processes) = OutOfFuel.
Proof.
  destruct (decide (NoDup (pid <$> processes))) as [Hnd|Hdup].
  - destruct (decide (Forall (λ p, 0 < burst p) processes)) as [Hpos|Hneg].
    + left. destruct (srtf_returns_any processes Hnd Hpos) as (st & Hw & _).
      exists (srtf_timeline st). unfold sjf_preemptive_schedule. by rewrite Hw.
    + right. intros fuel. apply srtf_loop_never_ends. right.
      apply not_Forall_Exists in Hneg; [|apply _].
      apply Exists_exists in Hneg as (p & Hp & Hb). simpl in Hb.
      exists p. split; [done|lia].
  - right. intros fuel. apply srtf_loop_never_ends. by left.
Qed.

(** ** The input objects are left as they were *)

(** C10: run on a caller's list object and dictionaries, each of the four
    single-processor functions ends with the outcome that the function on
    values gives for the dictionaries' contents, and leaves the list object
    and every dictionary as it found them; a second call on the same objects
    therefore starts from the same state and ends the same way.  This holds
    for every store: the fuel of the three loops is enough whatever the
    list and the quantum, so that where a model reports that it ran out of
    fuel the loop of the function does not end at all. *)
Theorem schedulers_leave_input_unchanged (σ : store) (time_quantum : Z) :
  fcfs_schedule_obj σ = (Returned (fcfs_schedule (snapshot σ)), σ) ∧
  sjf_non_preemptive_schedule_obj σ
  = (sjf_non_preemptive_schedule (snapshot σ), σ) ∧
  sjf_preemptive_schedule_obj σ = (sjf_preemptive_schedule (snapshot σ), σ) ∧
  round_robin_schedule_obj time_quantum σ
  = (round_robin_schedule (snapshot σ) time_quantum, σ) ∧
  fcfs_schedule_obj (fcfs_schedule_obj σ).2 = fcfs_schedule_obj σ ∧
  sjf_non_preemptive_schedule_obj (sjf_non_preemptive_schedule_obj σ).2
  = sjf_non_preemptive_schedule_obj σ ∧
  sjf_preemptive_schedule_obj (sjf_preemptive_schedule_obj σ).2
  = sjf_preemptive_schedule_obj σ ∧
  round_robin_schedule_obj time_quantum (round_robin_schedule_obj time_quantum σ).2
  = round_robin_schedule_obj time_quantum σ ∧
  (sjf_non_preemptive_schedule (snapshot σ) = Raised ValueError
   ∨ ∃ timeline, sjf_non_preemptive_schedule (snapshot σ) = Returned timeline) ∧
  ((∃ timeline, sjf_preemptive_schedule (snapshot σ) = Returned timeline)
   ∨ ∀ fuel,
       while (srtf_cond (length (snapshot σ)))
         (srtf_turn (sorted_by arrival (snapshot σ))) fuel (srtf_init (snapshot σ))
       = OutOfFuel) ∧
  ((∃ timeline, round_robin_schedule (snapshot σ) time_quantum = Returned timeline)
   ∨ ∀ fuel,
       while (rr_cond (length (snapshot σ)))
         (rr_body (sorted_by arrival (snapshot σ)) time_quantum) fuel
         (rr_init (snapshot σ))
       = OutOfFuel).
Proof.
  pose proof (fcfs_obj_reads σ) as H1. pose proof (sjf_obj_reads σ) as H2.
  pose proof (srtf_obj_reads σ) as H3. pose proof (rr_obj_reads σ time_quantum) as H4.
  unfold reads in *. rewrite H1, H2, H3, H4. simpl. rewrite H1, H2, H3, H4.
  do 8 (split; [done|]).
  split; [apply sjf_fuel_enough|]. split; [apply srtf_fuel_enough|].
  destruct (rr_fuel_enough (snapshot σ) time_quantum) as [Hret Hraise].
  unfold round_robin_schedule.
  destruct (while _ _ (rr_fuel (snapshot σ)) _) as [st| |] eqn:Hw.
  - left. by eexists.
  - by apply Hraise in Hw.
  - right. intros fuel.
    destruct (while _ _ fuel _) as [st'|e|] eqn:Hw'; [| |done].
    + apply Hret in Hw'. congruence.
    + by apply Hraise in Hw'.
Qed.

(** ** Round robin: admission before re-queueing *)
Section RrQueued.
Context (processes : list process) (time_quantum : Z).
Hypothesis Hvalid : valid_processes processes.
Hypothesis Hquantum : 0 < time_quantum.

Local Abbreviation processes_sorted := (sorted_by arrival processes).
Local Abbreviation n := (length processes).

Lemma rr_init_queued : rr_queued processes (rr_init processes).
Proof.
  rewrite rr_init_eq. intros p Hp Ha _. simpl in *.
  apply list_elem_of_filter. split; [done|]. by apply elem_of_sorted_by.
Qed.

Lemma rr_body_queued st st' :
  rr_inv processes st → rr_cond n st = true → rr_queued processes st →
  rr_body processes_sorted time_quantum st = Returned st' →
  rr_queued processes st'.
Proof.
  destruct Hvalid as (_ & Hnd & Hpos).
  intros Hinv Hcond Hqueued Hbody.
  destruct (rr_ready_queue st) as [|proc rest] eqn:Hq.
  - destruct (rr_body_idle processes time_quantum st Hinv Hq Hcond)
      as (p0 & Hp0 & Hlater & Hbody').
    rewrite Hbody' in Hbody. injection Hbody as <-.
    intros p Hp Ha Hrem. simpl in *.
    apply arrivals_between_elem. split; [done|].
    split; [|done]. destruct (decide (arrival p ≤ rr_current_time st)); [|lia].
    exfalso. eapply elem_of_nil. rewrite <- Hq. by apply Hqueued.
  - rewrite (rr_body_dispatch processes time_quantum Hquantum st proc rest Hinv Hq)
      in Hbody.
    injection Hbody as <-.
    destruct (rr_inv_queue _ _ Hinv proc) as (Hpin & Hpa & Hrem); [rewrite Hq; left|].
    set (exec_time := Z.min time_quantum (rr_remaining st !!! pid proc)).
    assert (0 < exec_time ≤ rr_remaining st !!! pid proc) as Hexec by lia.
    intros p Hp Ha. simpl in *. fold exec_time in Ha. fold exec_time.
    destruct (decide (p = proc)) as [->|Hne].
    + rewrite lookup_total_insert_eq. intros Hleft.
      rewrite decide_True by done. rewrite !elem_of_app. right. right. left.
    + rewrite lookup_total_insert_ne.
      2:{ intros Heq. apply Hne. symmetry. by apply (pid_inj processes). }
      intros Hleft. rewrite !elem_of_app.
      destruct (decide (arrival p ≤ rr_current_time st)) as [Hold|Hnew].
      * left. specialize (Hqueued p Hp Hold Hleft). rewrite Hq in Hqueued.
        by apply elem_of_cons in Hqueued as [?|?].
      * right. left. apply arrivals_between_elem. split; [done|lia].
Qed.

Lemma rr_turns_queued k st :
  turns (rr_cond n) (rr_body processes_sorted time_quantum) k (rr_init processes) st →
  rr_queued processes st.
Proof.
  intros Hturns.
  assert (rr_inv processes st ∧ rr_queued processes st) as [_ ?]; [|done].
  revert Hturns.
  apply (turns_invariant _ _ (λ s, rr_inv processes s ∧ rr_queued processes s)).
  - intros s s' [Hinv Hqd] Hc Hb. split; [|by eapply rr_body_queued].
    destruct (rr_body_inv processes time_quantum Hvalid Hquantum s Hinv Hc)
      as (s'' & Hb' & ? & _).
    congruence.
  - split; [by apply rr_init_inv|apply rr_init_queued].
Qed.

(** When the loop ends no process has work left. *)
Lemma rr_final_remaining st p :
  rr_inv processes st → rr_queued processes st → rr_cond n st = false →
  p ∈ processes → rr_remaining st !!! pid p = 0.
Proof.
  intros Hinv Hqueued Hcond Hp.
  apply bool_decide_eq_false in Hcond.
  assert (rr_ready_queue st = []) as Hq.
  { destruct (rr_ready_queue st); [done|]. exfalso. apply Hcond. by left. }
  assert (¬ (rr_i st < n)%nat) as Hi by tauto.
  assert (arrival p ≤ rr_current_time st) as Ha.
  { assert (p ∈ take (rr_i st) processes_sorted) as Hin.
    { rewrite take_ge; [by apply elem_of_sorted_by|]. rewrite length_sorted_by. lia. }
    rewrite (rr_inv_admitted _ _ Hinv) in Hin.
    by apply list_elem_of_filter in Hin as [? _]. }
  pose proof (rr_inv_nonneg _ _ Hinv p Hp) as Hnn.
  destruct (decide (0 < rr_remaining st !!! pid p)) as [Hleft|Hdone]; [|lia].
  exfalso. eapply elem_of_nil. rewrite <- Hq. by apply Hqueued.
Qed.
End RrQueued.

(** C5: on a valid input and a positive quantum the single-processor
    Round-Robin scheduler starts at time 0 with an empty timeline, the
    processes that have arrived by then queued in arrival order and the
    remaining time of every process equal to its burst; it takes turns
    until no process has remaining time left, and returns the timeline of
    those turns.  Before each dispatch the pointer has passed exactly the
    processes with arrival <= current_time, all of which were appended to
    the queue in arrival order; the dispatch runs the head of the queue for
    exactly min(quantum, remaining) units, takes that much off its
    remaining time and nobody else's, then appends the processes that
    arrived during the slice, in arrival order, and only after them the
    preempted process.  With an empty queue the clock jumps to the next
    arrival. *)
Theorem rr_admits_before_requeue (processes : list process) (time_quantum : Z) :
  valid_processes processes → 0 < time_quantum →
  ∃ (k : nat) final,
    turns (rr_cond (length processes))
      (rr_body (sorted_by arrival processes) time_quantum) k (rr_init processes) final ∧
    rr_cond (length processes) final = false ∧
    round_robin_schedule processes time_quantum = Returned (rr_timeline final) ∧
    rr_timeline (rr_init processes) = [] ∧
    rr_current_time (rr_init processes) = 0 ∧
    rr_ready_queue (rr_init processes)
    = filter (λ p, arrival p ≤ 0) (sorted_by arrival processes) ∧
    (∀ p, p ∈ processes → rr_remaining (rr_init processes) !!! pid p = burst p) ∧
    (∀ p, p ∈ processes → rr_remaining final !!! pid p = 0) ∧
    ∀ (j : nat) st,
      turns (rr_cond (length processes))
        (rr_body (sorted_by arrival processes) time_quantum) j (rr_init processes) st →
      rr_cond (length processes) st = true →
      take (rr_i st) (sorted_by arrival processes)
      = filter (λ p, arrival p ≤ rr_current_time st) (sorted_by arrival processes) ∧
      match rr_ready_queue st with
      | proc :: ready_queue =>
          let exec_time := Z.min time_quantum (rr_remaining st !!! pid proc) in
          let end_time := rr_current_time st + exec_time in
          0 < exec_time ∧
          Segment (pid proc) (rr_current_time st) end_time ∈ rr_timeline final ∧
          ∃ st',
            rr_body (sorted_by arrival processes) time_quantum st = Returned st' ∧
            rr_timeline st'
            = rr_timeline st ++ [Segment (pid proc) (rr_current_time st) end_time] ∧
            rr_current_time st' = end_time ∧
            rr_remaining st' !!! pid proc = rr_remaining st !!! pid proc - exec_time ∧
            (∀ p, p ∈ processes → p ≠ proc →
                  rr_remaining st' !!! pid p = rr_remaining st !!! pid p) ∧
            rr_ready_queue st'
            = ready_queue
              ++ arrivals_between (sorted_by arrival processes)
                   (rr_current_time st) end_time
              ++ (if decide (exec_time < rr_remaining st !!! pid proc)
                  then [proc] else [])
      | [] =>
          ∃ p st',
            sorted_by arrival processes !! rr_i st = Some p ∧
            rr_current_time st < arrival p ∧
            Segment Idle (rr_current_time st) (arrival p) ∈ rr_timeline final ∧
            rr_body (sorted_by arrival processes) time_quantum st = Returned st' ∧
            rr_timeline st'
            = rr_timeline st ++ [Segment Idle (rr_current_time st) (arrival p)] ∧
            rr_current_time st' = arrival p ∧
            rr_remaining st' = rr_remaining st ∧
            rr_ready_queue st'
            = arrivals_between (sorted_by arrival processes)
                (rr_current_time st) (arrival p)
      end.
Proof.
  intros Hvalid Hquantum.
  destruct (rr_returns processes time_quantum Hvalid Hquantum)
    as (final & Hwhile & Hfinal & Hend).
  pose proof Hwhile as (k0 & _ & Hall & _)%while_turns.
  exists k0, final. split; [done|]. split; [done|].
  split; [unfold round_robin_schedule; by rewrite Hwhile|].
  split; [by rewrite rr_init_eq|]. split; [by rewrite rr_init_eq|].
  split; [by rewrite rr_init_eq|].
  split.
  { intros p Hp. rewrite rr_init_eq. simpl.
    apply remaining_init_lookup; [apply Hvalid|done]. }
  split.
  { intros p Hp. apply (rr_final_remaining processes); [done| |done|done].
    by eapply rr_turns_queued. }
  intros j st Hturns Hcond.
  pose proof (rr_turns_inv _ _ Hvalid Hquantum _ _ Hturns) as Hinv.
  split; [apply Hinv|].
  destruct (turns_continue _ _ _ _ _ _ _ Hturns Hall Hend) as (k' & -> & Hrest).
  inversion Hrest as [|k'' ? st1 ? _ Hb Hrest']; subst; [congruence|].
  apply rr_turns_prefix in Hrest'.
  destruct (rr_ready_queue st) as [|proc rest] eqn:Hq.
  - destruct (rr_body_idle processes time_quantum st Hinv Hq Hcond)
      as (p & Hp & Hlater & Hbody).
    rewrite Hbody in Hb. injection Hb as <-. simpl in Hrest'.
    exists p. eexists. split; [done|]. split; [done|]. split.
    { destruct Hrest' as [more ->]. rewrite !elem_of_app. left. right. left. }
    split; [exact Hbody|]. done.
  - pose proof (rr_body_dispatch processes time_quantum Hquantum st proc rest Hinv Hq)
      as Hbody.
    rewrite Hbody in Hb. injection Hb as <-. simpl in Hrest'.
    destruct (rr_inv_queue _ _ Hinv proc) as (Hpin & _ & Hrem); [rewrite Hq; left|].
    split; [lia|]. split.
    { destruct Hrest' as [more ->]. rewrite !elem_of_app. left. right. left. }
    eexists. split; [exact Hbody|]. simpl.
    split; [done|]. split; [done|]. split; [by rewrite lookup_total_insert_eq|].
    split.
    { intros p Hp Hne. rewrite lookup_total_insert_ne; [done|].
      intros Heq. apply Hne. symmetry.
      apply (pid_inj processes); [apply Hvalid|done..]. }
    do 2 f_equal. repeat case_decide; try done; lia.
Qed.

Lemma rr_admits_before_requeue_witness :
  ∃ (k : nat) final,
    turns (rr_cond (length rr_example_processes))
      (rr_body (sorted_by arrival rr_example_processes) 2) k (rr_init rr_example_processes) final ∧
    rr_cond (length rr_example_processes) final = false ∧
    round_robin_schedule rr_example_processes 2 = Returned (rr_timeline final) ∧
    rr_timeline (rr_init rr_example_processes) = [] ∧
    rr_current_time (rr_init rr_example_processes) = 0 ∧
    rr_ready_queue (rr_init rr_example_processes)
    = filter (λ p, arrival p ≤ 0) (sorted_by arrival rr_example_processes) ∧
    (∀ p, p ∈ rr_example_processes → rr_remaining (rr_init rr_example_processes) !!! pid p = burst p) ∧
    (∀ p, p ∈ rr_example_processes → rr_remaining final !!! pid p = 0) ∧
    ∀ (j : nat) st,
      turns (rr_cond (length rr_example_processes))
        (rr_body (sorted_by arrival rr_example_processes) 2) j (rr_init rr_example_processes) st →
      rr_cond (length rr_example_processes) st = true →
      take (rr_i st) (sorted_by arrival rr_example_processes)
      = filter (λ p, arrival p ≤ rr_current_time st) (sorted_by arrival rr_example_processes) ∧
      match rr_ready_queue st with
      | proc :: ready_queue =>
          let exec_time := Z.min 2 (rr_remaining st !!! pid proc) in
          let end_time := rr_current_time st + exec_time in
          0 < exec_time ∧
          Segment (pid proc) (rr_current_time st) end_time ∈ rr_timeline final ∧
          ∃ st',
            rr_body (sorted_by arrival rr_example_processes) 2 st = Returned st' ∧
            rr_timeline st'
            = rr_timeline st ++ [Segment (pid proc) (rr_current_time st) end_time] ∧
            rr_current_time st' = end_time ∧
            rr_remaining st' !!! pid proc = rr_remaining st !!! pid proc - exec_time ∧
            (∀ p, p ∈ rr_example_processes → p ≠ proc →
                  rr_remaining st' !!! pid p = rr_remaining st !!! pid p) ∧
            rr_ready_queue st'
            = ready_queue
              ++ arrivals_between (sorted_by arrival rr_example_processes)
                   (rr_current_time st) end_time
              ++ (if decide (exec_time < rr_remaining st !!! pid proc)
                  then [proc] else [])
      | [] =>
          ∃ p st',
            sorted_by arrival rr_example_processes !! rr_i st = Some p ∧
            rr_current_time st < arrival p ∧
            Segment Idle (rr_current_time st) (arrival p) ∈ rr_timeline final ∧
            rr_body (sorted_by arrival rr_example_processes) 2 st = Returned st' ∧
            rr_timeline st'
            = rr_timeline st ++ [Segment Idle (rr_current_time st) (arrival p)] ∧
            rr_current_time st' = arrival p ∧
            rr_remaining st' = rr_remaining st ∧
            rr_ready_queue st'
            = arrivals_between (sorted_by arrival rr_example_processes)
                (rr_current_time st) (arrival p)
      end.
Proof.
  apply (rr_admits_before_requeue rr_example_processes 2 rr_example_processes_valid).
  lia.
Defined.

(** ** Shortest job first: the choice at a decision point *)
Section SjfCore.
Context (processes : list process).
Hypothesis Hvalid : valid_processes processes.

Local Abbreviation processes_sorted := (sorted_by arrival processes).

(** After admission the ready queue holds exactly the arrived, incomplete
    processes. *)
Lemma sjf_core_ready_elem st p :
  sjf_core processes st →
  p ∈ sjf_ready processes_sorted st ↔
  p ∈ processes ∧ arrival p ≤ sjf_current_time st ∧ pid p ∉ sjf_completed st.
Proof.
  intros Hinv.
  rewrite (sjf_ready_eq processes Hvalid), elem_of_app, list_elem_of_filter,
    elem_of_sorted_by.
  destruct (sjf_core_admitted _ _ Hinv) as (t0 & Ht0 & Hrq & _).
  split.
  - intros [Hp|[[[Hc Ha] Hn] Hp]]; [|done].
    destruct (sjf_core_ready _ _ Hinv p Hp) as [Hin Hc].
    specialize (Hrq p Hp). repeat split; [done|lia|done].
  - intros (Hp & Ha & Hc).
    destruct (decide (p ∈ sjf_ready_queue st)); [by left|by right].
Qed.

Lemma sjf_core_ready_NoDup st :
  sjf_core processes st → NoDup (sjf_ready processes_sorted st).
Proof.
  intros Hinv. rewrite (sjf_ready_eq processes Hvalid). apply NoDup_app.
  split; [apply Hinv|]. split.
  - intros p Hp [[_ Hn] _]%list_elem_of_filter. done.
  - apply NoDup_filter, processes_sorted_NoDup, Hvalid.
Qed.

Lemma sjf_core_ready_order st k :
  sjf_core processes st →
  filter (λ p, burst p = k) (sjf_ready processes_sorted st)
    `sublist_of` processes_sorted.
Proof.
  intros Hinv. rewrite (sjf_ready_eq processes Hvalid), filter_app.
  destruct (sjf_core_admitted _ _ Hinv) as (t0 & Ht0 & Hrq & Hall).
  rewrite (Sorted_split arrival t0 processes_sorted) at 2 by apply sorted_by_Sorted.
  apply sublist_app.
  - rewrite <- (filter_all (λ a, arrival a ≤ t0)
                 (filter (λ p, burst p = k) (sjf_ready_queue st))).
    + apply filter_sublist_mono, Hinv.
    + intros p [_ Hp]%list_elem_of_filter. by apply Hrq.
  - set (new := filter _ processes_sorted).
    rewrite <- (filter_all (λ a, ¬ arrival a ≤ t0) (filter (λ p, burst p = k) new)).
    + apply filter_sublist_mono. etrans; apply sublist_filter.
    + intros p [_ [[[Hc Ha] Hn] Hp]%list_elem_of_filter]%list_elem_of_filter Hle.
      apply Hn, Hall; [by apply elem_of_sorted_by in Hp|done..].
Qed.

(** The process at the head of the sorted ready queue is preferred to every
    other ready process. *)
Lemma sjf_core_head_preferred st c rest q :
  sjf_core processes st →
  sorted_by burst (sjf_ready processes_sorted st) = c :: rest →
  q ∈ sjf_ready processes_sorted st →
  sjf_prefers processes c q.
Proof.
  intros Hinv Hs Hq.
  destruct (sorted_by_head burst _ _ _ Hs) as (l1 & l2 & Hl & H1 & H2).
  unfold sjf_prefers.
  destruct (decide (burst c < burst q)) as [|Hnlt]; [by left|right].
  rewrite Hl in Hq.
  assert (q = c ∨ (burst q = burst c ∧ q ∈ l2)) as [->|[Hb Hq2]].
  { apply elem_of_app in Hq as [Hq|[->|Hq]%elem_of_cons].
    - specialize (H1 q Hq). lia.
    - by left.
    - specialize (H2 q Hq). right. split; [lia|done]. }
  { split; [done|]. right. split; [done|]. by left. }
  split; [done|].
  assert ([c; q] `sublist_of` processes_sorted) as Hcq.
  { etrans; [|apply (sjf_core_ready_order st (burst c) Hinv)].
    rewrite Hl, filter_app, filter_cons, decide_True by done.
    apply sublist_inserts_l. constructor.
    apply list_elem_of_split in Hq2 as (m1 & m2 & ->).
    rewrite filter_app, filter_cons, decide_True by done.
    apply sublist_inserts_l. constructor. apply sublist_nil_l. }
  assert (arrival c ≤ arrival q) as Hle.
  { pose proof (sorted_by_Sorted arrival processes) as Hsorted.
    apply Sorted_StronglySorted in Hsorted; [|intros x y z ??; lia].
    assert (StronglySorted (λ a b, arrival a ≤ arrival b) [c; q]) as Hss.
    { clear -Hcq Hsorted. revert Hcq Hsorted. generalize processes_sorted.
      intros l Hcq Hss. induction Hss as [|a l Hss IH Hall].
      - by apply sublist_nil_r in Hcq.
      - apply sublist_cons_r in Hcq as [Hcq|(l' & [= <- <-] & Hcq)]; [by apply IH|].
        constructor; [repeat constructor|]. constructor; [|done].
        eapply Forall_forall in Hall; [done|].
        eapply elem_of_sublist; [|done]. left. }
    apply StronglySorted_inv in Hss as [_ Hall].
    by apply Forall_cons in Hall as [? _]. }
  destruct (decide (arrival c < arrival q)) as [|Hnlt']; [by left|right].
  assert (arrival c = arrival q) as Ha by lia. split; [done|]. right.
  etrans; [|apply (sublist_filter (λ a, arrival a = arrival c))].
  rewrite <- (sorted_by_filter arrival).
  rewrite <- (filter_all (λ a, arrival a = arrival c) [c; q]).
  - by apply filter_sublist_mono.
  - intros x [->|Hx%list_elem_of_singleton]%elem_of_cons; [done|by subst].
Qed.

Lemma sjf_core_init : sjf_core processes sjf_init.
Proof.
  destruct Hvalid as (_ & Hnd & Hpos).
  split; simpl.
  - exists (-1). split; [lia|]. split; [by intros p ?%elem_of_nil|].
    intros p Hp Ha. eapply Forall_forall in Hpos; [|done]. lia.
  - by intros p ?%elem_of_nil.
  - constructor.
  - intros k. apply sublist_nil_l.
  - done.
  - intros p _ ?. done.
Qed.

Lemma sjf_core_size_completed st :
  sjf_core processes st → (size (sjf_completed st) ≤ length processes)%nat.
Proof.
  destruct Hvalid as (_ & Hnd & _). intros Hinv.
  rewrite <- (length_fmap pid), <- (size_list_to_set (C := gset string)) by done.
  apply subseteq_size, Hinv.
Qed.

(** A turn of the loop returns, keeps the invariant and makes progress. *)
Lemma sjf_core_body st :
  sjf_core processes st → sjf_cond processes st = true →
  ∃ st', sjf_body processes_sorted st = Returned st' ∧ sjf_core processes st'
         ∧ (sjf_measure processes st' < sjf_measure processes st)%nat.
Proof.
  destruct Hvalid as (_ & Hnd & Hpos).
  intros Hinv Hcond. apply bool_decide_eq_true in Hcond.
  pose proof (sjf_core_ready_elem st) as Hready.
  specialize (λ p, Hready p Hinv).
  destruct (sorted_by burst (sjf_ready processes_sorted st)) as [|c rest] eqn:Hs.
  - (* nothing is ready: idle until the next arrival *)
    assert (sjf_ready processes_sorted st = []) as Hr.
    { apply length_zero_iff_nil. by rewrite <- (length_sorted_by burst), Hs. }
    destruct (incomplete_exists _ _ Hnd (sjf_core_subset _ _ Hinv) Hcond)
      as (p0 & Hp0 & Hp0c).
    destruct (list_min (arrival <$> filter (λ p, pid p ∉ sjf_completed st)
                                      processes_sorted)) as [m|] eqn:Hm.
    2:{ apply list_min_None, fmap_nil_inv in Hm.
        exfalso. eapply (filter_nil_not_elem_of _ _ p0); [exact Hm|exact Hp0c|].
        by apply elem_of_sorted_by. }
    apply list_min_Some in Hm as Hmin. destruct Hmin as [Hmin Hle].
    apply list_elem_of_fmap in Hmin as (pm & -> & [Hpmc Hpm]%list_elem_of_filter).
    apply elem_of_sorted_by in Hpm.
    assert (∀ p, p ∈ processes → pid p ∉ sjf_completed st →
                 sjf_current_time st < arrival p) as Hlater.
    { intros p Hp Hc. destruct (decide (arrival p ≤ sjf_current_time st)); [|lia].
      exfalso. eapply elem_of_nil. rewrite <- Hr. by apply Hready. }
    eexists. split; [by apply sjf_body_idle_eq|].
    split; [split; simpl|].
    + exists (sjf_current_time st). split; [specialize (Hlater pm Hpm Hpmc); lia|].
      split; [by intros p ?%elem_of_nil|].
      intros p Hp Ha Hc. specialize (Hlater p Hp Hc). lia.
    + by intros p ?%elem_of_nil.
    + constructor.
    + intros k. apply sublist_nil_l.
    + apply Hinv.
    + intros p Hp Hc. destruct (sjf_core_done _ _ Hinv p Hp Hc) as (s & Hs1 & Hs2).
      exists s. split; [done|]. apply elem_of_app. by left.
    + rewrite (sjf_measure_ready _ _ pm); [| done | done | simpl; lia].
      simpl. unfold sjf_measure. rewrite decide_False; [lia|].
      intros (p & Hp & Hc & Ha)%Exists_exists.
      specialize (Hlater p Hp Hc). lia.
  - (* the shortest ready process runs to completion *)
    assert (c :: rest ≡ₚ sjf_ready processes_sorted st) as Hperm.
    { rewrite <- Hs. apply sorted_by_Permutation. }
    assert (NoDup (c :: rest)) as [Hcrest Hndrest]%NoDup_cons.
    { rewrite Hperm. by apply sjf_core_ready_NoDup. }
    assert (c ∈ sjf_ready processes_sorted st) as Hc.
    { rewrite <- Hperm. left. }
    apply Hready in Hc as (Hcin & Hca & Hcc).
    assert (∀ p, p ∈ rest → p ∈ processes ∧ arrival p ≤ sjf_current_time st
                             ∧ (pid p ∉ sjf_completed st) ∧ pid p ≠ pid c) as Hrest.
    { intros p Hp.
      assert (p ∈ sjf_ready processes_sorted st) as Hpr by (rewrite <- Hperm; by right).
      apply Hready in Hpr as (Hpin & Hpa & Hpc). repeat split; [done..|].
      intros Heq. apply (pid_inj processes) in Heq; [|done..]. by subst. }
    assert (0 < burst c) as Hbc.
    { eapply Forall_forall in Hpos; [|exact Hcin]. lia. }
    eexists. split; [by apply sjf_body_run_eq|].
    split; [split; simpl|].
    + exists (sjf_current_time st). split; [lia|].
      split; [intros p Hp; by apply Hrest|].
      intros p Hp Ha Hpc.
      apply not_elem_of_union in Hpc as [Hne%not_elem_of_singleton Hpc].
      assert (p ∈ c :: rest) as [->|Hpr]%elem_of_cons; [|done..].
      rewrite Hperm. by apply Hready.
    + intros p Hp. destruct (Hrest p Hp) as (Hpin & _ & Hpc & Hne).
      split; [done|]. rewrite not_elem_of_union, not_elem_of_singleton. done.
    + done.
    + intros k. etrans; [|apply (sjf_core_ready_order st k Hinv)].
      rewrite <- (sorted_by_filter burst k (sjf_ready _ _)), Hs.
      rewrite filter_cons. case_decide; [by constructor|done].
    + apply union_subseteq. split; [|apply Hinv].
      apply singleton_subseteq_l, elem_of_list_to_set.
      by apply list_elem_of_fmap_2.
    + intros p Hp Hpc. destruct (decide (pid p = pid c)) as [Heq|Hne].
      * apply (pid_inj processes) in Heq as ->; [|done..].
        exists (sjf_current_time st). split; [done|].
        apply elem_of_app. right. left.
      * apply elem_of_union in Hpc as [Hpc%elem_of_singleton|Hpc]; [done|].
        destruct (sjf_core_done _ _ Hinv p Hp Hpc) as (s & Hs1 & Hs2).
        exists s. split; [done|]. apply elem_of_app. by left.
    + pose proof (sjf_measure_ready processes st c Hcin Hcc Hca) as Hm.
      pose proof (sjf_core_size_completed st Hinv).
      rewrite Hm.
      match goal with |- (sjf_measure _ ?s < _)%nat =>
        pose proof (sjf_measure_le processes s) as Hle end.
      simpl in Hle.
      rewrite size_union in Hle by (by apply disjoint_singleton_l).
      rewrite size_singleton in Hle. lia.
Qed.

Lemma sjf_core_returns :
  ∃ st, while (sjf_cond processes) (sjf_body processes_sorted)
          (2 * length processes) sjf_init = Returned st
        ∧ sjf_core processes st ∧ sjf_cond processes st = false.
Proof.
  apply (while_returns _ _ (sjf_core processes) (sjf_measure processes)).
  - intros s Hs Hc. by apply sjf_core_body.
  - apply sjf_core_init.
  - pose proof (sjf_measure_le processes sjf_init). simpl in *. lia.
Qed.

Lemma sjf_core_turns k st st' :
  sjf_core processes st →
  turns (sjf_cond processes) (sjf_body processes_sorted) k st st' →
  sjf_core processes st'.
Proof.
  intros Hinv Hturns. revert Hinv.
  induction Hturns as [|k s s1 s' Hc Hb _ IH]; [done|].
  intros Hs. apply IH.
  destruct (sjf_core_body s Hs Hc) as (s2 & Hb2 & Hinv2 & _). congruence.
Qed.

(** A completed id stays completed. *)
Lemma sjf_turns_completed k st st' :
  turns (sjf_cond processes) (sjf_body processes_sorted) k st st' →
  sjf_completed st ⊆ sjf_completed st'.
Proof.
  induction 1 as [|k s s1 s' Hc Hb _ IH]; [done|].
  etrans; [|exact IH]. clear IH. unfold sjf_body in Hb.
  destruct (sjf_ready processes_sorted s).
  - destruct (list_min _); [|done]. by injection Hb as <-.
  - destruct (sorted_by burst _); [done|]. injection Hb as <-. simpl.
    apply union_subseteq_r.
Qed.
End SjfCore.

(** C4: on a valid input the non-preemptive shortest-job-first scheduler
    takes turns from the empty state until every process is completed and
    returns the timeline of those turns, in which every process has its
    segment.  At every decision point the ready set holds exactly the
    arrived, incomplete processes; the process taken has the least burst
    among them, ties going to the earlier arrival and then to the earlier
    place in the input list; it runs at once, in one segment of exactly its
    burst, which is in the returned timeline; it is marked completed, and
    from then on it is never ready again. *)
Theorem sjf_picks_shortest_ready (processes : list process) :
  valid_processes processes →
  ∃ (k : nat) final,
    turns (sjf_cond processes) (sjf_body (sorted_by arrival processes)) k
      sjf_init final ∧
    sjf_cond processes final = false ∧
    sjf_non_preemptive_schedule processes = Returned (sjf_timeline final) ∧
    (∀ p, p ∈ processes →
       pid p ∈ sjf_completed final ∧
       ∃ s, arrival p ≤ s ∧ Segment (pid p) s (s + burst p) ∈ sjf_timeline final) ∧
    ∀ (j : nat) st,
      turns (sjf_cond processes) (sjf_body (sorted_by arrival processes)) j
        sjf_init st →
      sjf_cond processes st = true →
      (∀ p, p ∈ sjf_ready (sorted_by arrival processes) st ↔
            p ∈ processes ∧ arrival p ≤ sjf_current_time st
            ∧ pid p ∉ sjf_completed st) ∧
      match sorted_by burst (sjf_ready (sorted_by arrival processes) st) with
      | shortest_process :: ready_queue =>
          shortest_process ∈ sjf_ready (sorted_by arrival processes) st ∧
          (∀ q, q ∈ sjf_ready (sorted_by arrival processes) st →
                sjf_prefers processes shortest_process q) ∧
          sjf_body (sorted_by arrival processes) st
          = Returned (SjfState
              (sjf_timeline st
               ++ [Segment (pid shortest_process) (sjf_current_time st)
                     (sjf_current_time st + burst shortest_process)])
              ready_queue (sjf_current_time st + burst shortest_process)
              ({[pid shortest_process]} ∪ sjf_completed st)) ∧
          Segment (pid shortest_process) (sjf_current_time st)
            (sjf_current_time st + burst shortest_process) ∈ sjf_timeline final ∧
          ∀ (j' : nat) st' later,
            sjf_body (sorted_by arrival processes) st = Returned st' →
            turns (sjf_cond processes) (sjf_body (sorted_by arrival processes)) j'
              st' later →
            pid shortest_process ∈ sjf_completed later ∧
            shortest_process ∉ sjf_ready (sorted_by arrival processes) later
      | [] => sjf_ready (sorted_by arrival processes) st = []
      end.
Proof.
  intros Hvalid.
  destruct (sjf_core_returns processes Hvalid) as (final & Hwhile & Hfinal & Hend).
  pose proof Hwhile as (k0 & _ & Hall & _)%while_turns.
  exists k0, final. split; [done|]. split; [done|].
  split; [unfold sjf_non_preemptive_schedule; by rewrite Hwhile|].
  split.
  { intros p Hp.
    assert (pid p ∈ sjf_completed final) as Hc.
    { apply bool_decide_eq_false in Hend.
      apply (all_completed processes _ p); [apply Hvalid|apply Hfinal|done|done]. }
    split; [done|]. by apply (sjf_core_done _ _ Hfinal). }
  intros j st Hturns Hcond.
  pose proof (sjf_core_turns processes Hvalid _ _ _ (sjf_core_init processes Hvalid)
                Hturns) as Hinv.
  split; [intros p; by apply sjf_core_ready_elem|].
  destruct (sorted_by burst _) as [|c rest] eqn:Hs.
  - apply length_zero_iff_nil. by rewrite <- (length_sorted_by burst), Hs.
  - split; [rewrite <- (elem_of_sorted_by burst), Hs; left|].
    split; [intros q Hq; by eapply sjf_core_head_preferred|].
    pose proof (sjf_body_run_eq processes _ _ _ Hs) as Hbody.
    split; [done|]. split.
    + destruct (turns_continue _ _ _ _ _ _ _ Hturns Hall Hend) as (k' & -> & Hrest).
      inversion Hrest as [|k'' ? st1 ? _ Hb Hrest']; subst; [congruence|].
      rewrite Hbody in Hb. injection Hb as <-.
      apply sjf_turns_prefix in Hrest'. simpl in Hrest'.
      destruct Hrest' as [more ->]. rewrite !elem_of_app. left. right. left.
    + intros j' st' later Hb Hlater.
      assert (pid c ∈ sjf_completed later) as Hdone.
      { apply (sjf_turns_completed processes _ _ _ Hlater).
        rewrite Hbody in Hb. injection Hb as <-. simpl.
        apply elem_of_union_l. by apply elem_of_singleton. }
      split; [done|].
      destruct (sjf_core_body processes Hvalid st Hinv Hcond) as (s2 & Hb2 & Hinv2 & _).
      assert (s2 = st') as -> by congruence.
      pose proof (sjf_core_turns processes Hvalid _ _ _ Hinv2 Hlater) as Hinv'.
      intros Hin. apply (sjf_core_ready_elem processes Hvalid) in Hin; [|done].
      by destruct Hin as (_ & _ & Hn).
Qed.

Lemma sjf_picks_shortest_ready_witness :
  ∃ (k : nat) final,
    turns (sjf_cond question2_processes) (sjf_body (sorted_by arrival question2_processes)) k
      sjf_init final ∧
    sjf_cond question2_processes final = false ∧
    sjf_non_preemptive_schedule question2_processes = Returned (sjf_timeline final) ∧
    (∀ p, p ∈ question2_processes →
       pid p ∈ sjf_completed final ∧
       ∃ s, arrival p ≤ s ∧ Segment (pid p) s (s + burst p) ∈ sjf_timeline final) ∧
    ∀ (j : nat) st,
      turns (sjf_cond question2_processes) (sjf_body (sorted_by arrival question2_processes)) j
        sjf_init st →
      sjf_cond question2_processes st = true →
      (∀ p, p ∈ sjf_ready (sorted_by arrival question2_processes) st ↔
            p ∈ question2_processes ∧ arrival p ≤ sjf_current_time st
            ∧ pid p ∉ sjf_completed st) ∧
      match sorted_by burst (sjf_ready (sorted_by arrival question2_processes) st) with
      | shortest_process :: ready_queue =>
          shortest_process ∈ sjf_ready (sorted_by arrival question2_processes) st ∧
          (∀ q, q ∈ sjf_ready (sorted_by arrival question2_processes) st →
                sjf_prefers question2_processes shortest_process q) ∧
          sjf_body (sorted_by arrival question2_processes) st
          = Returned (SjfState
              (sjf_timeline st
               ++ [Segment (pid shortest_process) (sjf_current_time st)
                     (sjf_current_time st + burst shortest_process)])
              ready_queue (sjf_current_time st + burst shortest_process)
              ({[pid shortest_process]} ∪ sjf_completed st)) ∧
          Segment (pid shortest_process) (sjf_current_time st)
            (sjf_current_time st + burst shortest_process) ∈ sjf_timeline final ∧
          ∀ (j' : nat) st' later,
            sjf_body (sorted_by arrival question2_processes) st = Returned st' →
            turns (sjf_cond question2_processes) (sjf_body (sorted_by arrival question2_processes)) j'
              st' later →
            pid shortest_process ∈ sjf_completed later ∧
            shortest_process ∉ sjf_ready (sorted_by arrival question2_processes) later
      | [] => sjf_ready (sorted_by arrival question2_processes) st = []
      end.
Proof.
  apply (sjf_picks_shortest_ready question2_processes question2_processes_valid).
Defined.

(** ** The order of updates and dispatches in a unit of time *)

Lemma while_ext {S : Type} (cond : S → bool) (body1 body2 : S → outcome S) fuel st :
  (∀ s, body1 s = body2 s) → while cond body1 fuel st = while cond body2 fuel st.
Proof.
  intros Hext. revert st. induction fuel as [|fuel IH]; intros st; simpl; [done|].
  rewrite Hext. destruct (cond st); [|done]. by destruct (body2 st).
Qed.

(** Update, dispatch and idle bookkeeping of a processor do not look at the
    list of processors: they work on the dictionary they are given. *)
Lemma mp_dispatch_store time_quantum i st x proc_state :
  mp_dispatch time_quantum (mp_store i st x) proc_state
  = match mp_dispatch time_quantum st proc_state with
    | Returned (st2, ps2, skip) => Returned (mp_store i st2 x, ps2, skip)
    | Raised e => Raised e
    | OutOfFuel => OutOfFuel
    end.
Proof.
  destruct st as [processes global_time ready_queue schedule_events finished processors].
  unfold mp_dispatch, mp_store. simpl.
  destruct (ps_proc proc_state); [done|].
  destruct ready_queue as [|next_pid rest].
  - by destruct (ps_idle proc_state).
  - case_decide; [done|]. by destruct (get_process processes next_pid) as [[k proc]|].
Qed.

Lemma mp_idle_event_store i j st x proc_state :
  mp_idle_event j (mp_store i st x) proc_state
  = match mp_idle_event j st proc_state with
    | Returned (st3, ps3) => Returned (mp_store i st3 x, ps3)
    | Raised e => Raised e
    | OutOfFuel => OutOfFuel
    end.
Proof.
  destruct st as [processes global_time ready_queue schedule_events finished processors].
  unfold mp_idle_event, mp_store. simpl.
  destruct (ps_proc proc_state); [done|].
  destruct (ps_idle proc_state) as [[|]|]; [|done..].
  destruct (ps_event_start proc_state); [|done]. by case_decide.
Qed.

Lemma mp_store_store i st x y : mp_store i (mp_store i st x) y = mp_store i st y.
Proof. unfold mp_store. simpl. by rewrite list_insert_insert_eq. Qed.

(** The turn of a processor is its update followed by its dispatch. *)
Lemma mp_processor_turn_steps time_quantum st i :
  mp_processor_turn time_quantum st i = mp_update_then_dispatch time_quantum st i.
Proof.
  unfold mp_processor_turn, mp_update_then_dispatch, mp_update_turn, mp_dispatch_turn.
  destruct (mp_processors st !! i) as [proc_state|] eqn:Hps; [|done].
  destruct (mp_update i st proc_state) as [[st1 ps1]| |] eqn:Hupd; [|done..].
  destruct (mp_update_processors _ _ _ _ _ Hupd) as (Hp1 & _).
  assert (mp_processors (mp_store i st1 ps1) !! i = Some ps1) as ->.
  { simpl. apply list_lookup_insert_eq. rewrite Hp1. by eapply lookup_lt_Some. }
  rewrite mp_dispatch_store.
  destruct (mp_dispatch time_quantum st1 ps1) as [[[st2 ps2] skip]| |]; [|done..].
  destruct skip; [by rewrite mp_store_store|].
  rewrite mp_idle_event_store.
  destruct (mp_idle_event i st2 ps2) as [[st3 ps3]| |]; [|done..].
  by rewrite mp_store_store.
Qed.

Lemma mp_for_steps time_quantum range st :
  mp_for time_quantum range st
  = outcome_foldl (mp_update_then_dispatch time_quantum) st range.
Proof.
  revert st. induction range as [|i range IH]; intros st; simpl; [done|].
  rewrite mp_processor_turn_steps.
  destruct (mp_update_then_dispatch time_quantum st i); [apply IH|done..].
Qed.

Lemma mp_body_interleaved time_quantum num_proc st :
  mp_body time_quantum num_proc st = mp_interleaved_body time_quantum num_proc st.
Proof. unfold mp_body, mp_interleaved_body. by rewrite mp_for_steps. Qed.

Lemma mp_update_turn_local st i st1 :
  mp_update_turn st i = Returned st1 →
  (∀ j, j ≠ i → mp_processors st1 !! j = mp_processors st !! j) ∧
  ∃ requeued, mp_ready_queue st1 = mp_ready_queue st ++ requeued
              ∧ (length requeued ≤ 1)%nat.
Proof.
  unfold mp_update_turn.
  destruct (mp_processors st !! i) as [proc_state|]; [|done].
  destruct (mp_update i st proc_state) as [[st' ps']| |] eqn:Hupd; [|done..].
  destruct (mp_update_processors _ _ _ _ _ Hupd) as (Hp & requeued & Hq & Hlen).
  intros [= <-]. split.
  - intros j Hj. rewrite mp_store_other by done. by rewrite Hp.
  - by exists requeued.
Qed.

Lemma mp_dispatch_turn_local time_quantum st1 i st2 :
  mp_dispatch_turn time_quantum st1 i = Returned st2 →
  (∀ j, j ≠ i → mp_processors st2 !! j = mp_processors st1 !! j) ∧
  (mp_ready_queue st1 = mp_ready_queue st2
   ∨ ∃ next_pid, mp_ready_queue st1 = next_pid :: mp_ready_queue st2).
Proof.
  unfold mp_dispatch_turn.
  destruct (mp_processors st1 !! i) as [proc_state|]; [|done].
  destruct (mp_dispatch time_quantum st1 proc_state) as [[[st' ps'] skip]| |] eqn:Hdis;
    [|done..].
  destruct (mp_dispatch_processors _ _ _ _ _ _ Hdis) as (Hp & Hq).
  destruct skip.
  - intros [= <-]. split; [|done].
    intros j Hj. rewrite mp_store_other by done. by rewrite Hp.
  - destruct (mp_idle_event i st' ps') as [[st3 ps3]| |] eqn:Hidl; [|done..].
    destruct (mp_idle_event_processors _ _ _ _ _ Hidl) as (Hp3 & Hq3).
    intros [= <-]. simpl. rewrite Hq3. split; [|done].
    intros j Hj. rewrite list_lookup_insert_ne by done. by rewrite Hp3, Hp.
Qed.

(** C6 (amended): the multi-processor script has no phase of updates
    followed by a phase of dispatches.  Every unit of time of its run is
    an interleaving: after the arrivals the processors are served one after
    the other by ascending index, and the turn of processor [i] is its own
    update (decrement, closing of the segment, re-queue of at most one
    process) followed at once by its own dispatch, which takes at most one
    process off the queue as that update left it; both leave every other
    processor as it was.  So a processor dispatches before the processors
    of higher index are updated, and the run differs from the two-phase
    order: two units into the run of [two_phase_processes] the script
    leaves B on processor 2, while all updates before any dispatch would
    hand B to processor 1. *)
Theorem mp_serves_processors_in_turn :
  (∀ time_quantum num_proc st,
     mp_body time_quantum num_proc st
     = mp_interleaved_body time_quantum num_proc st) ∧
  (∀ processes time_quantum num_proc fuel,
     multiprocessor_round_robin processes time_quantum num_proc fuel
     = outcome_map mp_schedule_events
         (while mp_cond (mp_interleaved_body time_quantum num_proc) fuel
            (mp_init processes num_proc))) ∧
  (∀ st i st1,
     mp_update_turn st i = Returned st1 →
     (∀ j, j ≠ i → mp_processors st1 !! j = mp_processors st !! j) ∧
     ∃ requeued, mp_ready_queue st1 = mp_ready_queue st ++ requeued
                 ∧ (length requeued ≤ 1)%nat) ∧
  (∀ time_quantum st1 i st2,
     mp_dispatch_turn time_quantum st1 i = Returned st2 →
     (∀ j, j ≠ i → mp_processors st2 !! j = mp_processors st1 !! j) ∧
     (mp_ready_queue st1 = mp_ready_queue st2
      ∨ ∃ next_pid, mp_ready_queue st1 = next_pid :: mp_ready_queue st2)) ∧
  (∃ st st_code st_two_phase,
     turns mp_cond (mp_body 2 2) 2 (mp_init two_phase_processes 2) st ∧
     mp_body 2 2 st = Returned st_code ∧
     spec_two_phase_body 2 2 st = Returned st_two_phase ∧
     ps_proc <$> mp_processors st_code = [None; Some "B"] ∧
     ps_proc <$> mp_processors st_two_phase = [Some "B"; None]).
Proof.
  split; [apply mp_body_interleaved|].
  split.
  { intros processes time_quantum num_proc fuel. unfold multiprocessor_round_robin.
    f_equal. apply while_ext. intros s. apply mp_body_interleaved. }
  split; [apply mp_update_turn_local|].
  split; [apply mp_dispatch_turn_local|].
  eexists _, _, _. split.
  { eapply turns_S; [by vm_compute|by vm_compute|].
    eapply turns_S; [by vm_compute|by vm_compute|]. apply turns_O. }
  split; [by vm_compute|]. split; [by vm_compute|]. split; by vm_compute.
Qed.

(** ** A process whose id is the owner string of idle time *)

(** C3 (counterexample): the list [Idle(arrival 2, burst 3); B(3, 1)] is
    valid, and shortest remaining time first returns Idle[0,3), B[3,4),
    Idle[4,6) on it.  The process Idle runs one unit, from 2 to 3, before B
    preempts it, but its first segment is as long as its burst, and its
    segments sum to 5, not to its burst 3: its execution is merged with the
    idle time before it. *)
Lemma srtf_merges_process_named_idle :
  valid_processes idle_named_processes ∧
  sjf_preemptive_schedule idle_named_processes
  = Returned [Segment "Idle" 0 3; Segment "B" 3 4; Segment "Idle" 4 6] ∧
  ¬ (∃ timeline,
       sjf_preemptive_schedule idle_named_processes = Returned timeline ∧
       ∀ p, p ∈ idle_named_processes →
            total_duration (pid p) timeline = burst p).
Proof.
  split.
  { split; [done|]. split.
    - apply (bool_decide_unpack _). by vm_compute.
    - repeat constructor; simpl; lia. }
  assert (sjf_preemptive_schedule idle_named_processes
          = Returned [Segment "Idle" 0 3; Segment "B" 3 4; Segment "Idle" 4 6])
    as Hrun by (by vm_compute).
  split; [done|].
  intros (timeline & Hret & Hsum). rewrite Hrun in Hret. injection Hret as <-.
  specialize (Hsum (Process "Idle" 2 3)). 
  assert (Process "Idle" 2 3 ∈ idle_named_processes) as Hin by left.
  apply Hsum in Hin. vm_compute in Hin. discriminate.
Qed.

(** ** Round robin with a positive quantum *)

(** With a positive quantum a call of round robin returns a timeline on
    every list of processes, whatever the signs of the arrival times and
    bursts and whether ids repeat. *)
Theorem rr_returns_with_positive_quantum (processes : list process) (time_quantum : Z) :
  0 < time_quantum →
  ∃ timeline, round_robin_schedule processes time_quantum = Returned timeline.
Proof.
  intros Hquantum.
  destruct (rr_returns_any processes time_quantum Hquantum) as (st & Hw).
  exists (rr_timeline st). unfold round_robin_schedule. by rewrite Hw.
Qed.

Lemma rr_returns_with_positive_quantum_witness :
  ∃ timeline, round_robin_schedule [Process "A" 4 0; Process "A" (-1) 2] 3 = Returned timeline.
Proof.
  apply (rr_returns_with_positive_quantum [Process "A" 4 0; Process "A" (-1) 2] 3). lia.
Defined.

(** ** Several processors: the idle mark *)

Lemma processor_label_inj i j : processor_label i = processor_label j → i = j.
Proof.
  unfold processor_label. intros Heq.
  apply (inj (String.app "Processor ")) in Heq.
  apply (inj pretty) in Heq. lia.
Qed.

Lemma get_process_Some processes pid0 k proc :
  get_process processes pid0 = Some (k, proc) →
  processes !! k = Some proc ∧ p6_id proc = pid0.
Proof. unfold get_process. intros (? & ? & _)%list_find_Some. done. Qed.

(** The update keeps the ids of the process list and the ["idle"] key; the
    events it records carry the label of the processor and the id of a
    process of the list. *)
Lemma mp_update_events i st proc_state st1 ps1 :
  mp_update i st proc_state = Returned (st1, ps1) →
  p6_id <$> mp_processes st1 = p6_id <$> mp_processes st ∧
  ps_idle ps1 = ps_idle proc_state ∧
  ∃ new, mp_schedule_events st1 = mp_schedule_events st ++ new ∧
         Forall (λ e, ev_processor e = processor_label i
                      ∧ ev_id e ∈ p6_id <$> mp_processes st) new.
Proof.
  destruct st as [processes global_time ready_queue schedule_events finished processors].
  unfold mp_update. destruct (ps_proc proc_state) as [cur|].
  - destruct (get_process processes cur) as [[k cur_proc]|] eqn:Hget; [|done].
    apply get_process_Some in Hget as [Hk Hid].
    assert (p6_id <$> <[k:=Process6 (p6_id cur_proc) (p6_arrival cur_proc)
                              (p6_burst cur_proc) (p6_remaining cur_proc - 1)]> processes
            = p6_id <$> processes) as Hids.
    { rewrite list_fmap_insert. simpl. apply list_insert_id.
      by rewrite list_lookup_fmap, Hk. }
    assert (p6_id cur_proc ∈ p6_id <$> processes) as Hin.
    { apply list_elem_of_fmap. exists cur_proc. split; [done|].
      by eapply list_elem_of_lookup_2. }
    simpl. repeat case_decide; intros [= <- <-]; simpl;
      (split; [done|]); (split; [done|]).
    + eexists [_]. split; [done|]. by repeat constructor.
    + eexists [_]. split; [done|]. by repeat constructor.
    + exists []. by rewrite app_nil_r.
  - intros [= <- <-]. split; [done|]. split; [done|].
    exists []. by rewrite app_nil_r.
Qed.

(** The dispatch records no event, leaves the process list as it is, and
    never takes the mark [False] back. *)
Lemma mp_dispatch_events time_quantum st proc_state st2 ps2 skip :
  mp_dispatch time_quantum st proc_state = Returned (st2, ps2, skip) →
  mp_processes st2 = mp_processes st ∧
  mp_schedule_events st2 = mp_schedule_events st ∧
  (ps_idle proc_state = Some false → ps_idle ps2 = Some false).
Proof.
  destruct st as [processes global_time ready_queue schedule_events finished processors].
  unfold mp_dispatch. destruct (ps_proc proc_state) as [cur|].
  - by intros [= <- <- <-].
  - destruct ready_queue as [|next_pid rest].
    + destruct (ps_idle proc_state) as [b|] eqn:Hidle; intros [= <- <- <-];
        (split; [done|]); (split; [done|]); simpl; [by rewrite Hidle|done].
    + case_decide; [by intros [= <- <- <-]|].
      destruct (get_process processes next_pid) as [[k proc]|]; [|done].
      by intros [= <- <- <-].
Qed.

(** The idle step records at most an Idle event of the processor, and none
    for a processor marked busy. *)
Lemma mp_idle_event_events i st proc_state st3 ps3 :
  mp_idle_event i st proc_state = Returned (st3, ps3) →
  mp_processes st3 = mp_processes st ∧
  ps_idle ps3 = ps_idle proc_state ∧
  ∃ new, mp_schedule_events st3 = mp_schedule_events st ++ new ∧
         Forall (λ e, ev_processor e = processor_label i) new ∧
         (ps_idle proc_state = Some false → new = []).
Proof.
  destruct st as [processes global_time ready_queue schedule_events finished processors].
  unfold mp_idle_event.
  assert (∀ st3 ps3,
    Returned (MpState processes global_time ready_queue schedule_events finished
                processors, proc_state) = Returned (st3, ps3) →
    mp_processes st3 = processes ∧ ps_idle ps3 = ps_idle proc_state ∧
    ∃ new, mp_schedule_events st3 = schedule_events ++ new ∧
           Forall (λ e, ev_processor e = processor_label i) new ∧
           (ps_idle proc_state = Some false → new = [])) as Hsame.
  { intros ? ? [= <- <-]. split; [done|]. split; [done|].
    exists []. by rewrite app_nil_r. }
  destruct (ps_proc proc_state); [by apply Hsame|].
  destruct (ps_idle proc_state) as [[|]|] eqn:Hidle; [|by apply Hsame..].
  destruct (ps_event_start proc_state); [|done].
  case_decide; [|by apply Hsame].
  intros [= <- <-]. simpl. split; [done|]. split; [done|].
  eexists [_]. split; [done|]. split; [by repeat constructor|done].
Qed.

Lemma idle_events_of_app i events new :
  idle_events_of i (events ++ new) = idle_events_of i events ++ idle_events_of i new.
Proof. apply filter_app. Qed.

Lemma idle_events_of_none i new :
  Forall (λ e, ev_id e ≠ Idle ∨ ev_processor e ≠ processor_label i) new →
  idle_events_of i new = [].
Proof.
  intros Hnew. unfold idle_events_of.
  induction Hnew as [|e new He _ IH]; [done|].
  rewrite filter_cons, IH. case_decide as Hboth; [|done].
  destruct Hboth as [Hid Hlabel]. by destruct He.
Qed.

Section MpBusy.
Context (time_quantum : Z) (i : nat) (ids : list string) (recorded : list event).
Hypothesis Hids : Idle ∉ ids.

(** The turn of any processor keeps what holds of a processor marked busy. *)
Lemma mp_processor_turn_busy st j st' :
  mp_busy_inv i ids recorded st →
  mp_processor_turn time_quantum st j = Returned st' →
  mp_busy_inv i ids recorded st'.
Proof.
  intros [Hi (ps_i & Hlook & Hmark) Hrec]. unfold mp_processor_turn.
  destruct (mp_processors st !! j) as [proc_state|] eqn:Hj; [|done].
  destruct (mp_update j st proc_state) as [[st1 ps1]| |] eqn:Hupd; [|done..].
  destruct (mp_update_events _ _ _ _ _ Hupd) as (Hi1 & Hidle1 & new1 & He1 & Hnew1).
  destruct (mp_update_processors _ _ _ _ _ Hupd) as (Hp1 & _).
  destruct (mp_dispatch time_quantum st1 ps1) as [[[st2 ps2] skip]| |] eqn:Hdis;
    [|done..].
  destruct (mp_dispatch_events _ _ _ _ _ _ Hdis) as (Hi2 & He2 & Hidle2).
  destruct (mp_dispatch_processors _ _ _ _ _ _ Hdis) as (Hp2 & _).
  assert (idle_events_of i new1 = []) as Hnone1.
  { apply idle_events_of_none. eapply Forall_impl; [exact Hnew1|].
    intros e [Hlabel Hin]. simpl. left. intros Heq. apply Hids.
    by rewrite <- Hi, <- Heq. }
  assert (∀ st3 ps3 new3,
    mp_processes st3 = mp_processes st2 →
    mp_processors st3 = mp_processors st2 →
    mp_schedule_events st3 = mp_schedule_events st2 ++ new3 →
    Forall (λ e, ev_processor e = processor_label j) new3 →
    (ps_idle ps2 = Some false → new3 = [] ∧ ps_idle ps3 = Some false) →
    mp_busy_inv i ids recorded (mp_store j st3 ps3)) as Hend.
  { intros st3 ps3 new3 Hi3 Hp3 He3 Hnew3 Hkeep. split; simpl.
    - by rewrite Hi3, Hi2, Hi1.
    - unfold mp_marked_busy. simpl. rewrite Hp3, Hp2, Hp1.
      destruct (decide (j = i)) as [->|Hne].
      + exists ps3. split.
        * apply list_lookup_insert_eq. by eapply lookup_lt_Some.
        * apply Hkeep, Hidle2. rewrite Hidle1.
          rewrite Hlook in Hj. by injection Hj as <-.
      + exists ps_i. split; [|done]. by rewrite list_lookup_insert_ne.
    - rewrite He3, He2, He1, !idle_events_of_app, Hnone1, Hrec, app_nil_r.
      destruct (decide (j = i)) as [->|Hne].
      + destruct Hkeep as [-> _]; [|by rewrite app_nil_r].
        apply Hidle2. rewrite Hidle1. rewrite Hlook in Hj. by injection Hj as <-.
      + rewrite idle_events_of_none; [by rewrite app_nil_r|].
        eapply Forall_impl; [exact Hnew3|]. intros e Hlabel. simpl. right.
        rewrite Hlabel. by intros ?%processor_label_inj. }
  destruct skip.
  - intros [= <-]. apply (Hend st2 ps2 []); [done|done|by rewrite app_nil_r|done|done].
  - destruct (mp_idle_event j st2 ps2) as [[st3 ps3]| |] eqn:Hidl; [|done..].
    destruct (mp_idle_event_events _ _ _ _ _ Hidl) as (Hi3 & Hidle3 & new3 & He3 & Hnew3 & Hno).
    destruct (mp_idle_event_processors _ _ _ _ _ Hidl) as (Hp3 & _).
    intros [= <-]. apply (Hend st3 ps3 new3); [done..|].
    intros Hfalse. split; [by apply Hno|by rewrite Hidle3].
Qed.

Lemma mp_for_busy range st st' :
  mp_busy_inv i ids recorded st →
  mp_for time_quantum range st = Returned st' →
  mp_busy_inv i ids recorded st'.
Proof.
  revert st. induction range as [|j range IH]; intros st Hinv; simpl.
  - by intros [= <-].
  - destruct (mp_processor_turn time_quantum st j) as [st1| |] eqn:Hturn; [|done..].
    apply IH. by eapply mp_processor_turn_busy.
Qed.

Lemma mp_body_busy num_proc st st' :
  mp_busy_inv i ids recorded st →
  mp_body time_quantum num_proc st = Returned st' →
  mp_busy_inv i ids recorded st'.
Proof.
  intros [Hi Hmark Hrec]. unfold mp_body.
  destruct (mp_for _ _ _) as [st1| |] eqn:Hfor; [|done..].
  apply mp_for_busy in Hfor as [Hi1 Hmark1 Hrec1]; [|by split].
  by intros [= <-].
Qed.
End MpBusy.

(** The multi-processor script marks a processor busy (its ["idle"] key set
    to [False]) and never takes the mark back: whatever the processes (with
    ids other than the Idle owner), the quantum and the number of
    processors, from a unit of time at which processor [i] carries the mark
    onwards, the processor keeps it and no Idle event is recorded for it any
    more, however long it stays without a process. *)
Theorem mp_idle_recording_stops (time_quantum : Z) (num_proc i k : nat)
    (st st' : mp_state) :
  turns mp_cond (mp_body time_quantum num_proc) k st st' →
  Idle ∉ p6_id <$> mp_processes st →
  mp_marked_busy i st →
  mp_marked_busy i st' ∧
  idle_events_of i (mp_schedule_events st')
  = idle_events_of i (mp_schedule_events st).
Proof.
  intros Hturns Hids Hmark.
  assert (mp_busy_inv i (p6_id <$> mp_processes st)
            (idle_events_of i (mp_schedule_events st)) st') as [_ Hmark' Hrec'].
  { apply (turns_invariant mp_cond (mp_body time_quantum num_proc)
             (mp_busy_inv i (p6_id <$> mp_processes st)
                (idle_events_of i (mp_schedule_events st))) k st st'); [|done|done].
    intros s s' Hs _ Hb. by eapply mp_body_busy. }
  done.
Qed.

Lemma mp_idle_recording_stops_witness :
  ∃ st st',
    turns mp_cond (mp_body TIME_QUANTUM NUM_PROC) 2
      (mp_init question6_processes NUM_PROC) st ∧
    turns mp_cond (mp_body TIME_QUANTUM NUM_PROC) 8 st st' ∧
    mp_global_time st' = 10 ∧
    mp_marked_busy 0 st' ∧
    idle_events_of 0 (mp_schedule_events st')
    = idle_events_of 0 (mp_schedule_events st).
Proof.
  eexists _, _.
  split; [do 2 (eapply turns_S; [by vm_compute|by vm_compute|]); apply turns_O|].
  match goal with |- ?A ∧ _ => assert A as H8 end.
  { do 8 (eapply turns_S; [by vm_compute|by vm_compute|]); apply turns_O. }
  split; [exact H8|]. split; [by vm_compute|].
  apply (mp_idle_recording_stops TIME_QUANTUM NUM_PROC 0 8 _ _ H8).
  - apply (bool_decide_unpack _). by vm_compute.
  - eexists. split; by vm_compute.
Defined.

(** ** Several processors: a process that never arrives *)
Section MpUnarrived.
Context (time_quantum : Z) (ids : list string) (waiting : string).

Lemma mp_update_unarrived i st proc_state st1 ps1 :
  mp_update i st proc_state = Returned (st1, ps1) →
  ps_proc proc_state ≠ Some waiting →
  mp_unarrived ids waiting st →
  mp_unarrived ids waiting st1 ∧ ps_proc ps1 ≠ Some waiting.
Proof.
  intros Hupd Hproc [Hids Hlate Hqueue Hfin Hprocs].
  destruct st as [processes global_time ready_queue schedule_events finished processors].
  simpl in *. unfold mp_update in Hupd.
  destruct (ps_proc proc_state) as [cur|] eqn:Hcur; cycle 1.
  { injection Hupd as <- <-. split; [by split|congruence]. }
  destruct (get_process processes cur) as [[k cur_proc]|] eqn:Hget; [|done].
  apply get_process_Some in Hget as [Hk Hid].
  assert (cur ≠ waiting) as Hne by congruence.
  assert (cur_proc ∈ processes) as Hin by by eapply list_elem_of_lookup_2.
  set (cur_proc' := Process6 (p6_id cur_proc) (p6_arrival cur_proc)
                      (p6_burst cur_proc) (p6_remaining cur_proc - 1)) in *.
  assert (p6_id <$> <[k:=cur_proc']> processes = ids) as Hids'.
  { rewrite list_fmap_insert, <- Hids. simpl. apply list_insert_id.
    by rewrite list_lookup_fmap, Hk. }
  assert (∀ p, p ∈ <[k:=cur_proc']> processes → p6_id p = waiting →
               p6_arrival p < global_time) as Hlate'.
  { intros p Hp Hpw. apply list_elem_of_lookup in Hp as [k' Hk'].
    destruct (decide (k' = k)) as [->|Hkk].
    - rewrite list_lookup_insert_eq in Hk' by by eapply lookup_lt_Some.
      injection Hk' as <-. simpl in Hpw. congruence.
    - rewrite list_lookup_insert_ne in Hk' by done.
      apply Hlate; [by eapply list_elem_of_lookup_2|done]. }
  simpl in Hupd. repeat case_decide; injection Hupd as <- <-; simpl.
  - split; [split; simpl; try done|done].
    apply union_subseteq. split; [|done].
    apply singleton_subseteq_l, elem_of_difference. split.
    + apply elem_of_list_to_set. rewrite <- Hids. by apply list_elem_of_fmap_2.
    + rewrite not_elem_of_singleton. congruence.
  - split; [split; simpl; try done|done].
    rewrite not_elem_of_app, not_elem_of_cons. split; [done|].
    split; [congruence|apply not_elem_of_nil].
  - split; [by split|]. congruence.
Qed.

Lemma mp_dispatch_unarrived st proc_state st2 ps2 skip :
  mp_dispatch time_quantum st proc_state = Returned (st2, ps2, skip) →
  ps_proc proc_state ≠ Some waiting →
  mp_unarrived ids waiting st →
  mp_unarrived ids waiting st2 ∧ ps_proc ps2 ≠ Some waiting.
Proof.
  intros Hdis Hproc [Hids Hlate Hqueue Hfin Hprocs].
  destruct st as [processes global_time ready_queue schedule_events finished processors].
  simpl in *. unfold mp_dispatch in Hdis.
  destruct (ps_proc proc_state) as [cur|] eqn:Hcur.
  { injection Hdis as <- <- <-. split; [by split|simpl; congruence]. }
  destruct ready_queue as [|next_pid rest].
  - destruct (ps_idle proc_state); injection Hdis as <- <- <-;
      (split; [by split|simpl; congruence]).
  - apply not_elem_of_cons in Hqueue as [Hnext Hrest].
    case_decide.
    + injection Hdis as <- <- <-. split; [by split|simpl; congruence].
    + destruct (get_process processes next_pid) as [[k proc]|]; [|done].
      injection Hdis as <- <- <-. split; [by split|simpl; congruence].
Qed.

Lemma mp_idle_event_unarrived i st proc_state st3 ps3 :
  mp_idle_event i st proc_state = Returned (st3, ps3) →
  mp_unarrived ids waiting st →
  mp_unarrived ids waiting st3 ∧ ps_proc ps3 = ps_proc proc_state.
Proof.
  intros Hidl [Hids Hlate Hqueue Hfin Hprocs].
  destruct st as [processes global_time ready_queue schedule_events finished processors].
  simpl in *. unfold mp_idle_event in Hidl.
  destruct (ps_proc proc_state) as [cur|] eqn:Hcur.
  { injection Hidl as <- <-. by split. }
  destruct (ps_idle proc_state) as [[|]|]; [|injection Hidl as <- <-; by split..].
  destruct (ps_event_start proc_state); [|done].
  case_decide; injection Hidl as <- <-; by split.
Qed.

Lemma mp_store_unarrived j st proc_state :
  mp_unarrived ids waiting st → ps_proc proc_state ≠ Some waiting →
  mp_unarrived ids waiting (mp_store j st proc_state).
Proof.
  intros [Hids Hlate Hqueue Hfin Hprocs] Hproc. split; simpl; [done..|].
  by apply Forall_insert.
Qed.

Lemma mp_processor_turn_unarrived st j st' :
  mp_unarrived ids waiting st →
  mp_processor_turn time_quantum st j = Returned st' →
  mp_unarrived ids waiting st'.
Proof.
  intros Hinv. unfold mp_processor_turn.
  destruct (mp_processors st !! j) as [proc_state|] eqn:Hj; [|done].
  assert (ps_proc proc_state ≠ Some waiting) as Hproc.
  { pose proof (unarrived_processors _ _ _ Hinv) as Hall.
    by eapply Forall_lookup_1 in Hall. }
  destruct (mp_update j st proc_state) as [[st1 ps1]| |] eqn:Hupd; [|done..].
  destruct (mp_update_unarrived _ _ _ _ _ Hupd Hproc Hinv) as [Hinv1 Hproc1].
  destruct (mp_dispatch time_quantum st1 ps1) as [[[st2 ps2] skip]| |] eqn:Hdis;
    [|done..].
  destruct (mp_dispatch_unarrived _ _ _ _ _ Hdis Hproc1 Hinv1) as [Hinv2 Hproc2].
  destruct skip.
  - intros [= <-]. by apply mp_store_unarrived.
  - destruct (mp_idle_event j st2 ps2) as [[st3 ps3]| |] eqn:Hidl; [|done..].
    destruct (mp_idle_event_unarrived _ _ _ _ _ Hidl Hinv2) as [Hinv3 Hproc3].
    intros [= <-]. apply mp_store_unarrived; [done|]. by rewrite Hproc3.
Qed.

Lemma mp_for_unarrived range st st' :
  mp_unarrived ids waiting st →
  mp_for time_quantum range st = Returned st' →
  mp_unarrived ids waiting st'.
Proof.
  revert st. induction range as [|j range IH]; intros st Hinv; simpl.
  - by intros [= <-].
  - destruct (mp_processor_turn time_quantum st j) as [st1| |] eqn:Hturn; [|done..].
    apply IH. by eapply mp_processor_turn_unarrived.
Qed.

Lemma mp_body_unarrived num_proc st st' :
  mp_unarrived ids waiting st →
  mp_body time_quantum num_proc st = Returned st' →
  mp_unarrived ids waiting st'.
Proof.
  intros [Hids Hlate Hqueue Hfin Hprocs]. unfold mp_body.
  destruct (mp_for _ _ _) as [st1| |] eqn:Hfor; [|done..].
  apply mp_for_unarrived in Hfor as [Hids1 Hlate1 Hqueue1 Hfin1 Hprocs1].
  - intros [= <-]. split; simpl in *; [done| |done..].
    intros p Hp Hpw. specialize (Hlate1 p Hp Hpw). lia.
  - split; simpl; [done|done| |done|done].
    unfold add_arrivals. rewrite not_elem_of_app. split; [done|].
    intros (p & Hpw & Hp)%list_elem_of_fmap.
    apply list_elem_of_filter in Hp as [Harr Hp].
    specialize (Hlate p Hp (eq_sym Hpw)). simpl in Harr. lia.
Qed.

Lemma mp_unarrived_cond st :
  waiting ∈ ids → mp_unarrived ids waiting st → mp_cond st = true.
Proof.
  intros Hw [Hids Hlate Hqueue Hfin Hprocs]. apply bool_decide_eq_true.
  pose proof (subseteq_size _ _ Hfin) as Hle.
  pose proof (size_ids_without ids waiting Hw) as Hlt.
  assert (length ids = length (mp_processes st)) as Hlen
    by (by rewrite <- Hids, length_fmap).
  lia.
Qed.
End MpUnarrived.

(** The multi-processor script queues a process only in the unit of time
    that equals its arrival time, and the clock starts at 0 and goes up by
    one: when every process that carries some id has a negative arrival
    time, that id is never queued, never finished, and the script does not
    come to its end, whatever the quantum and the number of processors:
    after any number of turns its loop is still running, unless a turn has
    raised. *)
Theorem mp_never_ends_on_negative_arrival (processes : list process6)
    (time_quantum : Z) (num_proc : nat) (waiting : string) (fuel : nat) :
  waiting ∈ p6_id <$> processes →
  (∀ p, p ∈ processes → p6_id p = waiting → p6_arrival p < 0) →
  multiprocessor_round_robin processes time_quantum num_proc fuel = OutOfFuel
  ∨ ∃ e, multiprocessor_round_robin processes time_quantum num_proc fuel = Raised e.
Proof.
  intros Hw Hneg. unfold multiprocessor_round_robin.
  destruct (while _ _ _ _) as [st|e|] eqn:Hwhile; simpl; [|right; by exists e|by left].
  exfalso. revert Hwhile.
  apply (while_not_returned mp_cond (mp_body time_quantum num_proc)
           (mp_unarrived (p6_id <$> processes) waiting)).
  - intros s. by apply mp_unarrived_cond.
  - intros s s' Hs Hb. by eapply mp_body_unarrived.
  - split; simpl; [done|done|apply not_elem_of_nil|apply empty_subseteq|].
    by apply Forall_replicate.
Qed.

Lemma mp_never_ends_on_negative_arrival_witness :
  multiprocessor_round_robin
    [Process6 "P1" 0 2 2; Process6 "P2" (-1) 1 1] 2 2 50 = OutOfFuel
  ∨ ∃ e, multiprocessor_round_robin
           [Process6 "P1" 0 2 2; Process6 "P2" (-1) 1 1] 2 2 50 = Raised e.
Proof.
  apply (mp_never_ends_on_negative_arrival _ 2 2 "P2" 50).
  - apply (bool_decide_unpack _). by vm_compute.
  - intros p Hp Hid.
    apply elem_of_cons in Hp as [->|Hp]; [done|].
    apply elem_of_cons in Hp as [->|Hp]; [simpl; lia|].
    by apply elem_of_nil in Hp.
Defined.

(** ** Several processors: a one-unit slice on a processor that was idle *)

Lemma while_step {S : Type} (cond : S → bool) (body : S → outcome S) fuel st st' :
  cond st = true → body st = Returned st' →
  while cond body (Datatypes.S fuel) st = while cond body fuel st'.
Proof. intros Hc Hb. simpl. by rewrite Hc, Hb. Qed.

Lemma while_step_raises {S : Type} (cond : S → bool) (body : S → outcome S)
    fuel st e :
  cond st = true → body st = Raised e →
  while cond body (Datatypes.S fuel) st = Raised e.
Proof. intros Hc Hb. simpl. by rewrite Hc, Hb. Qed.

Lemma lone_unit_cond pid0 arrival0 burst0 remaining0 t queue events processors :
  mp_cond (MpState [Process6 pid0 arrival0 burst0 remaining0] t queue events ∅
             processors) = true.
Proof.
  apply bool_decide_eq_true. cbn [mp_finished mp_processes length].
  rewrite size_empty. lia.
Qed.

Section MpIdlePhase.
Context (time_quantum : Z).

(** The turn of a processor without a process, on an empty queue: it starts
    or goes on recording idle time and touches nothing but the events. *)
Lemma mp_idle_turn st j proc_state :
  mp_processors st !! j = Some proc_state →
  mp_ready_queue st = [] →
  ps_fresh proc_state ∨ ps_idling proc_state →
  ∃ events' ps',
    mp_processor_turn time_quantum st j
    = Returned (MpState (mp_processes st) (mp_global_time st) [] events'
                  (mp_finished st) (<[j := ps']> (mp_processors st)))
    ∧ ps_idling ps'.
Proof.
  destruct st as [processes global_time ready_queue schedule_events finished processors].
  destruct proc_state as [proc slice event_start idle].
  simpl. intros Hj -> Hps. unfold mp_processor_turn. simpl. rewrite Hj.
  unfold ps_fresh, ps_idling in Hps. simpl in Hps.
  destruct Hps as [[-> ->]|(-> & -> & [es ->])].
  - unfold mp_update, mp_dispatch, mp_idle_event, mp_store. simpl.
    rewrite decide_False by lia. simpl.
    eexists _, _. split; [done|]. by repeat split.
  - unfold mp_update, mp_dispatch, mp_idle_event, mp_store. simpl.
    case_decide; simpl; (eexists _, _; split; [done|]; by repeat split).
Qed.

(** The [for] loop over processors that are all without a process, on an
    empty queue. *)
Lemma mp_for_idle todo :
  ∀ done st,
    mp_processors st = done ++ todo →
    mp_ready_queue st = [] →
    Forall (λ proc_state, ps_fresh proc_state ∨ ps_idling proc_state) todo →
    ∃ events' todo',
      mp_for time_quantum (seq (length done) (length todo)) st
      = Returned (MpState (mp_processes st) (mp_global_time st) [] events'
                    (mp_finished st) (done ++ todo'))
      ∧ Forall ps_idling todo' ∧ length todo' = length todo.
Proof.
  induction todo as [|proc_state todo IH]; intros done st Hprocs Hqueue Htodo.
  - exists (mp_schedule_events st), []. rewrite <- Hprocs, <- Hqueue.
    destruct st. simpl. done.
  - apply Forall_cons in Htodo as [Hps Htodo]. simpl.
    destruct (mp_idle_turn st (length done) proc_state) as (events1 & ps1 & -> & Hps1);
      [|done|done|].
    { rewrite Hprocs. by apply list_lookup_middle. }
    set (st1 := MpState _ _ _ _ _ _).
    destruct (IH (done ++ [ps1]) st1) as (events' & todo' & Hfor & Htodo' & Hlen).
    + subst st1. simpl. rewrite Hprocs.
      rewrite <- (Nat.add_0_r (length done)), insert_app_r. simpl.
      by rewrite <- (assoc_L (++)).
    + done.
    + done.
    + rewrite length_app, Nat.add_1_r in Hfor. simpl in Hfor.
      exists events', (ps1 :: todo'). rewrite Hfor.
      split; [by rewrite <- (assoc_L (++))|]. split; [by constructor|].
      simpl. by rewrite Hlen.
Qed.

(** A unit of time in which no process arrives and no processor holds a
    process. *)
Lemma mp_body_idle num_proc st :
  length (mp_processors st) = num_proc →
  mp_ready_queue st = [] →
  filter (λ proc, p6_arrival proc = mp_global_time st) (mp_processes st) = [] →
  Forall (λ proc_state, ps_fresh proc_state ∨ ps_idling proc_state) (mp_processors st) →
  ∃ events' processors',
    mp_body time_quantum num_proc st
    = Returned (MpState (mp_processes st) (mp_global_time st + 1) [] events'
                  (mp_finished st) processors')
    ∧ Forall ps_idling processors' ∧ length processors' = num_proc.
Proof.
  intros Hlen Hqueue Harr Hall. unfold mp_body, add_arrivals.
  rewrite Harr, Hqueue. simpl.
  set (st0 := MpState _ _ _ _ _ _).
  destruct (mp_for_idle (mp_processors st) [] st0) as (events' & todo' & Hfor & Htodo & Hl);
    [done..|].
  simpl in Hfor. rewrite Hlen in Hfor. rewrite Hfor. simpl.
  exists events', todo'. split; [done|]. split; [done|]. by rewrite Hl.
Qed.
End MpIdlePhase.

Section MpUnitSlice.
Context (pid0 : string) (arrival0 burst0 time_quantum : Z) (num_proc : nat).

Local Abbreviation processes := (lone_unit_process pid0 arrival0 burst0).
Local Abbreviation cond := mp_cond.
Local Abbreviation body := (mp_body time_quantum num_proc).

(** Before the arrival the processors only record idle time. *)
Lemma mp_unit_wait (k : nat) :
  ∀ t events processors,
    1 ≤ t → t + Z.of_nat k = arrival0 →
    Forall ps_idling processors → length processors = num_proc →
    ∃ events' processors',
      Forall ps_idling processors' ∧ length processors' = num_proc ∧
      ∀ fuel,
        while cond body (k + fuel) (MpState processes t [] events ∅ processors)
        = while cond body fuel (MpState processes arrival0 [] events' ∅ processors').
Proof.
  induction k as [|k IH]; intros t events processors Ht Hk Hall Hlen.
  - exists events, processors. split; [done|]. split; [done|].
    intros fuel. simpl. by replace t with arrival0 by lia.
  - destruct (mp_body_idle time_quantum num_proc (MpState processes t [] events ∅ processors))
      as (events1 & processors1 & Hbody & Hall1 & Hlen1); simpl.
    + done.
    + done.
    + unfold lone_unit_process. rewrite filter_cons, filter_nil. simpl.
      rewrite decide_False; [done|lia].
    + eapply Forall_impl; [exact Hall|]. intros ps Hps. by right.
    + simpl in Hbody.
      destruct (IH (t + 1) events1 processors1) as (events' & processors' & Hall' & Hlen' & Hw);
        [lia|lia|done|done|].
      exists events', processors'. split; [done|]. split; [done|].
      intros fuel. rewrite <- Hw.
      change (Datatypes.S k + fuel)%nat with (Datatypes.S (k + fuel)).
      apply while_step; [apply lone_unit_cond|done].
Qed.

(** At its arrival the process gets processor 1 for one unit; one unit
    later it is finished, the processor is without a process, its
    ["event_start"] is [None] and its ["idle"] is still [True]: the
    comparison of line 95 raises TypeError. *)
Lemma mp_unit_crash events processors fuel :
  (1 ≤ num_proc)%nat →
  Forall ps_idling processors → length processors = num_proc →
  while cond body (2 + fuel) (MpState processes arrival0 [] events ∅ processors)
  = Raised TypeError.
Proof.
  intros Hnum Hall Hlen.
  destruct processors as [|ps0 rest]; [simpl in Hlen; lia|].
  apply Forall_cons in Hall as [(Hproc0 & Hidle0 & Hes0) Hrest].
  destruct ps0 as [proc0 slice0 es0 idle0]. simpl in Hproc0, Hidle0. subst proc0 idle0.
  (* the unit of the arrival *)
  assert (∃ events1 rest1,
    body (MpState processes arrival0 [] events ∅
            (Processor None slice0 es0 (Some true) :: rest))
    = Returned (MpState processes (arrival0 + 1) [] events1 ∅
                  (Processor (Some pid0) (Z.min time_quantum 1) (Some arrival0)
                     (Some true) :: rest1))) as (events1 & rest1 & Hb1).
  { unfold mp_body, add_arrivals, lone_unit_process. simpl.
    rewrite filter_cons, filter_nil. simpl.
    rewrite decide_True by done. simpl.
    destruct num_proc as [|m]; [lia|]. simpl.
    unfold mp_processor_turn at 1. simpl.
    rewrite decide_False by apply not_elem_of_empty.
    unfold get_process. simpl. rewrite decide_True by done. simpl.
    unfold mp_store. simpl.
    set (busy := Processor (Some pid0) _ _ _).
    destruct (mp_for_idle time_quantum rest [busy]
                (MpState processes arrival0 [] events ∅ (busy :: rest)))
      as (events1 & rest1 & Hfor & _ & _).
    - done.
    - done.
    - eapply Forall_impl; [exact Hrest|]. intros ps Hps. by right.
    - simpl in Hfor. simpl in Hlen. injection Hlen as Hlen. rewrite Hlen in Hfor.
      unfold lone_unit_process in Hfor. rewrite Hfor. simpl. by exists events1, rest1. }
  change (2 + fuel)%nat with (Datatypes.S (Datatypes.S fuel)).
  rewrite (while_step _ _ _ _ _ (lone_unit_cond _ _ _ _ _ _ _ _) Hb1).
  (* the unit after it *)
  apply while_step_raises; [apply lone_unit_cond|].
  unfold mp_body, add_arrivals, lone_unit_process. simpl.
  rewrite filter_cons, filter_nil. simpl.
  rewrite decide_False by lia. simpl.
  destruct num_proc as [|m]; [lia|]. simpl.
  unfold mp_processor_turn at 1. simpl.
  unfold get_process. simpl. rewrite decide_True by done. simpl. done.
Qed.
End MpUnitSlice.

(** A lone process that arrives after time 0 with one unit of work left
    makes the multi-processor script raise TypeError, whatever its id and
    burst, the quantum and the number of processors: the processor that
    serves it was recording idle time, so its ["idle"] key is [True]; the
    process finishes after one unit, before the key could be set to
    [False]; ["event_start"] is then [None] and line 95 compares the clock
    with it. *)
Theorem mp_raises_after_unit_slice (pid0 : string) (arrival0 burst0 time_quantum : Z)
    (num_proc fuel : nat) :
  1 ≤ arrival0 → (1 ≤ num_proc)%nat → (Z.to_nat arrival0 + 2 ≤ fuel)%nat →
  multiprocessor_round_robin (lone_unit_process pid0 arrival0 burst0)
    time_quantum num_proc fuel
  = Raised TypeError.
Proof.
  intros Harrival Hnum Hfuel. unfold multiprocessor_round_robin.
  (* the unit of time 0 *)
  destruct (mp_body_idle time_quantum num_proc
              (mp_init (lone_unit_process pid0 arrival0 burst0) num_proc))
    as (events1 & processors1 & Hbody & Hall1 & Hlen1); simpl.
  - apply length_replicate.
  - done.
  - unfold lone_unit_process. rewrite filter_cons, filter_nil. simpl.
    rewrite decide_False; [done|lia].
  - apply Forall_replicate. by left.
  - simpl in Hbody.
    destruct (mp_unit_wait pid0 arrival0 burst0 time_quantum num_proc
                (Z.to_nat (arrival0 - 1)) 1 events1 processors1)
      as (events' & processors' & Hall' & Hlen' & Hwait); [lia|lia|done|done|].
    replace fuel with
      (Datatypes.S (Z.to_nat (arrival0 - 1) + (2 + (fuel - Z.to_nat arrival0 - 2))))%nat
      by lia.
    rewrite (while_step _ _ _ _ _ (lone_unit_cond _ _ _ _ _ _ _ _) Hbody).
    replace (0 + 1) with 1 by lia.
    rewrite Hwait.
    by rewrite (mp_unit_crash pid0 arrival0 burst0 time_quantum num_proc).
Qed.

Lemma mp_raises_after_unit_slice_witness :
  multiprocessor_round_robin (lone_unit_process "A" 1 1) 2 2 3 = Raised TypeError.
Proof.
  apply (mp_raises_after_unit_slice "A" 1 1 2 2 3); [lia|lia|simpl; lia].
Defined.
